(** * Verification of the ensemble answer engine of ai-server (src/api/index.ts)

    Shallow embedding of the TypeScript handler: string utilities, the
    answer extractor [parseAnswerWithConfidence], the retrying provider
    client [callSingleModel], the prompt builder [buildPrompt], the judge-mode
    ensemble [callGeminiEnsemble] and the request handler with its answer
    cache [recentAnswers].

    Texts are modelled as Rocq [string]s of 8-bit characters (JavaScript
    code units below 256).  Case mapping ([toUpperCase], [toLowerCase]) is
    JavaScript's on ASCII letters; the texts used in this development are
    ASCII, apart from the emoji of [formatError]'s messages, which are
    written as their UTF-8 bytes. *)

From Stdlib Require Import Ascii String ZArith QArith List Lia Bool Sorted.
From stdpp Require Import base gmap strings pretty.
Import ListNotations.

Open Scope string_scope.
Open Scope Z_scope.

(* ================================================================== *)
(** ** JavaScript string primitives *)

Module Js.

Definition code (c : ascii) : Z := Z.of_nat (nat_of_ascii c).
Definition chr (n : Z) : ascii := ascii_of_nat (Z.to_nat n).

(** [\s] of JavaScript regular expressions and the set [String.prototype.trim]
    removes, restricted to code units below 256: TAB, LF, VT, FF, CR, SPACE
    and NO-BREAK SPACE. *)
Definition is_ws (c : ascii) : bool :=
  let n := code c in
  ((9 <=? n) && (n <=? 13)) || (n =? 32) || (n =? 160).

Definition upper_char (c : ascii) : ascii :=
  let n := code c in if (97 <=? n) && (n <=? 122) then chr (n - 32) else c.
Definition lower_char (c : ascii) : ascii :=
  let n := code c in if (65 <=? n) && (n <=? 90) then chr (n + 32) else c.

Fixpoint map_chars (f : ascii -> ascii) (s : string) : string :=
  match s with
  | EmptyString => EmptyString
  | String c s' => String (f c) (map_chars f s')
  end.

Definition toUpperCase (s : string) : string := map_chars upper_char s.
Definition toLowerCase (s : string) : string := map_chars lower_char s.

Fixpoint trim_start (s : string) : string :=
  match s with
  | String c s' => if is_ws c then trim_start s' else s
  | EmptyString => EmptyString
  end.

Fixpoint rev_string (s : string) : string :=
  match s with
  | EmptyString => EmptyString
  | String c s' => rev_string s' ++ String c EmptyString
  end.

Definition trim_end (s : string) : string := rev_string (trim_start (rev_string s)).
Definition trim (s : string) : string := trim_end (trim_start s).

(** [s.startsWith(p)] *)
Fixpoint starts_with (p s : string) : bool :=
  match p, s with
  | EmptyString, _ => true
  | String a p', String b s' => Ascii.eqb a b && starts_with p' s'
  | String _ _, EmptyString => false
  end.

(** [s.includes(p)] *)
Fixpoint includes (s p : string) : bool :=
  starts_with p s ||
  match s with
  | EmptyString => false
  | String _ s' => includes s' p
  end.

(** The characters matching [/[A-F]/] (case-sensitive), in order: the array
    of [s.match(/[A-F]/g)], [null] being the empty list. *)
Definition is_AF (c : ascii) : bool := let n := code c in (65 <=? n) && (n <=? 70).

Fixpoint af_letters (s : string) : list ascii :=
  match s with
  | EmptyString => []
  | String c s' => if is_AF c then c :: af_letters s' else af_letters s'
  end.

(** [[...new Set(xs)]]: first occurrences, in order. *)
Fixpoint dedup_acc (seen : list ascii) (xs : list ascii) : list ascii :=
  match xs with
  | [] => []
  | x :: xs' =>
      if existsb (Ascii.eqb x) seen then dedup_acc seen xs'
      else x :: dedup_acc (x :: seen) xs'
  end.
Definition dedup (xs : list ascii) : list ascii := dedup_acc [] xs.

(** [Array.prototype.sort()] without comparator on one-character strings:
    ascending code unit order (insertion sort, stable). *)
Fixpoint insert_char (c : ascii) (xs : list ascii) : list ascii :=
  match xs with
  | [] => [c]
  | y :: ys => if code y <=? code c then y :: insert_char c ys else c :: y :: ys
  end.
Fixpoint sort_chars (xs : list ascii) : list ascii :=
  match xs with
  | [] => []
  | x :: xs' => insert_char x (sort_chars xs')
  end.

(** [xs.join(", ")] on one-character strings. *)
Fixpoint join_comma (xs : list ascii) : string :=
  match xs with
  | [] => ""
  | [x] => String x EmptyString
  | x :: xs' => String x (", " ++ join_comma xs')
  end.

(** [[...new Set(letters)].sort().join(", ")] *)
Definition letter_set (xs : list ascii) : string := join_comma (sort_chars (dedup xs)).

End Js.

(* ================================================================== *)
(** ** Data model (interfaces of src/api/index.ts) *)

Record QuestionOption := mkOption { label : string; text : string }.

Record QuestionInput := mkQuestion {
  question : string;
  options : option (list QuestionOption);
  qtype : option string;
  number : option Z;
  image : option string }.

(** The [ModelResult] objects built by [callSingleModel]:
    [{ success: true, answer, confidence, model, raw }] and
    [{ success: false, model, error }]. *)
Inductive ModelResult :=
| MOk (model answer : string) (confidence : Z) (raw : string)
| MErr (model error : string).

#[global] Instance ModelResult_eq_dec : EqDecision ModelResult.
Proof. solve_decision. Defined.

Definition success (r : ModelResult) : bool :=
  match r with MOk _ _ _ _ => true | MErr _ _ => false end.

Record VotingResult := mkVoting {
  finalAnswer : string;
  finalConfidence : Z;
  method : string }.

(** A JavaScript outcome: a returned value or a thrown [Error(msg)]. *)
Inductive Outcome (A : Type) := Ret (v : A) | Throw (msg : string).
Arguments Ret {A} v.
Arguments Throw {A} msg.

(* ================================================================== *)
(** ** Ensemble answer normalisation ([normalize] inside [callGeminiEnsemble]) *)

Module Ensemble.
Import Js.

Definition opt_text_key (o : QuestionOption) : string := trim (toLowerCase (text o)).

(** [const normalize = (ans, opts) => ...]; [ans] is [r.answer], a string for
    a successful worker. *)
Definition normalize (ans : string) (opts : list QuestionOption) : string :=
  if String.eqb ans "" then "" else
  let a := toUpperCase (trim ans) in
  if String.eqb a "TRUE" then "true" else
  if String.eqb a "FALSE" then "false" else
  let tf :=
    if Nat.eqb (List.length opts) 2 then
      let optTexts := map opt_text_key opts in
      let isTrueFalseQuestion :=
        existsb (String.eqb "true") optTexts || existsb (String.eqb "false") optTexts in
      if isTrueFalseQuestion then
        let trueOpt := find (fun o => String.eqb (opt_text_key o) "true") opts in
        let falseOpt := find (fun o => String.eqb (opt_text_key o) "false") opts in
        let lab_is o l := match o with Some o => String.eqb (label o) l | None => false end in
        if String.eqb a "A" && lab_is trueOpt "A" then Some "true" else
        if String.eqb a "A" && lab_is falseOpt "A" then Some "false" else
        if String.eqb a "B" && lab_is trueOpt "B" then Some "true" else
        if String.eqb a "B" && lab_is falseOpt "B" then Some "false" else None
      else None
    else None in
  match tf with
  | Some v => v
  | None =>
      let letters := af_letters a in
      match letters with
      | _ :: _ => letter_set letters
      | [] =>
          let exact := find (fun o => negb (String.eqb (text o) "") &&
                                      String.eqb (toLowerCase (trim (text o))) (toLowerCase a)) opts in
          match exact with
          | Some o => label o
          | None => a
          end
      end
  end.

Record VoteEntry := mkEntry { count : Z; totalConfidence : Z; models : list string }.

(** [voteCounts[ans].count++; ... .totalConfidence += r.confidence!;
    ... .models.push(r.model)], a new key being appended at the end. *)
Fixpoint add_vote (t : list (string * VoteEntry)) (k : string) (c : Z) (m : string)
  : list (string * VoteEntry) :=
  match t with
  | [] => [(k, mkEntry 1 c [m])]
  | (k', e) :: t' =>
      if String.eqb k' k
      then (k', mkEntry (count e + 1) (totalConfidence e + c) (models e ++ [m])) :: t'
      else (k', e) :: add_vote t' k c m
  end.

(** The votes cast: [(normalizedAnswers[i], r.confidence, r.model)] for every
    successful worker whose normalised answer is non-empty, in worker order. *)
Definition ballots (options : list QuestionOption) (results : list ModelResult)
  : list (string * Z * string) :=
  flat_map (fun r => match r with
                     | MOk m a c _ =>
                         let n := normalize a options in
                         if String.eqb n "" then [] else [(n, c, m)]
                     | MErr _ _ => []
                     end) results.

(** The table of own properties that [forEach] builds when no ballot key is
    an inherited property (see [tally]). *)
Definition voteCounts (options : list QuestionOption) (results : list ModelResult)
  : list (string * VoteEntry) :=
  fold_left (fun t '(k, c, m) => add_vote t k c m) (ballots options results) [].

(** The properties of [Object.prototype] (V8).  On the plain object
    [voteCounts = {}], a key [k] that is not an own property reads the
    inherited member: a function, or [Object.prototype] itself for
    [__proto__]; in both cases [!voteCounts[k]] is false. *)
Definition object_prototype_keys : list string :=
  ["constructor"; "__defineGetter__"; "__defineSetter__"; "hasOwnProperty";
   "__lookupGetter__"; "__lookupSetter__"; "isPrototypeOf"; "propertyIsEnumerable";
   "toString"; "valueOf"; "__proto__"; "toLocaleString"].

Definition inherited_key (k : string) : bool := existsb (String.eqb k) object_prototype_keys.

Definition own_key {V} (t : list (string * V)) (k : string) : bool :=
  existsb (fun kv => String.eqb (fst kv) k) t.

(** One iteration of the [results.forEach] body for the ballot [(k, c, m)].
    An own key is updated and a missing key is created, as [add_vote] does.
    For an inherited key the initialisation is skipped ([!voteCounts[k]] is
    false), [.count++] and [.totalConfidence += c] write onto the inherited
    member, and [voteCounts[k].models] is undefined, so [.models.push(m)]
    throws a TypeError: [None]. *)
Definition tally_vote (t : list (string * VoteEntry)) (k : string) (c : Z) (m : string)
  : option (list (string * VoteEntry)) :=
  if own_key t k then Some (add_vote t k c m)
  else if inherited_key k then None
  else Some (add_vote t k c m).

(** The whole [results.forEach(...)]: the table built, or [None] when an
    iteration throws (the later ones are not run). *)
Definition tally (options : list QuestionOption) (results : list ModelResult)
  : option (list (string * VoteEntry)) :=
  fold_left (fun acc '(k, c, m) =>
               match acc with Some t => tally_vote t k c m | None => None end)
            (ballots options results) (Some []).

(** Stable insertion sort with a JavaScript comparator: [cmp a b > 0] puts
    [b] before [a]; elements comparing equal keep their order. *)
Fixpoint insert_by {A} (cmp : A -> A -> Z) (x : A) (l : list A) : list A :=
  match l with
  | [] => [x]
  | y :: l' => if 0 <? cmp x y then y :: insert_by cmp x l' else x :: y :: l'
  end.
Definition sort_by {A} (cmp : A -> A -> Z) (l : list A) : list A :=
  fold_right (insert_by cmp) [] l.

(** Property order of [Object.entries]: keys that are array indices
    (canonical decimal numerals below 2^32 - 1) first, in increasing numeric
    order, then the other keys in insertion order. *)
Fixpoint digits_value (s : string) (acc : Z) : option Z :=
  match s with
  | EmptyString => Some acc
  | String c s' =>
      let n := code c in
      if (48 <=? n) && (n <=? 57) then digits_value s' (10 * acc + (n - 48)) else None
  end.

Definition array_index (k : string) : option Z :=
  match k with
  | String c s' =>
      if (Ascii.eqb c "0"%char) then (if String.eqb s' "" then Some 0 else None)
      else match digits_value k 0 with
           | Some v => if v <? 4294967295 then Some v else None
           | None => None
           end
  | EmptyString => None
  end.

Definition object_entries {V} (t : list (string * V)) : list (string * V) :=
  let idx := List.filter (fun kv => match array_index (fst kv) with Some _ => true | None => false end) t in
  let others := List.filter (fun kv => match array_index (fst kv) with Some _ => false | None => true end) t in
  sort_by (fun a b => match array_index (fst a), array_index (fst b) with
                      | Some x, Some y => x - y
                      | _, _ => 0
                      end) idx ++ others.

Record SortedVote := mkSorted {
  sv_answer : string; sv_count : Z; sv_avgConfidence : Z; sv_models : list string }.

(** [Math.round(t / c)] for integers [t] and [c > 0]: [floor(t / c + 1/2)]. *)
Definition js_round_div (t c : Z) : Z := (2 * t + c) / (2 * c).

Definition vote_cmp (a b : SortedVote) : Z :=
  if negb (sv_count b =? sv_count a) then sv_count b - sv_count a
  else sv_avgConfidence b - sv_avgConfidence a.

(** [Object.entries(voteCounts).map(...).sort(...)] *)
Definition sort_entries (counts : list (string * VoteEntry)) : list SortedVote :=
  sort_by vote_cmp
    (map (fun '(a, d) => mkSorted a (count d) (js_round_div (totalConfidence d) (count d)) (models d))
         (object_entries counts)).

Definition sortedVotes (options : list QuestionOption) (results : list ModelResult)
  : list SortedVote :=
  sort_entries (voteCounts options results).

Definition res_confidence (r : ModelResult) : Z :=
  match r with MOk _ _ c _ => c | MErr _ _ => 0 end.

(** The ballots cast for the normalised answer [x], and their confidence sum. *)
Definition supporters (options : list QuestionOption) (results : list ModelResult) (x : string)
  : list (string * Z * string) :=
  List.filter (fun b => String.eqb (fst (fst b)) x) (ballots options results).

Definition ballot_total (bs : list (string * Z * string)) : Z :=
  fold_right (fun b acc => snd (fst b) + acc) 0 bs.

End Ensemble.

(** [MODELS]: three workers and the judge. *)
Definition MODELS : list string :=
  ["gemini-3-flash-preview"; "gemini-2.0-flash-001"; "gemini-2.5-flash-lite"; "gemini-2.5-pro"].
Definition workers : list string :=
  ["gemini-3-flash-preview"; "gemini-2.0-flash-001"; "gemini-2.5-flash-lite"].
Definition judge : string := "gemini-2.5-pro".

Module Engine.
Import Ensemble.

(** [callGeminiEnsemble(prompt, options, imageBase64)].  [call m] is the
    [ModelResult] that [callSingleModel(m, prompt, imageBase64)] resolves to;
    the judge's result is only consulted on the no-majority path.  The
    vote tally runs before both; a TypeError it throws rejects the call with
    V8's message. *)
Definition callGeminiEnsemble (call : string -> ModelResult) (options : list QuestionOption)
  : Outcome VotingResult :=
  let results := map call workers in
  match tally options results with
  | None => Throw "Cannot read properties of undefined (reading 'push')"
  | Some counts =>
      let majority :=
        match sort_entries counts with
        | topVote :: _ =>
            if 2 <=? sv_count topVote then
              Some (mkVoting (sv_answer topVote) (sv_avgConfidence topVote)
                             (if sv_count topVote =? 3 then "unanimous" else "majority"))
            else None
        | [] => None
        end in
      match majority with
      | Some v => Ret v
      | None =>
          match call judge with
          | MOk _ ans conf _ => Ret (mkVoting ans conf "judge")
          | MErr _ _ =>
              let best := sort_by (fun a b => res_confidence b - res_confidence a)
                                  (List.filter success results) in
              match best with
              | MOk _ ans conf _ :: _ => Ret (mkVoting ans conf "fallback_worker")
              | _ => Throw "All models failed including Judge"
              end
          end
      end
  end.

End Engine.

(** A provider environment answering with fixed results: [w1], [w2], [w3]
    for the three workers and [j] for the judge. *)
Definition fixed_calls (w1 w2 w3 j : ModelResult) (m : string) : ModelResult :=
  if String.eqb m "gemini-3-flash-preview" then w1
  else if String.eqb m "gemini-2.0-flash-001" then w2
  else if String.eqb m "gemini-2.5-flash-lite" then w3 else j.

(* ================================================================== *)
(** ** Prompt builder ([buildPrompt]) *)

(** The [prompt] field of a POST /ask body: a string or a question object. *)
Inductive PromptInput := PStr (s : string) | PObj (q : QuestionInput).

Module Prompt.

Definition nl : string := String "010"%char EmptyString.
Definition dq : string := String "034"%char EmptyString.
Definition quoted (s : string) : string := dq ++ s ++ dq.
Definition line (s : string) : string := s ++ nl.

(** The template literal returned for a string prompt. *)
Definition string_template : string :=
  line ("You are a MikroTik certification exam expert operating in " ++ quoted "DEEP THINKING MODE" ++ ".") ++
  nl ++
  line "PROTOCOL:" ++
  line "1.  **Analyze**: Read the question and every single option carefully." ++
  line "2.  **Evaluate**: For EACH option, write a detailed explanation why it is correct or incorrect." ++
  line "3.  **Reasoning**: You MUST provide thorough reasoning (at least 5-10 sentences). Do NOT be lazy." ++
  line "4.  **Conclusion**: Final Answer must be determined only after analysis." ++
  nl ++
  line "FORMAT:" ++
  line "Reasoning:" ++
  line "[Your detailed step-by-step analysis here...]" ++
  nl ++
  line "JSON:" ++
  line ("{" ++ quoted "answer" ++ ": " ++ quoted "A" ++ ", " ++ quoted "confidence" ++ ": 95}").

Fixpoint render_options (opts : list QuestionOption) : string :=
  match opts with
  | [] => ""
  | o :: os => line (label o ++ ". " ++ text o) ++ render_options os
  end.

Definition truthy_string (s : option string) : bool :=
  match s with Some v => negb (String.eqb v "") | None => false end.

(** [buildPrompt(input)] *)
Definition buildPrompt (input : PromptInput) : string :=
  match input with
  | PStr _ => string_template
  | PObj q =>
      let p := line "You are a MikroTik certification exam expert." ++ nl in
      let p := p ++ line "Goal: Provide the most accurate answer based on deep technical reasoning." ++ nl in
      let p := p ++ line "INSTRUCTIONS:" in
      let p := p ++ line ("1. Analyze the Question: Identify key constraints (e.g., " ++ quoted "invalid" ++
                          ", " ++ quoted "not" ++ ", " ++ quoted "public IP" ++ ").") in
      let p := p ++ line "2. Analyze Options: Evaluate each option's technical validity." in
      let p := p ++ line "3. Chain of Thought: Explain your step-by-step reasoning." in
      let p := p ++ line "4. Final Output: Return the answer in strictly valid JSON." ++ nl in
      let p := p ++ line ("Question: " ++ question q) in
      let p :=
        match options q with
        | Some ((_ :: _) as opts) =>
            p ++ line "Options:" ++ render_options opts ++
            (match qtype q with
             | Some t =>
                 if String.eqb t "checkbox" then nl ++ line "Type: CHECKBOX (select ALL correct answers)"
                 else if String.eqb t "select" then nl ++ line "Type: TRUE/FALSE"
                 else nl ++ line "Type: SINGLE CHOICE"
             | None => nl ++ line "Type: SINGLE CHOICE"
             end)
        | _ => p
        end in
      let p := p ++ nl ++ line "Output Format:" in
      let p := p ++ line ("First, write your " ++ quoted "Reasoning: ..." ++ " block.") in
      let p := p ++ line ("Then, write " ++ dq ++ "JSON: {" ++ quoted "answer" ++ ": " ++ quoted "..." ++
                          ", " ++ quoted "confidence" ++ ": ...}" ++ dq ++ " on a new line.") in
      let p :=
        if truthy_string (image q)
        then p ++ nl ++ line "[IMAGE DETECTED] An image is provided with this question. Analyze the image carefully."
        else p in
      p
  end.

End Prompt.

(* ================================================================== *)
(** ** Request handler and answer cache ([handler], [recentAnswers]) *)

Module Handler.
Import Js.

Definition TTL_MS : Z := 120 * 1000.

(** [normalizePrompt(s)]: the replacements [/\s+\n/g -> "\n"],
    [/\n\s+/g -> "\n"], [/[ \t]+/g -> " "], [/[.。…]+$/g -> ""], then
    [trim()].  Each of the first three regular expressions only matches
    inside a maximal run of its character class, and a global replace
    rewrites every such run independently, so each pass is written as a map
    over the runs.  Characters are code units below 256, so the two
    non-ASCII terminators of the fourth pattern do not occur and it strips
    the trailing run of dots. *)
Definition is_nl (c : ascii) : bool := Ascii.eqb c "010"%char.
Definition nl_str : string := String "010"%char EmptyString.

(** Apply [f] to every maximal run of characters satisfying [P]. *)
Fixpoint map_runs_acc (P : ascii -> bool) (f : string -> string) (run s : string) : string :=
  match s with
  | EmptyString => f run
  | String c s' =>
      if P c then map_runs_acc P f (run ++ String c EmptyString) s'
      else f run ++ String c (map_runs_acc P f EmptyString s')
  end.
Definition map_runs (P : ascii -> bool) (f : string -> string) (s : string) : string :=
  map_runs_acc P f EmptyString s.

(** The part of a string after its last line feed, if it has one. *)
Fixpoint after_last_nl (r : string) : option string :=
  match r with
  | EmptyString => None
  | String c r' =>
      match after_last_nl r' with
      | Some t => Some t
      | None => if is_nl c then Some r' else None
      end
  end.

(** The parts of a string before and after its first line feed. *)
Fixpoint split_first_nl (r : string) : option (string * string) :=
  match r with
  | EmptyString => None
  | String c r' =>
      if is_nl c then Some (EmptyString, r')
      else match split_first_nl r' with
           | Some (b, t) => Some (String c b, t)
           | None => None
           end
  end.

(** [/\s+\n/g -> "\n"] on a whitespace run: the match starts at the run
    start, needs a line feed after at least one character, and greedy
    [\s+] reaches the last one; the rest of the run has no line feed. *)
Definition flush1 (run : string) : string :=
  match run with
  | EmptyString => run
  | String _ r' =>
      match after_last_nl r' with Some t => nl_str ++ t | None => run end
  end.

(** [/\n\s+/g -> "\n"] on a whitespace run: from the first line feed, if
    at least one character follows it, to the end of the run. *)
Definition flush2 (run : string) : string :=
  match split_first_nl run with
  | Some (b, String _ _) => b ++ nl_str
  | _ => run
  end.

Definition is_space_tab (c : ascii) : bool :=
  Ascii.eqb c " "%char || Ascii.eqb c "009"%char.

(** [/[ \t]+/g -> " "] on a run of spaces and tabs. *)
Definition collapse (run : string) : string :=
  match run with EmptyString => EmptyString | String _ _ => " " end.

Fixpoint drop_dots (s : string) : string :=
  match s with
  | String c s' => if Ascii.eqb c "."%char then drop_dots s' else s
  | EmptyString => EmptyString
  end.

(** [/[.。…]+$/g -> ""] *)
Definition strip_trailing_dots (s : string) : string :=
  rev_string (drop_dots (rev_string s)).

Definition normalizePrompt (s : string) : string :=
  trim (strip_trailing_dots
          (map_runs is_space_tab collapse
             (map_runs is_ws flush2
                (map_runs is_ws flush1 s)))).

(** [JSON.stringify] of a string: quotes, backslashes and control
    characters are escaped, with lower-case hexadecimal digits. *)
Definition hex_digit (n : nat) : string :=
  String (ascii_of_nat (if Nat.ltb n 10 then 48 + n else 87 + n)) EmptyString.

Definition json_escape_char (c : ascii) : string :=
  let n := nat_of_ascii c in
  if Nat.eqb n 34 then "\" ++ Prompt.dq
  else if Nat.eqb n 92 then "\\"
  else if Nat.eqb n 8 then "\b"
  else if Nat.eqb n 12 then "\f"
  else if Nat.eqb n 10 then "\n"
  else if Nat.eqb n 13 then "\r"
  else if Nat.eqb n 9 then "\t"
  else if Nat.ltb n 32 then "\u00" ++ hex_digit (Nat.div n 16) ++ hex_digit (Nat.modulo n 16)
  else String c EmptyString.

Fixpoint json_escape (s : string) : string :=
  match s with
  | EmptyString => EmptyString
  | String c s' => json_escape_char c ++ json_escape s'
  end.

Definition json_string (s : string) : string := Prompt.dq ++ json_escape s ++ Prompt.dq.

(** An option object as parsed from the request body, keys in the order
    [label], [text]. *)
Definition json_option (o : QuestionOption) : string :=
  "{" ++ Prompt.quoted "label" ++ ":" ++ json_string (label o) ++ "," ++
  Prompt.quoted "text" ++ ":" ++ json_string (text o) ++ "}".

Fixpoint json_join (xs : list string) : string :=
  match xs with
  | [] => ""
  | [x] => x
  | x :: xs' => x ++ "," ++ json_join xs'
  end.

(** [JSON.stringify(input.options)]; an absent field stringifies to
    [undefined], which the concatenation turns into the text "undefined". *)
Definition stringify_options (opts : option (list QuestionOption)) : string :=
  match opts with
  | None => "undefined"
  | Some os => "[" ++ json_join (map json_option os) ++ "]"
  end.

(** [rawPrompt]: a string prompt is trimmed, an object is kept. *)
Definition request_prompt (input : PromptInput) : PromptInput :=
  match input with PStr s => PStr (trim s) | PObj q => PObj q end.

(** [key] as computed by the POST /ask handler. *)
Definition cache_key (input : PromptInput) : string :=
  match input with
  | PStr s => normalizePrompt (trim s)
  | PObj q => normalizePrompt (question q) ++ "_" ++ stringify_options (options q)
  end.

(** [recentAnswers]: a [Map<string, {answer, ts}>]. *)
Record CacheEntry := mkCacheEntry { answer : string; ts : Z }.
Abbreviation Cache := (gmap string CacheEntry).

(** [vacuum()]: delete every entry with [now - v.ts > TTL_MS]. *)
Definition vacuum (now : Z) (cache : Cache) : Cache :=
  filter (fun kv : string * CacheEntry => now - ts kv.2 <= TTL_MS) cache.

(** The successive readings of [Date.now()] in one POST /ask request:
    in [vacuum], at the cache check, as [startTime], for the duration and
    as the stored timestamp. *)
Record Clock := mkClock {
  t_vacuum : Z; t_check : Z; t_start : Z; t_done : Z; t_store : Z }.

(** [callSingleModel(model, prompt, image)] for every model, as an oracle. *)
Definition Caller := string -> option string -> string -> ModelResult.

Definition request_options (raw : PromptInput) : list QuestionOption :=
  match raw with
  | PObj q => match options q with Some os => os | None => [] end
  | PStr _ => []
  end.

Definition request_image (raw : PromptInput) : option string :=
  match raw with
  | PObj q => if Prompt.truthy_string (image q) then image q else None
  | PStr _ => None
  end.

(** [processRequestDirectly(key, rawPrompt, startTime)] with
    [ENSEMBLE_MODE = true]: the answer, duration and confidence, and the
    cache afterwards. *)
Definition processRequestDirectly (call : Caller) (clk : Clock) (key : string)
    (raw : PromptInput) (cache : Cache) : Outcome (string * Z * Z) * Cache :=
  let prompt := Prompt.buildPrompt raw in
  match Engine.callGeminiEnsemble (call prompt (request_image raw)) (request_options raw) with
  | Ret v =>
      (Ret (finalAnswer v, t_done clk - t_start clk, finalConfidence v),
       <[key := mkCacheEntry (finalAnswer v) (t_store clk)]> cache)
  | Throw m => (Throw m, cache)
  end.

Inductive Response :=
  | RCached (answer : string)
  | RFresh (answer : string) (responseTimeMs confidence : Z)
  | RError (status : Z) (error : string).

(** The non-cached branch of the handler, with its [catch]. *)
Definition fresh_round (call : Caller) (clk : Clock) (input : PromptInput) (cache : Cache)
    : Response * Cache :=
  match processRequestDirectly call clk (cache_key input) (request_prompt input) cache with
  | (Ret (a, d, c), cache') => (RFresh a d c, cache')
  | (Throw m, cache') => (RError 400 (if String.eqb m "" then "Invalid JSON" else m), cache')
  end.

(** POST /ask on an already parsed body; [None] is an absent or null
    [prompt] field. *)
Definition handler_ask (call : Caller) (clk : Clock) (input : option PromptInput) (cache : Cache)
    : Response * Cache :=
  match input with
  | None | Some (PStr EmptyString) => (RError 400 "Prompt kosong.", cache)
  | Some inp =>
      let cache1 := vacuum (t_vacuum clk) cache in
      match cache1 !! cache_key inp with
      | Some e =>
          if t_check clk - ts e <=? TTL_MS then (RCached (answer e), cache1)
          else fresh_round call clk inp cache1
      | None => fresh_round call clk inp cache1
      end
  end.

End Handler.

(* ================================================================== *)
(** ** [JSON.parse] and the conversions [String(x)] and [parseInt(x)] *)

Module Json.
Import Js.

(** A JSON number is kept as the exact decimal [m * 10^e] written in the
    text; the rounding to a double is not modelled, which is exact for
    numbers with at most 15 significant digits. *)
#[warnings="-register-all"]
Inductive json :=
  | JNull
  | JBool (b : bool)
  | JNum (m e : Z)
  | JStr (s : string)
  | JArr (xs : list json)
  | JObj (kvs : list (string * json)).

Definition dq_char : ascii := "034"%char.
Definition bs_char : ascii := "092"%char.

(** JSON whitespace: space, tab, line feed, carriage return. *)
Definition is_json_ws (c : ascii) : bool :=
  let n := nat_of_ascii c in Nat.eqb n 32 || Nat.eqb n 9 || Nat.eqb n 10 || Nat.eqb n 13.

Fixpoint skip_ws (s : string) : string :=
  match s with
  | String c r => if is_json_ws c then skip_ws r else s
  | EmptyString => s
  end.

Definition is_digit (c : ascii) : bool :=
  let n := nat_of_ascii c in Nat.leb 48 n && Nat.leb n 57.
Definition digit_val (c : ascii) : Z := Z.of_nat (nat_of_ascii c) - 48.

Fixpoint span_digits (s : string) : string * string :=
  match s with
  | String c r => if is_digit c then let (d, t) := span_digits r in (String c d, t) else (EmptyString, s)
  | EmptyString => (EmptyString, EmptyString)
  end.

Fixpoint digits_Z_acc (acc : Z) (d : string) : Z :=
  match d with
  | String c r => digits_Z_acc (10 * acc + digit_val c) r
  | EmptyString => acc
  end.
Definition digits_Z (d : string) : Z := digits_Z_acc 0 d.

Definition drop (n : nat) (s : string) : string := substring n (String.length s - n) s.

(** A number: an optional minus, [0] or digits not starting with [0], an
    optional fraction of one or more digits, an optional exponent. *)
Definition parse_number (s : string) : option (json * string) :=
  let '(neg, s1) :=
    match s with
    | String c r => if Ascii.eqb c "-" then (true, r) else (false, s)
    | EmptyString => (false, s)
    end in
  let int_part :=
    match s1 with
    | String c r =>
        if Ascii.eqb c "0" then Some ("0", r)
        else if is_digit c then Some (span_digits s1) else None
    | EmptyString => None
    end in
  match int_part with
  | None => None
  | Some (ip, s2) =>
      let frac :=
        match s2 with
        | String c r =>
            if Ascii.eqb c "." then
              let (fd, s3) := span_digits r in
              if String.eqb fd "" then None else Some (fd, s3)
            else Some ("", s2)
        | EmptyString => Some ("", s2)
        end in
      match frac with
      | None => None
      | Some (fd, s3) =>
          let ex :=
            match s3 with
            | String c r =>
                if Ascii.eqb c "e" || Ascii.eqb c "E" then
                  let '(sg, r') :=
                    match r with
                    | String d r' =>
                        if Ascii.eqb d "+" then (1, r')
                        else if Ascii.eqb d "-" then (-1, r') else (1, r)
                    | EmptyString => (1, r)
                    end in
                  let (ed, s4) := span_digits r' in
                  if String.eqb ed "" then None else Some (sg * digits_Z ed, s4)
                else Some (0, s3)
            | EmptyString => Some (0, s3)
            end in
          match ex with
          | None => None
          | Some (x, s4) =>
              let m := digits_Z (ip ++ fd) in
              Some (JNum (if neg then - m else m) (x - Z.of_nat (String.length fd)), s4)
          end
      end
  end.

Definition hex_val (c : ascii) : option Z :=
  let n := Z.of_nat (nat_of_ascii c) in
  if (48 <=? n) && (n <=? 57) then Some (n - 48)
  else if (97 <=? n) && (n <=? 102) then Some (n - 87)
  else if (65 <=? n) && (n <=? 70) then Some (n - 55)
  else None.

(** The one-character escapes: quote, backslash, slash, [b], [f], [n], [r], [t]. *)
Definition simple_escape (e : ascii) : option ascii :=
  let n := nat_of_ascii e in
  if Nat.eqb n 34 || Nat.eqb n 92 || Nat.eqb n 47 then Some e
  else if Nat.eqb n 98 then Some (ascii_of_nat 8)
  else if Nat.eqb n 102 then Some (ascii_of_nat 12)
  else if Nat.eqb n 110 then Some (ascii_of_nat 10)
  else if Nat.eqb n 114 then Some (ascii_of_nat 13)
  else if Nat.eqb n 116 then Some (ascii_of_nat 9)
  else None.

(** The code unit of a [\uXXXX] escape; strings are sequences of code units
    below 256, so a larger one keeps its low byte. *)
Definition code_unit (n : Z) : ascii := ascii_of_nat (Z.to_nat (n mod 256)).

Definition cons_fst (c : ascii) (p : option (string * string)) : option (string * string) :=
  match p with Some (t, rest) => Some (String c t, rest) | None => None end.

(** The body of a string literal after its opening quote. *)
Fixpoint parse_str (s : string) : option (string * string) :=
  match s with
  | EmptyString => None
  | String c r =>
      if Ascii.eqb c dq_char then Some (EmptyString, r)
      else if Ascii.eqb c bs_char then
        match r with
        | EmptyString => None
        | String e r' =>
            match simple_escape e with
            | Some ch => cons_fst ch (parse_str r')
            | None =>
                if Ascii.eqb e "u" then
                  match r' with
                  | String h1 (String h2 (String h3 (String h4 r''))) =>
                      match hex_val h1, hex_val h2, hex_val h3, hex_val h4 with
                      | Some a, Some b, Some c', Some d =>
                          cons_fst (code_unit (a * 4096 + b * 256 + c' * 16 + d)) (parse_str r'')
                      | _, _, _, _ => None
                      end
                  | _ => None
                  end
                else None
            end
        end
      else if Nat.ltb (nat_of_ascii c) 32 then None
      else cons_fst c (parse_str r)
  end.

(** The rest of [s] after whitespace and the character [ch]. *)
Definition expect (ch : ascii) (s : string) : option string :=
  match skip_ws s with
  | String c r => if Ascii.eqb c ch then Some r else None
  | EmptyString => None
  end.

(** Recursive descent; [fuel] bounds the nesting of calls. *)
Fixpoint parse_value (fuel : nat) (s : string) : option (json * string) :=
  match fuel with
  | O => None
  | S f =>
      match skip_ws s with
      | EmptyString => None
      | String c r as s1 =>
          if Ascii.eqb c "{" then
            match expect "}" r with
            | Some r' => Some (JObj [], r')
            | None => parse_members f r []
            end
          else if Ascii.eqb c "[" then
            match expect "]" r with
            | Some r' => Some (JArr [], r')
            | None => parse_elems f r []
            end
          else if Ascii.eqb c dq_char then
            match parse_str r with Some (t, rest) => Some (JStr t, rest) | None => None end
          else if starts_with "true" s1 then Some (JBool true, drop 4 s1)
          else if starts_with "false" s1 then Some (JBool false, drop 5 s1)
          else if starts_with "null" s1 then Some (JNull, drop 4 s1)
          else if Ascii.eqb c "-" || is_digit c then parse_number s1
          else None
      end
  end
with parse_members (fuel : nat) (s : string) (acc : list (string * json)) : option (json * string) :=
  match fuel with
  | O => None
  | S f =>
      match expect dq_char s with
      | None => None
      | Some r =>
          match parse_str r with
          | None => None
          | Some (k, r1) =>
              match expect ":" r1 with
              | None => None
              | Some r2 =>
                  match parse_value f r2 with
                  | None => None
                  | Some (v, r3) =>
                      match expect "," r3 with
                      | Some r4 => parse_members f r4 (acc ++ [(k, v)])
                      | None =>
                          match expect "}" r3 with
                          | Some r4 => Some (JObj (acc ++ [(k, v)]), r4)
                          | None => None
                          end
                      end
                  end
              end
          end
      end
  end
with parse_elems (fuel : nat) (s : string) (acc : list json) : option (json * string) :=
  match fuel with
  | O => None
  | S f =>
      match parse_value f s with
      | None => None
      | Some (v, r) =>
          match expect "," r with
          | Some r' => parse_elems f r' (acc ++ [v])
          | None =>
              match expect "]" r with
              | Some r' => Some (JArr (acc ++ [v]), r')
              | None => None
              end
          end
      end
  end.

(** [JSON.parse(s)]; [None] is a thrown [SyntaxError].  Every two nested
    calls consume a character, so the fuel is never exhausted. *)
Definition JSON_parse (s : string) : option json :=
  match parse_value (2 * String.length s + 2) s with
  | Some (v, rest) => if String.eqb (skip_ws rest) "" then Some v else None
  | None => None
  end.

(** [v[k]] on a parsed value: an own property of an object (the last of
    duplicate keys), [undefined] ([None]) otherwise. *)
Fixpoint assoc_last (k : string) (kvs : list (string * json)) : option json :=
  match kvs with
  | [] => None
  | (k', v) :: r =>
      match assoc_last k r with
      | Some w => Some w
      | None => if String.eqb k k' then Some v else None
      end
  end.

Definition get_prop (k : string) (v : json) : option json :=
  match v with JObj kvs => assoc_last k kvs | _ => None end.

Definition truthy (v : json) : bool :=
  match v with
  | JNull => false
  | JBool b => b
  | JNum m _ => negb (m =? 0)
  | JStr s => negb (String.eqb s "")
  | JArr _ | JObj _ => true
  end.

(** [m * 10^e] with the trailing zeros of [m] moved into [e]. *)
Fixpoint strip_zeros (fuel : nat) (m e : Z) : Z * Z :=
  match fuel with
  | O => (m, e)
  | S f => if (m mod 10 =? 0) && negb (m =? 0) then strip_zeros f (m / 10) (e + 1) else (m, e)
  end.

Fixpoint zeros (n : nat) : string :=
  match n with O => EmptyString | S n' => String "0" (zeros n') end.

(** [Number::toString] for the number [m * 10^e]: [k] digits [D] with the
    decimal point after [n] of them. *)
Definition num_to_string (m e : Z) : string :=
  if m =? 0 then "0" else
  let '(m', e') := strip_zeros (Z.to_nat (Z.log2 (Z.abs m) + 1)) (Z.abs m) e in
  let D := pretty (Z.to_N m') in
  let k := Z.of_nat (String.length D) in
  let n := k + e' in
  let body :=
    if (k <=? n) && (n <=? 21) then D ++ zeros (Z.to_nat (n - k))
    else if (0 <? n) && (n <=? 21) then
      substring 0 (Z.to_nat n) D ++ "." ++ drop (Z.to_nat n) D
    else if (-6 <? n) && (n <=? 0) then "0." ++ zeros (Z.to_nat (- n)) ++ D
    else
      let x := n - 1 in
      let es := (if x <? 0 then "-" else "+") ++ pretty (Z.to_N (Z.abs x)) in
      if k =? 1 then D ++ "e" ++ es
      else substring 0 1 D ++ "." ++ drop 1 D ++ "e" ++ es in
  if m <? 0 then "-" ++ body else body.

Fixpoint join_sep (sep : string) (xs : list string) : string :=
  match xs with
  | [] => ""
  | [x] => x
  | x :: xs' => x ++ sep ++ join_sep sep xs'
  end.

(** [String(v)] *)
Fixpoint js_to_string (v : json) : string :=
  match v with
  | JNull => "null"
  | JBool b => if b then "true" else "false"
  | JNum m e => num_to_string m e
  | JStr s => s
  | JArr xs => join_sep "," (map (fun x => match x with JNull => "" | _ => js_to_string x end) xs)
  | JObj _ => "[object Object]"
  end.

Fixpoint span_hex (s : string) : string * string :=
  match s with
  | String c r =>
      match hex_val c with
      | Some _ => let (d, t) := span_hex r in (String c d, t)
      | None => (EmptyString, s)
      end
  | EmptyString => (EmptyString, EmptyString)
  end.

Fixpoint hex_Z_acc (acc : Z) (d : string) : Z :=
  match d with
  | String c r => hex_Z_acc (16 * acc + match hex_val c with Some v => v | None => 0 end) r
  | EmptyString => acc
  end.

(** [parseInt(s)] with no radix: leading whitespace, a sign, then hexadecimal
    digits after [0x] or [0X], decimal digits otherwise; [None] is [NaN]. *)
Definition parseInt_str (s : string) : option Z :=
  let s1 := trim_start s in
  let '(sg, s2) :=
    match s1 with
    | String c r => if Ascii.eqb c "-" then (-1, r) else if Ascii.eqb c "+" then (1, r) else (1, s1)
    | EmptyString => (1, s1)
    end in
  let hex :=
    match s2 with
    | String z (String x r) =>
        if Ascii.eqb z "0" && (Ascii.eqb x "x" || Ascii.eqb x "X") then Some r else None
    | _ => None
    end in
  match hex with
  | Some r => let (h, _) := span_hex r in if String.eqb h "" then None else Some (sg * hex_Z_acc 0 h)
  | None => let (d, _) := span_digits s2 in if String.eqb d "" then None else Some (sg * digits_Z d)
  end.

(** [parseInt(x)] of a property value; [undefined] gives [NaN]. *)
Definition js_parseInt (v : option json) : option Z :=
  match v with Some x => parseInt_str (js_to_string x) | None => None end.

(** [v === z] for a parsed value and an integer literal. *)
Definition num_equals (v : option json) (z : Z) : bool :=
  match v with
  | Some (JNum m e) => if 0 <=? e then m * 10 ^ e =? z else m =? z * 10 ^ (- e)
  | _ => false
  end.

Definition str_equals (v : option json) (t : string) : bool :=
  match v with Some (JStr s) => String.eqb s t | _ => false end.

End Json.

(* ================================================================== *)
(** ** Answer extraction ([parseAnswerWithConfidence]) *)

Module Extract.
Import Js Json.

Definition nl : string := String "010"%char EmptyString.
Definition ticks : string := "```".

(** [s.replace(re, rep)] with the flag [g], for a pattern whose matches are
    never empty: [m s] is the length of the match at the start of [s]. *)
Fixpoint replace_all_fuel (fuel : nat) (m : string -> option nat) (rep s : string) : string :=
  match fuel with
  | O => s
  | S f =>
      match s with
      | EmptyString => EmptyString
      | String c r =>
          match m s with
          | Some n => rep ++ replace_all_fuel f m rep (drop n s)
          | None => String c (replace_all_fuel f m rep r)
          end
      end
  end.
Definition replace_all (m : string -> option nat) (rep s : string) : string :=
  replace_all_fuel (S (String.length s)) m rep s.

(** [/```json\n?|\n?```/]: the first alternative, then the second with and
    without its line feed. *)
Definition fence_nl (s : string) : option nat :=
  if starts_with (ticks ++ "json" ++ nl) s then Some 8%nat
  else if starts_with (ticks ++ "json") s then Some 7%nat
  else if starts_with (nl ++ ticks) s then Some 4%nat
  else if starts_with ticks s then Some 3%nat
  else None.

(** [/```json|```/] *)
Definition fence (s : string) : option nat :=
  if starts_with (ticks ++ "json") s then Some 7%nat
  else if starts_with ticks s then Some 3%nat
  else None.

(** The answer and confidence read from a parsed value; [None] when
    reading [parsed.answer] throws (the value is [null]). *)
Definition from_parsed (parsed : json) : option (string * Z) :=
  match parsed with
  | JNull => None
  | _ =>
      let ans :=
        match get_prop "answer" parsed with
        | Some v => if truthy v then js_to_string v else ""
        | None => ""
        end in
      let conf :=
        match js_parseInt (get_prop "confidence" parsed) with
        | Some z => if z =? 0 then 50 else z
        | None => 50
        end in
      Some (toUpperCase ans, Z.min 100 (Z.max 0 conf))
  end.

Definition try_parse (s : string) : option (string * Z) :=
  match JSON_parse s with Some v => from_parsed v | None => None end.

Definition answer_key : string := String dq_char ("answer" ++ String dq_char EmptyString).

(** [text.match(/\{[\s\S]*?"answer"[\s\S]*?\}/)]: the first match starts
    at the first brace (a later brace only sees a suffix of what the first
    one sees), runs to the first quoted [answer] after it, then to the
    first closing brace after that. *)
Definition lazy_json_match (text : string) : option string :=
  match index 0 "{" text with
  | None => None
  | Some i =>
      match index (S i) answer_key text with
      | None => None
      | Some j =>
          match index (j + 8)%nat "}" text with
          | None => None
          | Some k => Some (substring i (S k - i) text)
          end
      end
  end.

(** [/^(true|false)$/i] *)
Definition is_true_false (text : string) : bool :=
  String.eqb (toLowerCase text) "true" || String.eqb (toLowerCase text) "false".

Definition is_AF_ci (c : ascii) : bool := is_AF (upper_char c).

(** [/^\s*([A-F])(?:\s*[,\s]\s*([A-F]))*\s*$/i] as an automaton: letters
    separated by a non-empty run of whitespace holding at most one comma. *)
Inductive StrictState := SLead | SSep (comma nonempty : bool).

Fixpoint strict_go (st : StrictState) (s : string) : bool :=
  match s with
  | EmptyString => match st with SLead => false | SSep comma _ => negb comma end
  | String c r =>
      match st with
      | SLead =>
          if is_ws c then strict_go SLead r
          else if is_AF_ci c then strict_go (SSep false false) r
          else false
      | SSep comma nonempty =>
          if is_ws c then strict_go (SSep comma true) r
          else if Ascii.eqb c "," then (if comma then false else strict_go (SSep true true) r)
          else if is_AF_ci c then (if nonempty then strict_go (SSep false false) r else false)
          else false
      end
  end.
Definition strict_letters (text : string) : bool := strict_go SLead text.

(** The pattern [/(?:answer|jawaban|option)\s*:?\s*(STARS)?\s*(LIST)(?:\s|$|STAR)/i]
    where STARS is one or more stars and LIST a letter [A-F] followed by
    repetitions of a comma, whitespace and a letter.
    The letter follows the longest run of whitespace, colons and stars
    after the keyword, which must read [\s*:?\s*(\*+)?\s*]; the letter
    list is repeated greedily and must end at whitespace, a star or the
    end; backtracking to fewer letters leaves a comma there, so a match
    at a position is decided without search. *)
Definition keyword_len (s : string) : option nat :=
  let l := toLowerCase s in
  if starts_with "answer" l then Some 6%nat
  else if starts_with "jawaban" l then Some 7%nat
  else if starts_with "option" l then Some 6%nat
  else None.

Definition is_prefix_char (c : ascii) : bool :=
  is_ws c || Ascii.eqb c ":" || Ascii.eqb c "*".

Fixpoint span_prefix (s : string) : string * string :=
  match s with
  | String c r => if is_prefix_char c then let (p, t) := span_prefix r in (String c p, t) else (EmptyString, s)
  | EmptyString => (EmptyString, EmptyString)
  end.

(** States: 0 before the colon, 1 after it, 2 in the stars, 3 after them. *)
Fixpoint prefix_ok_go (st : nat) (s : string) : bool :=
  match s with
  | EmptyString => true
  | String c r =>
      match st with
      | 0%nat =>
          if is_ws c then prefix_ok_go 0 r
          else if Ascii.eqb c ":" then prefix_ok_go 1 r
          else if Ascii.eqb c "*" then prefix_ok_go 2 r
          else false
      | 1%nat =>
          if is_ws c then prefix_ok_go 1 r
          else if Ascii.eqb c "*" then prefix_ok_go 2 r
          else false
      | 2%nat =>
          if Ascii.eqb c "*" then prefix_ok_go 2 r
          else if is_ws c then prefix_ok_go 3 r
          else false
      | _ => if is_ws c then prefix_ok_go 3 r else false
      end
  end.
Definition prefix_ok (s : string) : bool := prefix_ok_go 0 s.

(** The repetition of a comma, whitespace and a letter, from [s]; on a comma not followed by a letter the
    repetition stops before that comma ([back]). *)
Fixpoint group_tail (back : string) (after_comma : bool) (s : string) : list ascii * string :=
  if after_comma then
    match s with
    | String c r =>
        if is_ws c then group_tail back true r
        else if is_AF_ci c then let (ls, rest) := group_tail r false r in (c :: ls, rest)
        else ([], back)
    | EmptyString => ([], back)
    end
  else
    match s with
    | String c r => if Ascii.eqb c "," then group_tail s true r else ([], s)
    | EmptyString => ([], s)
    end.

(** The end of the match: whitespace, a star or the end of the text. *)
Definition terminator_ok (s : string) : bool :=
  match s with
  | EmptyString => true
  | String c _ => is_ws c || Ascii.eqb c "*"
  end.

Definition labeled_at (s : string) : option (list ascii) :=
  match keyword_len s with
  | None => None
  | Some n =>
      let (run, rest) := span_prefix (drop n s) in
      if prefix_ok run then
        match rest with
        | String l r =>
            if is_AF_ci l then
              let (ls, rest') := group_tail r false r in
              if terminator_ok rest' then Some (l :: ls) else None
            else None
        | EmptyString => None
        end
      else None
  end.

(** The letters of the capture group at the leftmost match. *)
Fixpoint labeled_letters (s : string) : option (list ascii) :=
  match labeled_at s with
  | Some ls => Some ls
  | None => match s with String _ r => labeled_letters r | EmptyString => None end
  end.

(** [parseAnswerWithConfidence(rawText)]; [None] is [null].  The length
    test counts code units. *)
Definition parseAnswerWithConfidence (rawText : option string) : string * Z :=
  match rawText with
  | None | Some EmptyString => ("", 50)
  | Some raw =>
      let text := trim raw in
      match try_parse (trim (replace_all fence_nl "" text)) with
      | Some r => r
      | None =>
          let lazy :=
            match lazy_json_match text with
            | Some m => try_parse (trim (replace_all fence "" m))
            | None => None
            end in
          match lazy with
          | Some r => r
          | None =>
              if is_true_false text then (toLowerCase text, 85) else
              let strict :=
                if strict_letters text then
                  let ls := af_letters (toUpperCase text) in
                  if (0 <? List.length ls)%nat && (List.length ls <=? 6)%nat
                  then Some (letter_set ls, 70) else None
                else None in
              match strict with
              | Some r => r
              | None =>
                  match labeled_letters text with
                  | Some ls => (letter_set (af_letters (toUpperCase (string_of_list_ascii ls))), 65)
                  | None =>
                      if (String.length text <=? 10)%nat then
                        let ls := af_letters (toUpperCase text) in
                        if (0 <? List.length ls)%nat && (List.length ls <=? 4)%nat
                        then (letter_set ls, 60) else ("", 0)
                      else ("", 0)
                  end
              end
          end
      end
  end.

End Extract.

(* ================================================================== *)
(** ** One model call with retries ([formatError], [callSingleModel]) *)

Module Retry.
Import Js Json.

(** [{"error"] *)
Definition err_prefix : string := "{" ++ String dq_char ("error" ++ String dq_char EmptyString).

Definition is_line_term (c : ascii) : bool :=
  Nat.eqb (nat_of_ascii c) 10 || Nat.eqb (nat_of_ascii c) 13.

Fixpoint line_prefix (s : string) : string :=
  match s with
  | String c r => if is_line_term c then EmptyString else String c (line_prefix r)
  | EmptyString => EmptyString
  end.

(** The position of the last closing brace. *)
Fixpoint last_brace (s : string) : option nat :=
  match s with
  | EmptyString => None
  | String c r =>
      match last_brace r with
      | Some k => Some (S k)
      | None => if Ascii.eqb c "}" then Some 0%nat else None
      end
  end.

(** [msg.match(/\{"error".*\}/)]: the leftmost start whose line holds a
    closing brace after it, extended greedily to the last one. *)
Fixpoint error_json_match (s : string) : option string :=
  match s with
  | EmptyString => None
  | String _ r =>
      if starts_with err_prefix s then
        match last_brace (line_prefix (drop 8 s)) with
        | Some k => Some (substring 0 (8 + S k) s)
        | None => error_json_match r
        end
      else error_json_match r
  end.

(** The [try] block of [formatError]: a message from the parsed error
    object, if one of its tests succeeds. *)
Definition format_json_error (msg : string) : option string :=
  if includes msg err_prefix then
    match error_json_match msg with
    | Some j =>
        match JSON_parse j with
        | Some parsed =>
            let err := get_prop "error" parsed in
            let code := match err with Some e => get_prop "code" e | None => None end in
            let status := match err with Some e => get_prop "status" e | None => None end in
            if num_equals code 503 || str_equals status "UNAVAILABLE" then Some "🔄 Server Sibuk"
            else if num_equals code 429 then Some "⏳ Rate limit"
            else if num_equals code 400 && includes msg "API key expired" then Some "🔑 API key expired"
            else if num_equals code 400 && includes msg "API_KEY_INVALID" then Some "🔑 API key invalid"
            else if num_equals code 401 then Some "🔑 API key salah"
            else if num_equals code 404 then Some "❓ Model tidak ada"
            else None
        | None => None
        end
    | None => None
    end
  else None.

(** [formatError(err)] for an [Error] with message [message]; an empty
    message makes [String(err)] read the error's name, here [Error]. *)
Definition formatError (message : string) : string :=
  let msg := if String.eqb message "" then "Error" else message in
  match format_json_error msg with
  | Some t => t
  | None =>
      if includes msg "503" || includes msg "overload" || includes msg "UNAVAILABLE" then "🔄 Server sibuk"
      else if includes msg "429" || includes msg "RESOURCE_EXHAUSTED" || includes msg "quota" then "⏳ Rate limit"
      else if includes msg "timeout" || includes msg "DEADLINE_EXCEEDED" then "⏰ Timeout"
      else if includes msg "API key expired" then "🔑 API key expired"
      else if includes msg "401" || includes msg "API_KEY" || includes msg "authentication" then "🔑 API key invalid"
      else if includes msg "404" || includes msg "not found" then "❓ Model tidak ada"
      else if includes msg "SAFETY" || includes msg "blocked" then "🚫 Diblokir safety"
      else if includes msg "ECONNREFUSED" || includes msg "network" then "📡 Network error"
      else if includes msg "Empty response" || includes msg "parse failure" then "📭 Jawaban kosong"
      else substring 0 30 msg ++ (if (30 <? String.length msg)%nat then "..." else "")
  end.

(** What one [generateContent] call does: throw an [Error] with a message,
    or return a response whose [extractText] is the given text. *)
Inductive Attempt := AThrow (message : string) | AText (rawText : option string).

(** The body of the [try] block: an answer, or the message of the error
    that reaches the [catch]. *)
Definition attempt_outcome (a : Attempt) : (string * Z * string) + string :=
  match a with
  | AThrow msg => inr msg
  | AText (Some raw) =>
      if negb (String.eqb (trim raw) "") then
        let (ans, conf) := Extract.parseAnswerWithConfidence (Some raw) in
        if negb (String.eqb ans "") then inl (ans, conf, raw)
        else inr "Empty response or parse failure"
      else inr "Empty response or parse failure"
  | AText None => inr "Empty response or parse failure"
  end.

Definition isOverload (errMsg : string) : bool :=
  includes errMsg "503" || includes errMsg "429" || includes errMsg "Overload".

(** [waitTime] before the attempt after [attempt]. *)
Definition waitTime (errMsg : string) (attempt : nat) : Z :=
  if isOverload errMsg then 2000 * Z.of_nat attempt else 1000 * Z.of_nat attempt.

(** The [error] of the failure returned on the last attempt. *)
Definition final_error (errMsg : string) : string :=
  if isOverload errMsg then "Server Overload (Max Retries)" else formatError errMsg.

(** The result, the attempts made and the waits between them. *)
Record CallTrace := mkTrace { result : ModelResult; attempts : list nat; waits : list Z }.

(** The loop from [attempt] with [k] attempts left; [net a] is what the
    provider does on attempt [a]. *)
Fixpoint attempts_loop (model : string) (net : nat -> Attempt) (retries attempt k : nat) : CallTrace :=
  match k with
  | O => mkTrace (MErr model "Unknown error") [] []
  | S k' =>
      match attempt_outcome (net attempt) with
      | inl (ans, conf, raw) => mkTrace (MOk model ans conf raw) [attempt] []
      | inr errMsg =>
          if Nat.eqb attempt retries then mkTrace (MErr model (final_error errMsg)) [attempt] []
          else
            let t := attempts_loop model net retries (S attempt) k' in
            mkTrace (result t) (attempt :: attempts t) (waitTime errMsg attempt :: waits t)
      end
  end.

(** [callSingleModel(model, prompt, image, retries)]: attempts
    [1..retries]. *)
Definition callSingleModel (model : string) (net : nat -> Attempt) (retries : nat) : CallTrace :=
  attempts_loop model net retries 1 retries.

End Retry.

(* ================================================================== *)
(** ** Failover over the model list ([callGeminiWithFailover]) *)

Module Failover.

(** The loop over [ms]; [call m] is the [ModelResult] that
    [callSingleModel(m, prompt, imageBase64)] resolves to. *)
Fixpoint failover_loop (call : string -> ModelResult) (ms : list string)
  : Outcome (string * string * Z) :=
  match ms with
  | [] => Throw "All models failed"
  | m :: ms' =>
      match call m with
      | MOk _ ans conf _ => Ret (ans, m, conf)
      | MErr _ _ => failover_loop call ms'
      end
  end.

(** [callGeminiWithFailover(prompt, imageBase64)]: the answer, the model
    and the confidence. *)
Definition callGeminiWithFailover (call : string -> ModelResult) : Outcome (string * string * Z) :=
  failover_loop call MODELS.

End Failover.

(* ================================================================== *)
(** ** Label sets and the unused weighted vote ([normalizeAnswer],
       [_confidenceWeightedVote]) *)

Module Vote.
Import Js Ensemble.

(** [/[\s,]/] *)
Definition is_sep (c : ascii) : bool := is_ws c || Ascii.eqb c ",".

(** [s.split(/[\s,]+/)]: the fields between maximal runs of separators;
    a run at the start or at the end gives an empty first or last field,
    and the empty string gives one empty field. *)
Fixpoint split_go (cur : string) (in_sep : bool) (s : string) : list string :=
  match s with
  | EmptyString => [cur]
  | String c r =>
      if is_sep c then
        (if in_sep then split_go cur true r else cur :: split_go EmptyString true r)
      else split_go (cur ++ String c EmptyString) false r
  end.
Definition split_seps (s : string) : list string := split_go EmptyString false s.

(** [/^[A-Z]$/.test(s)] *)
Definition single_upper (s : string) : bool :=
  match s with
  | String c EmptyString => (65 <=? code c) && (code c <=? 90)
  | _ => false
  end.

(** [[...new Set(xs)]] on strings: first occurrences, in order. *)
Fixpoint uniq_acc (seen xs : list string) : list string :=
  match xs with
  | [] => []
  | x :: xs' =>
      if existsb (String.eqb x) seen then uniq_acc seen xs'
      else x :: uniq_acc (x :: seen) xs'
  end.
Definition uniq (xs : list string) : list string := uniq_acc [] xs.

(** The default comparator of [Array.prototype.sort]: code unit order. *)
Fixpoint str_cmp (a b : string) : Z :=
  match a, b with
  | EmptyString, EmptyString => 0
  | EmptyString, String _ _ => -1
  | String _ _, EmptyString => 1
  | String x a', String y b' =>
      if code x <? code y then -1 else if code y <? code x then 1 else str_cmp a' b'
  end.

(** [normalizeAnswer(answer)]; [None] is [undefined]. *)
Definition normalizeAnswer (answer : option string) : list string :=
  match answer with
  | None | Some EmptyString => []
  | Some a =>
      let upperAnswer := trim (toUpperCase a) in
      if String.eqb upperAnswer "TRUE" || String.eqb upperAnswer "FALSE"
      then [toLowerCase upperAnswer]
      else
        let labels := List.filter single_upper (map trim (split_seps upperAnswer)) in
        sort_by str_cmp (uniq labels)
  end.

(** A successful result, after [modelResults.filter(r => r.success)]. *)
Definition ok_view (r : ModelResult) : list (string * string * Z) :=
  match r with MOk m a c _ => [(m, a, c)] | MErr _ _ => [] end.

(** An element of [reliableResults]. *)
Record Rated := mkRated {
  r_model : string; r_answer : string; r_confidence : Z; r_unreliable : bool }.

Definition rate (x : string * string * Z) : Rated :=
  let '(m, a, c) := x in
  if (4 <=? List.length (normalizeAnswer (Some a)))%nat then mkRated m a (Z.min c 40) true
  else mkRated m a c false.

(** The vote a rated result casts: key, confidence, model. *)
Definition vote_of (r : Rated) : string * Z * string :=
  (trim (toUpperCase (r_answer r)), r_confidence r, r_model r).

(** [answerCounts], keys in insertion order. *)
Definition answer_counts (rated : list Rated) : list (string * VoteEntry) :=
  fold_left (fun t '(k, c, m) => add_vote t k c m) (map vote_of rated) [].

Definition sorted_answers (rated : list Rated) : list SortedVote :=
  sort_by vote_cmp
    (map (fun '(a, d) => mkSorted a (count d) (js_round_div (totalConfidence d) (count d)) (models d))
         (object_entries (answer_counts rated))).

(** [reliableResults.reduce((a, b) => a.confidence! > b.confidence! ? a : b)] *)
Definition reduce_best (r0 : Rated) (rs : list Rated) : Rated :=
  fold_left (fun a b => if r_confidence b <? r_confidence a then a else b) rs r0.

Record WeightedVote := mkWeighted {
  w_finalAnswer : string;
  w_finalConfidence : Z;
  w_votes : list (string * (Z * Z));
  w_modelAnswers : list (string * string * Z);
  w_method : string }.

(** The decision of step 3 when no answer is shared: the answer, the
    confidence and the method, or the [TypeError] of [reduce] on an empty
    array. *)
Definition no_consensus (rated : list Rated) : Outcome (string * Z * string) :=
  match find (fun r => String.eqb (r_model r) (nth 0 MODELS "") && negb (r_unreliable r)) rated with
  | Some p => Ret (r_answer p, r_confidence p, "primary")
  | None =>
      match find (fun r => String.eqb (r_model r) (nth 1 MODELS "") && negb (r_unreliable r)) rated with
      | Some s => Ret (r_answer s, r_confidence s, "secondary")
      | None =>
          match rated with
          | r0 :: rs => let b := reduce_best r0 rs in Ret (r_answer b, r_confidence b, "fallback")
          | [] => Throw "Reduce of empty array with no initial value"
          end
      end
  end.

(** [_confidenceWeightedVote(modelResults)] *)
Definition confidenceWeightedVote (results : list ModelResult) : Outcome WeightedVote :=
  match flat_map ok_view results with
  | [] => Throw "All models failed in ensemble"
  | [(m, a, c)] => Ret (mkWeighted a c [(a, (1, c))] [(m, a, c)] "single")
  | oks =>
      let rated := map rate oks in
      let sorted := sorted_answers rated in
      let decision :=
        match sorted with
        | top :: _ =>
            if 2 <=? sv_count top then Ret (sv_answer top, sv_avgConfidence top, "consensus")
            else no_consensus rated
        | [] => no_consensus rated
        end in
      match decision with
      | Throw e => Throw e
      | Ret (fa, fc, meth) =>
          let votes := object_entries (map (fun v => (sv_answer v, (sv_count v, sv_avgConfidence v))) sorted) in
          let modelAnswers :=
            map (fun r => (r_model r ++ (if r_unreliable r then " ⚠️" else ""), r_answer r, r_confidence r)) rated in
          Ret (mkWeighted fa fc votes modelAnswers meth)
      end
  end.

End Vote.

(* ================================================================== *)
(** ** The two earlier scripts of src/unnamed/part_000 *)

(** Script 1 (lines 1-253): the four-model ensemble with a judge. *)
Module LegacyEnsemble.
Import Js Json Ensemble.

Definition MODELS : list string :=
  ["gemini-3-flash-preview"; "gemini-2.0-flash-001"; "gemini-2.5-flash-lite"; "gemini-2.5-pro"].
Definition EXACT_MODELS : list string := MODELS.

(** The answer and confidence read from a parsed value:
    [String(parsed.answer || "").toUpperCase()] and
    [parseInt(parsed.confidence) || 70]; [None] when reading a property
    throws (the value is [null]). *)
Definition from_parsed (parsed : json) : option (string * Z) :=
  match parsed with
  | JNull => None
  | _ =>
      let ans :=
        match get_prop "answer" parsed with
        | Some v => if truthy v then js_to_string v else ""
        | None => ""
        end in
      let conf :=
        match js_parseInt (get_prop "confidence" parsed) with
        | Some z => if z =? 0 then 70 else z
        | None => 70
        end in
      Some (toUpperCase ans, conf)
  end.

(** [parseAnswerWithConfidence(rawText)] (lines 72-96; script 2 has the
    same function at lines 335-359). *)
Definition parseAnswerWithConfidence (rawText : option string) : string * Z :=
  match rawText with
  | None | Some EmptyString => ("", 50)
  | Some raw =>
      let text := trim raw in
      let fromJson :=
        match Extract.lazy_json_match text with
        | Some m =>
            match JSON_parse (trim (Extract.replace_all Extract.fence "" m)) with
            | Some parsed => from_parsed parsed
            | None => None
            end
        | None => None
        end in
      match fromJson with
      | Some r => r
      | None =>
          let letters := af_letters (toUpperCase text) in
          if (0 <? List.length letters)%nat then (join_comma (dedup letters), 60) else ("", 0)
      end
  end.

(** A result of [callGeminiREST] after [parseAnswerWithConfidence(r.raw)]:
    model, answer, confidence. *)
Definition parsed_of (r : ModelResult) : list (string * string * Z) :=
  match r with
  | MOk m _ _ raw => let '(a, c) := parseAnswerWithConfidence (Some raw) in [(m, a, c)]
  | MErr _ _ => []
  end.

(** [parsedResults]: the successful results, parsed, with a non-empty answer. *)
Definition parsedResults (modelResults : list ModelResult) : list (string * string * Z) :=
  List.filter (fun '(m, a, c) => negb (String.eqb a "")) (flat_map parsed_of modelResults).

(** [counts[r.answer]++] on the object [counts], keys in insertion order.
    Answers are upper-cased, so they never name a property of
    [Object.prototype]. *)
Fixpoint bump (t : list (string * Z)) (k : string) : list (string * Z) :=
  match t with
  | [] => [(k, 1)]
  | (k', n) :: t' => if String.eqb k k' then (k', n + 1) :: t' else (k', n) :: bump t' k
  end.

Definition answer_counts (parsed : list (string * string * Z)) : list (string * Z) :=
  fold_left (fun t '(m, a, c) => bump t a) parsed [].

(** [Object.keys(counts).sort((a, b) => counts[b] - counts[a])], each key
    with its count. *)
Definition sortedAnswers (counts : list (string * Z)) : list (string * Z) :=
  sort_by (fun a b => snd b - snd a) (object_entries counts).

(** The object returned by [confidenceWeightedVote]; the confidence of a
    majority is the exact quotient [sum / supporting.length]. *)
Record LegacyVote := mkLegacyVote {
  l_finalAnswer : string; l_finalConfidence : Q; l_method : string; l_models : list string }.

(** [confidenceWeightedVote(modelResults)]; [None] is [null]. *)
Definition confidenceWeightedVote (modelResults : list ModelResult) : option LegacyVote :=
  match List.filter success modelResults with
  | [] => None
  | _ =>
      let parsed := parsedResults modelResults in
      match parsed with
      | [] => None
      | _ =>
          let counts := answer_counts parsed in
          let topAnswer := match sortedAnswers counts with (k, _) :: _ => k | [] => "" end in
          let topCount := match sortedAnswers counts with (_, n) :: _ => n | [] => 0 end in
          if 2 <=? topCount then
            let supporting := List.filter (fun '(m, a, c) => String.eqb a topAnswer) parsed in
            let total := fold_left (fun sum '(m, a, c) => sum + c) supporting 0 in
            let avgConf := (inject_Z total / inject_Z (Z.of_nat (List.length supporting)))%Q in
            Some (mkLegacyVote topAnswer avgConf "majority" (map (fun '(m, a, c) => m) supporting))
          else
            match find (fun '(m, a, c) => String.eqb m (nth 0 EXACT_MODELS "")) parsed with
            | Some (m, a, c) => Some (mkLegacyVote a (inject_Z c) "primary" [m])
            | None =>
                match sort_by (fun x y => snd y - snd x) parsed with
                | (m, a, c) :: _ => Some (mkLegacyVote a (inject_Z c) "fallback_confidence" [m])
                | [] => None
                end
            end
      end
  end.

(** What [runEnsemble] returns: the vote object, or the judge's
    [{ finalAnswer, finalConfidence, method: "judge" }]. *)
Inductive EnsembleResult := Voted (v : LegacyVote) | Judged (answer : string) (confidence : Z).

(** Steps 3 and 4 of [runEnsemble], after the judge's call. *)
Definition after_judge (judgeResult : ModelResult) (vote : option LegacyVote) : Outcome EnsembleResult :=
  let judged :=
    match judgeResult with
    | MOk _ _ _ raw =>
        let '(a, c) := parseAnswerWithConfidence (Some raw) in
        if String.eqb a "" then None else Some (Judged a c)
    | MErr _ _ => None
    end in
  match judged with
  | Some j => Ret j
  | None =>
      match vote with
      | Some v => Ret (Voted v)
      | None => Throw "Ensemble failed completely."
      end
  end.

(** [runEnsemble(prompt, imageBase64)]: [call m] is [callGeminiREST(m, ...)]
    on this prompt, which never throws; the list is the models called. *)
Definition runEnsemble (call : string -> ModelResult) : Outcome EnsembleResult * list string :=
  let workers := [nth 0 EXACT_MODELS ""; nth 1 EXACT_MODELS ""; nth 2 EXACT_MODELS ""] in
  let vote := confidenceWeightedVote (map call workers) in
  match vote with
  | Some v =>
      if String.eqb (l_method v) "majority" then (Ret (Voted v), workers)
      else (after_judge (call (nth 3 EXACT_MODELS "")) vote, (workers ++ [nth 3 EXACT_MODELS ""])%list)
  | None => (after_judge (call (nth 3 EXACT_MODELS "")) vote, (workers ++ [nth 3 EXACT_MODELS ""])%list)
  end.

(** [responseData], the value stored in [recentAnswers]. *)
Record RespData := mkResp { d_answer : string; d_confidence : Q; d_responseTimeMs : Z }.

Inductive Reply := RCached (d : RespData) | RFresh (d : RespData) | RError (status : Z) (error : string).

Definition final_fields (r : EnsembleResult) : string * Q :=
  match r with
  | Voted v => (l_finalAnswer v, l_finalConfidence v)
  | Judged a c => (a, inject_Z c)
  end.

(** The POST branch of the handler; [stringify q] is [JSON.stringify] of
    the request's prompt object, and [t_start], [t_end] the readings of
    [Date.now()]. *)
Definition handler_post (call : string -> ModelResult) (stringify : QuestionInput -> string)
    (t_start t_end : Z) (input : option PromptInput) (cache : gmap string RespData)
    : Reply * gmap string RespData :=
  match input with
  | None | Some (PStr EmptyString) => (RError 500 "No prompt", cache)
  | Some inp =>
      let key := match inp with PStr s => s | PObj q => stringify q end in
      match cache !! key with
      | Some d => (RCached d, cache)
      | None =>
          match fst (runEnsemble call) with
          | Ret r =>
              let '(a, c) := final_fields r in
              let d := mkResp a c (t_end - t_start) in
              (RFresh d, <[key := d]> cache)
          | Throw m => (RError 500 m, cache)
          end
      end
  end.

End LegacyEnsemble.

(** Script 2 (lines 256-453): one model, escalated to a second one when
    the first is not confident. *)
Module LegacyRest.
Import Js.

Definition MODELS : list string := ["gemini-2.0-flash"; "gemini-1.5-flash"; "gemini-1.5-pro"].
Definition ENSEMBLE_MODE : bool := true.

(** [normalizePrompt(s)]: [String(s).replace(/\s+/g, " ").trim()]. *)
Definition normalizePrompt (s : option string) : string :=
  match s with
  | None | Some EmptyString => ""
  | Some s' => trim (Handler.map_runs is_ws Handler.collapse s')
  end.

(** The successive readings of [Date.now()]: in [vacuum], as [startTime],
    for the duration and as the stored timestamp. *)
Record Clock := mkClock { c_vacuum : Z; c_start : Z; c_done : Z; c_store : Z }.

Inductive Reply :=
  | RCached (answer : string) (ts : Z)
  | RFresh (answer : string) (confidence : Z) (responseTimeMs : Z)
  | RError (status : Z) (error : string) (raw : option string).

(** The POST branch of the handler.  [call m] is the [text] returned by
    [callGeminiREST(m, promptText, image)] (the empty string when the call
    fails); the list is the models called.  The cache is [recentAnswers]
    with its entries [{ answer, ts }] and [vacuum] (lines 328-333), which
    are those of src/api/index.ts. *)
Definition handler_post (call : string -> string) (clk : Clock) (input : option PromptInput)
    (cache : Handler.Cache) : Reply * Handler.Cache * list string :=
  match input with
  | None | Some (PStr EmptyString) => (RError 400 "No prompt provided" None, cache, [])
  | Some inp =>
      let key :=
        match inp with
        | PStr s => normalizePrompt (Some s)
        | PObj q => normalizePrompt (Some (question q))
        end in
      let cache1 := Handler.vacuum (c_vacuum clk) cache in
      match cache1 !! key with
      | Some e => (RCached (Handler.answer e) (Handler.ts e), cache1, [])
      | None =>
          let r1 := call (nth 0 MODELS "") in
          let p1 := LegacyEnsemble.parseAnswerWithConfidence (Some r1) in
          let '(finalResult, calls) :=
            if (85 <=? snd p1) || negb ENSEMBLE_MODE then (p1, [nth 0 MODELS ""])
            else
              let p2 := LegacyEnsemble.parseAnswerWithConfidence (Some (call (nth 2 MODELS ""))) in
              (if snd p1 <? snd p2 then p2 else p1, [nth 0 MODELS ""; nth 2 MODELS ""]) in
          if String.eqb (fst finalResult) "" then (RError 500 "No answer found" (Some r1), cache1, calls)
          else
            (RFresh (fst finalResult) (snd finalResult) (c_done clk - c_start clk),
             <[key := Handler.mkCacheEntry (fst finalResult) (c_store clk)]> cache1, calls)
      end
  end.

End LegacyRest.

(* ================================================================== *)
(** * Proofs *)

Example ens1 : Engine.callGeminiEnsemble (fixed_calls (MOk "w1" "A" 90 "") (MOk "w2" "A" 80 "") (MOk "w3" "B" 70 "") (MErr "j" "x")) [] = Ret (mkVoting "A" 85 "majority").
Proof. vm_compute. reflexivity. Qed.
Example ens2 : Engine.callGeminiEnsemble (fixed_calls (MOk "w1" "A" 90 "") (MOk "w2" "B" 85 "") (MOk "w3" "C" 70 "") (MErr "j" "x")) [] = Ret (mkVoting "A" 90 "fallback_worker").
Proof. vm_compute. reflexivity. Qed.
Example ens3 : Engine.callGeminiEnsemble (fixed_calls (MOk "w1" "A" 90 "") (MOk "w2" "A" 85 "") (MOk "w3" "A" 95 "") (MErr "j" "x")) [] = Ret (mkVoting "A" 90 "unanimous").
Proof. vm_compute. reflexivity. Qed.

Example extract_fenced :
  Extract.parseAnswerWithConfidence
    (Some ("```json" ++ Extract.nl ++ "{" ++ Prompt.quoted "answer" ++ ": " ++ Prompt.quoted "b, d" ++ ", " ++
           Prompt.quoted "confidence" ++ ": 88}" ++ Extract.nl ++ "```")) = ("B, D", 88).
Proof. vm_compute. reflexivity. Qed.

Example extract_letters :
  Extract.parseAnswerWithConfidence (Some " c, a  b ") = ("A, B, C", 70).
Proof. vm_compute. reflexivity. Qed.

Example extract_labeled :
  Extract.parseAnswerWithConfidence (Some "After checking each option, Jawaban: *D*") = ("D", 65).
Proof. vm_compute. reflexivity. Qed.

Example normalize_prompt_runs :
  Handler.normalizePrompt ("What  is" ++ Extract.nl ++ "   NAT ?..") = "What is" ++ Extract.nl ++ "NAT ?".
Proof. vm_compute. reflexivity. Qed.

(* ------------------------------------------------------------------ *)
(** ** Facts about the vote tally *)

Module TallyFacts.
Local Open Scope list_scope.
Import Ensemble.

Definition sup (k : string) (B : list (string * Z * string)) : list (string * Z * string) :=
  List.filter (fun b => String.eqb (fst (fst b)) k) B.

Definition tally_inv (t : list (string * VoteEntry)) (B : list (string * Z * string)) : Prop :=
  NoDup (map fst t) /\
  (forall k e, In (k, e) t ->
     count e = Z.of_nat (length (sup k B)) /\ totalConfidence e = ballot_total (sup k B)) /\
  (forall k, sup k B <> [] -> exists e, In (k, e) t).

Lemma ballot_total_app l1 l2 : ballot_total (l1 ++ l2) = ballot_total l1 + ballot_total l2.
Proof. induction l1 as [|b l1 IH]; simpl; [done|]. rewrite IH. lia. Qed.

Lemma sup_app k B1 B2 : sup k (B1 ++ B2) = sup k B1 ++ sup k B2.
Proof. unfold sup. apply List.filter_app. Qed.

Lemma sup_single_eq k c m : sup k [(k, c, m)] = [(k, c, m)].
Proof. unfold sup; simpl. by rewrite String.eqb_refl. Qed.

Lemma sup_single_neq k k' c m : k' <> k -> sup k' [(k, c, m)] = [].
Proof.
  intros Hne. unfold sup; simpl.
  destruct (String.eqb k k') eqn:E; [|done].
  apply String.eqb_eq in E. congruence.
Qed.

Lemma add_vote_keys t k c m :
  map fst (add_vote t k c m) =
  if existsb (fun kv => String.eqb (fst kv) k) t then map fst t else map fst t ++ [k].
Proof.
  induction t as [|[k' e] t IH]; simpl; [done|].
  destruct (String.eqb k' k) eqn:E; simpl; [done|].
  rewrite IH. by destruct (existsb _ t).
Qed.

Lemma existsb_key_in (t : list (string * VoteEntry)) (k : string) :
  existsb (fun kv => String.eqb (fst kv) k) t = true <-> In k (map fst t).
Proof.
  rewrite existsb_exists. split.
  - intros [[k' e] [Hin Heq]]. apply String.eqb_eq in Heq. simpl in Heq. subst.
    apply in_map_iff. by exists (k, e).
  - intros Hin. apply in_map_iff in Hin as [[k' e] [Heq Hin]]. simpl in Heq. subst.
    exists (k, e). split; [done|]. apply String.eqb_refl.
Qed.

Lemma add_vote_nodup t k c m : NoDup (map fst t) -> NoDup (map fst (add_vote t k c m)).
Proof.
  intros Hnd. rewrite add_vote_keys.
  destruct (existsb _ t) eqn:E; [done|].
  apply NoDup_app. split_and!; [done| |apply NoDup_singleton].
  intros y Hy Hk. apply list_elem_of_singleton in Hk. subst y.
  apply list_elem_of_In in Hy.
  apply Bool.not_true_iff_false in E. apply E. by apply existsb_key_in.
Qed.

Lemma add_vote_has t k c m : exists e, In (k, e) (add_vote t k c m).
Proof.
  induction t as [|[k' e] t IH]; simpl.
  - eexists. by left.
  - destruct (String.eqb k' k) eqn:E.
    + apply String.eqb_eq in E. subst. eexists. by left.
    + destruct IH as [e' He']. exists e'. simpl. by right.
Qed.

Lemma add_vote_keep t k c m k' e :
  In (k', e) t -> k' <> k -> In (k', e) (add_vote t k c m).
Proof.
  induction t as [|[k0 e0] t IH]; simpl; [done|].
  intros [Heq|Hin] Hne.
  - injection Heq as -> ->. rewrite (proj2 (String.eqb_neq k' k) Hne). by left.
  - destruct (String.eqb k0 k); simpl; right; [done|]. by apply IH.
Qed.

Lemma add_vote_in t k c m k' e' :
  NoDup (map fst t) -> In (k', e') (add_vote t k c m) ->
  (k' <> k /\ In (k', e') t) \/
  (k' = k /\ exists e, In (k, e) t /\
     e' = mkEntry (count e + 1) (totalConfidence e + c) (models e ++ [m])) \/
  (k' = k /\ ~ In k (map fst t) /\ e' = mkEntry 1 c [m]).
Proof.
  induction t as [|[k0 e0] t IH]; simpl; intros Hnd Hin.
  - destruct Hin as [Heq|[]]. injection Heq as <- <-. right; right. split; [done|split; [by intros []|done]].
  - inversion Hnd as [|? ? Hnotin Hnd']; subst.
    destruct (String.eqb k0 k) eqn:E.
    + apply String.eqb_eq in E. subst k0.
      destruct Hin as [Heq|Hin].
      * injection Heq as <- <-. right; left. split; [done|]. exists e0. split; [by left|done].
      * left. split; [|by right].
        intros ->. apply Hnotin, list_elem_of_In, in_map_iff. by exists (k, e').
    + destruct Hin as [Heq|Hin].
      * injection Heq as <- <-. left. split; [|by left].
        intros ->. by rewrite String.eqb_refl in E.
      * destruct (IH Hnd' Hin) as [[Hne Hin']|[[-> [e [He ->]]]|[-> [Hni ->]]]].
        -- left. split; [done|by right].
        -- right; left. split; [done|]. exists e. split; [by right|done].
        -- right; right. split; [done|split; [|done]].
           intros [Heq|Hin']; [|done]. subst. by rewrite String.eqb_refl in E.
Qed.

Lemma add_vote_inv t B k c m :
  tally_inv t B -> tally_inv (add_vote t k c m) (B ++ [(k, c, m)]).
Proof.
  intros (Hnd & Hval & Hhas). split; [by apply add_vote_nodup|split].
  - intros k' e' Hin. rewrite sup_app.
    destruct (add_vote_in t k c m k' e' Hnd Hin) as [[Hne Hin']|[[-> [e [He ->]]]|[-> [Hni ->]]]].
    + rewrite (sup_single_neq k k' c m Hne), app_nil_r. by apply Hval.
    + rewrite sup_single_eq, length_app, ballot_total_app. simpl.
      destruct (Hval k e He) as [Hc Ht]. rewrite Hc, Ht. split; lia.
    + rewrite sup_single_eq.
      assert (sup k B = []) as ->.
      { destruct (sup k B) eqn:Es; [done|].
        destruct (Hhas k) as [e He]; [by rewrite Es|].
        exfalso. apply Hni. apply in_map_iff. by exists (k, e). }
      simpl. split; lia.
  - intros k'. rewrite sup_app. destruct (String.eqb k' k) eqn:E.
    + apply String.eqb_eq in E. subst. intros _. apply add_vote_has.
    + apply String.eqb_neq in E. rewrite (sup_single_neq k k' c m E), app_nil_r.
      intros Hne. destruct (Hhas k' Hne) as [e He]. exists e. by apply add_vote_keep.
Qed.

Lemma fold_votes_inv B t B0 :
  tally_inv t B0 ->
  tally_inv (fold_left (fun t '(k, c, m) => add_vote t k c m) B t) (B0 ++ B).
Proof.
  revert t B0. induction B as [|[[k c] m] B IH]; intros t B0 Hinv; simpl.
  - by rewrite app_nil_r.
  - replace (B0 ++ (k, c, m) :: B) with ((B0 ++ [(k, c, m)]) ++ B)
      by (by rewrite <- app_assoc).
    apply IH. by apply add_vote_inv.
Qed.

Lemma voteCounts_inv options results :
  tally_inv (voteCounts options results) (ballots options results).
Proof.
  unfold voteCounts. rewrite <- (app_nil_l (ballots options results)).
  apply fold_votes_inv. split; [constructor|split]; [by intros ? ? []|].
  intros k H. by destruct H.
Qed.

(** Keys of a table none of which is an inherited property. *)
Definition plain_keys (t : list (string * VoteEntry)) : Prop :=
  forall k, In k (map fst t) -> inherited_key k = false.

Lemma tally_fold_none (B : list (string * Z * string)) :
  fold_left (fun acc '(k, c, m) => match acc with Some t => tally_vote t k c m | None => None end)
            B None = None.
Proof. induction B as [|[[k c] m] B IH]; simpl; [done|]. exact IH. Qed.

Lemma tally_fold (B : list (string * Z * string)) t :
  plain_keys t ->
  fold_left (fun acc '(k, c, m) => match acc with Some t => tally_vote t k c m | None => None end)
            B (Some t) =
  if existsb (fun b => inherited_key (fst (fst b))) B then None
  else Some (fold_left (fun t '(k, c, m) => add_vote t k c m) B t).
Proof.
  revert t. induction B as [|[[k c] m] B IH]; intros t Ht; simpl; [done|].
  unfold tally_vote.
  destruct (inherited_key k) eqn:Ek; simpl.
  - destruct (own_key t k) eqn:Eo.
    + exfalso. unfold own_key in Eo. apply existsb_key_in in Eo.
      rewrite (Ht k Eo) in Ek. discriminate.
    + apply tally_fold_none.
  - assert (Hp : plain_keys (add_vote t k c m)).
    { intros k' Hk'. rewrite add_vote_keys in Hk'.
      destruct (existsb _ t); [by apply Ht|].
      apply in_app_or in Hk' as [Hk'|[<-|[]]]; [by apply Ht|done]. }
    destruct (own_key t k); by apply IH.
Qed.

(** The tally throws exactly when some ballot key is an inherited property;
    otherwise it builds [voteCounts]. *)
Lemma tally_spec options results :
  tally options results =
  if existsb (fun b => inherited_key (fst (fst b))) (ballots options results) then None
  else Some (voteCounts options results).
Proof. unfold tally, voteCounts. apply tally_fold. by intros k []. Qed.

Definition is_lower (c : ascii) : bool := let n := Js.code c in (97 <=? n) && (n <=? 122).

Fixpoint no_lower (s : string) : bool :=
  match s with
  | EmptyString => true
  | String c s' => negb (is_lower c) && no_lower s'
  end.

Lemma inherited_has_lower k : inherited_key k = true -> no_lower k = false.
Proof.
  unfold inherited_key. intros H. apply existsb_exists in H as [n [Hn Heq]].
  apply String.eqb_eq in Heq as ->. simpl in Hn.
  repeat (destruct Hn as [<-|Hn]; [reflexivity|]). destruct Hn.
Qed.

Lemma upper_not_lower c : is_lower (Js.upper_char c) = false.
Proof. destruct c as [[] [] [] [] [] [] [] []]; reflexivity. Qed.

Lemma no_lower_upper s : no_lower (Js.toUpperCase s) = true.
Proof.
  unfold Js.toUpperCase. induction s as [|c s IH]; simpl; [done|].
  rewrite upper_not_lower, IH. done.
Qed.

Lemma forall_mono {A} (P Q : A -> Prop) l : (forall x, P x -> Q x) -> Forall P l -> Forall Q l.
Proof. intros H Hl. induction Hl; constructor; auto. Qed.

Lemma af_not_lower c : Js.is_AF c = true -> is_lower c = false.
Proof.
  unfold Js.is_AF, is_lower. intros H. apply andb_true_iff in H as [H1 H2].
  apply Z.leb_le in H1, H2. apply andb_false_iff. left. apply Z.leb_gt. lia.
Qed.

Lemma af_letters_AF s : Forall (fun c => Js.is_AF c = true) (Js.af_letters s).
Proof.
  induction s as [|c s IH]; simpl; [constructor|].
  destruct (Js.is_AF c) eqn:E; [constructor|]; done.
Qed.

Lemma dedup_acc_forall (P : ascii -> Prop) seen xs : Forall P xs -> Forall P (Js.dedup_acc seen xs).
Proof.
  revert seen. induction xs as [|x xs IH]; intros seen H; simpl; [constructor|].
  inversion H; subst.
  destruct (existsb _ _); [by apply IH|constructor; [done|by apply IH]].
Qed.

Lemma insert_char_forall (P : ascii -> Prop) c xs :
  P c -> Forall P xs -> Forall P (Js.insert_char c xs).
Proof.
  induction xs as [|y ys IH]; intros Hc H; simpl; [by constructor|].
  inversion H; subst. destruct (_ <=? _); constructor; auto.
Qed.

Lemma sort_chars_forall (P : ascii -> Prop) xs : Forall P xs -> Forall P (Js.sort_chars xs).
Proof.
  induction xs as [|x xs IH]; intros H; simpl; [constructor|].
  inversion H; subst. apply insert_char_forall; auto.
Qed.

Lemma join_comma_no_lower xs :
  Forall (fun c => is_lower c = false) xs -> no_lower (Js.join_comma xs) = true.
Proof.
  induction xs as [|x xs IH]; intros H; [done|].
  inversion H as [|? ? Hx Hxs]; subst.
  destruct xs as [|y ys].
  - simpl. rewrite Hx. done.
  - change (Js.join_comma (x :: y :: ys))
      with (String x (String "," (String " " (Js.join_comma (y :: ys))))).
    cbn [no_lower]. rewrite Hx, IH by done. reflexivity.
Qed.

Lemma letter_set_no_lower s : no_lower (Js.letter_set (Js.af_letters s)) = true.
Proof.
  unfold Js.letter_set, Js.dedup. apply join_comma_no_lower.
  apply sort_chars_forall, dedup_acc_forall.
  eapply forall_mono; [|apply af_letters_AF]. apply af_not_lower.
Qed.

(** What [normalize] can return: the empty string, a boolean literal, a
    string without lower-case ASCII letter, or the label of an option. *)
Lemma normalize_cases ans opts :
  normalize ans opts = "" \/ normalize ans opts = "true" \/ normalize ans opts = "false" \/
  no_lower (normalize ans opts) = true \/
  (exists o, In o opts /\ label o = normalize ans opts).
Proof.
  unfold normalize. cbv zeta.
  destruct (String.eqb ans ""); [by left|].
  destruct (String.eqb (Js.toUpperCase (Js.trim ans)) "TRUE"); [by right; left|].
  destruct (String.eqb (Js.toUpperCase (Js.trim ans)) "FALSE"); [by right; right; left|].
  match goal with |- context [match ?tf with Some v => v | None => _ end] =>
    destruct tf as [v|] eqn:Etf end.
  - repeat (case_match; try discriminate); simplify_eq; tauto.
  - destruct (Js.af_letters (Js.toUpperCase (Js.trim ans))) as [|c l] eqn:El.
    + match goal with |- context [match find ?f opts with Some _ => _ | None => _ end] =>
        destruct (find f opts) as [o|] eqn:Ef end.
      * right; right; right; right. exists o. split; [exact (proj1 (find_some _ _ Ef))|done].
      * right; right; right; left. apply no_lower_upper.
    + right; right; right; left. rewrite <- El. apply letter_set_no_lower.
Qed.

Lemma ballots_keys options results b :
  In b (ballots options results) -> exists a, fst (fst b) = normalize a options.
Proof.
  unfold ballots. intros H. apply in_flat_map in H as [r [_ Hb]].
  destruct r as [m a c raw|]; [|destruct Hb].
  destruct (String.eqb (normalize a options) ""); [destruct Hb|].
  destruct Hb as [<-|[]]. by exists a.
Qed.

(** Only an option label can bring an inherited property name into the
    tally. *)
Lemma no_inherited_ballots options results :
  Forall (fun o => inherited_key (label o) = false) options ->
  existsb (fun b => inherited_key (fst (fst b))) (ballots options results) = false.
Proof.
  intros Hlab. destruct (existsb _ _) eqn:E; [exfalso|done].
  apply existsb_exists in E as [b [Hb Hk]].
  destruct (ballots_keys options results b Hb) as [a Ha]. rewrite Ha in Hk.
  destruct (normalize_cases a options) as [H|[H|[H|[H|(o & Ho & Hl)]]]];
    try (rewrite H in Hk; discriminate).
  - rewrite (inherited_has_lower _ Hk) in H. discriminate.
  - rewrite <- Hl in Hk. rewrite List.Forall_forall in Hlab.
    rewrite (Hlab o Ho) in Hk. discriminate.
Qed.

Lemma tally_ok options results :
  Forall (fun o => inherited_key (label o) = false) options ->
  tally options results = Some (voteCounts options results).
Proof. intros H. rewrite tally_spec, (no_inherited_ballots options results H). done. Qed.

(** The ballots for [k] are the successful results whose non-empty
    normalised answer is [k], with their raw confidences. *)
Lemma sup_raw options results k :
  length (sup k (ballots options results)) =
    length (List.filter (fun r => match r with
                                  | MOk _ a _ _ => negb (String.eqb (normalize a options) "") &&
                                                   String.eqb (normalize a options) k
                                  | MErr _ _ => false
                                  end) results) /\
  ballot_total (sup k (ballots options results)) =
    fold_right Z.add 0
      (map res_confidence
         (List.filter (fun r => match r with
                                | MOk _ a _ _ => negb (String.eqb (normalize a options) "") &&
                                                 String.eqb (normalize a options) k
                                | MErr _ _ => false
                                end) results)).
Proof.
  induction results as [|r rs IH]; [done|].
  destruct IH as [IH1 IH2].
  destruct r as [m a c raw|m e]; [|exact (conj IH1 IH2)].
  assert (Hb : ballots options (MOk m a c raw :: rs) =
               (if String.eqb (normalize a options) "" then [] else [(normalize a options, c, m)])
               ++ ballots options rs) by reflexivity.
  rewrite Hb, sup_app, length_app, ballot_total_app. cbn [List.filter].
  destruct (String.eqb (normalize a options) "") eqn:E0; cbn [negb andb].
  - exact (conj IH1 IH2).
  - unfold sup at 1. cbn [List.filter fst].
    destruct (String.eqb (normalize a options) k) eqn:Ek; cbn; rewrite ?Ek; cbn; split; lia.
Qed.



(** Stable insertion sort: a permutation whose head has the largest count. *)
Lemma insert_by_perm {A} (cmp : A -> A -> Z) x l : Permutation (insert_by cmp x l) (x :: l).
Proof.
  induction l as [|y l IH]; simpl; [done|].
  destruct (0 <? cmp x y); [|done].
  etrans; [apply perm_skip, IH|]. apply perm_swap.
Qed.

Lemma sort_by_perm {A} (cmp : A -> A -> Z) l : Permutation (sort_by cmp l) l.
Proof.
  induction l as [|x l IH]; simpl; [done|].
  etrans; [apply insert_by_perm|]. by apply perm_skip.
Qed.

Lemma insert_head x s :
  exists h r, insert_by vote_cmp x s = h :: r /\ sv_count x <= sv_count h /\
              (forall h0 r0, s = h0 :: r0 -> sv_count h0 <= sv_count h).
Proof.
  destruct s as [|y s]; simpl.
  - exists x, []. split; [done|]. split; [lia|]. by intros.
  - destruct (0 <? vote_cmp x y) eqn:Ec;
      [exists y, (insert_by vote_cmp x s) | exists x, (y :: s)];
      (split; [done|]); unfold vote_cmp in Ec;
      destruct (sv_count y =? sv_count x) eqn:E; simpl in Ec;
      rewrite ?Z.eqb_eq, ?Z.eqb_neq, ?Z.ltb_lt, ?Z.ltb_ge in *;
      (split; [lia|intros ? ? [= -> ->]; lia]).
Qed.

Lemma sort_head_max l y :
  In y l -> exists h r, sort_by vote_cmp l = h :: r /\ sv_count y <= sv_count h.
Proof.
  induction l as [|x l IH]; simpl; [done|]. intros [->|Hin].
  - destruct (insert_head y (sort_by vote_cmp l)) as (h & r & Heq & Hle & _).
    exists h, r. by split.
  - destruct (IH Hin) as (h0 & r0 & Heq0 & Hle0).
    unfold sort_by in *. simpl.
    destruct (insert_head x (fold_right (insert_by vote_cmp) [] l)) as (h & r & Heq & _ & Hmax).
    exists h, r. split; [done|]. specialize (Hmax h0 r0 Heq0). lia.
Qed.

Lemma partition_perm {A} (f : A -> bool) (g : A -> bool) l :
  (forall a, g a = negb (f a)) -> Permutation (List.filter f l ++ List.filter g l) l.
Proof.
  intros Hg. induction l as [|a l IH]; simpl; [done|].
  rewrite Hg. destruct (f a); simpl.
  - by apply perm_skip.
  - symmetry. etrans; [apply perm_skip; symmetry; apply IH|]. apply Permutation_middle.
Qed.

Lemma object_entries_perm {V} (t : list (string * V)) : Permutation (object_entries t) t.
Proof.
  unfold object_entries.
  etrans; [apply Permutation_app_tail, sort_by_perm|].
  apply partition_perm. intros [k v]. simpl. by destruct (array_index k).
Qed.

Lemma insert_key_head {A} (key : A -> Z) x s :
  exists h r, insert_by (fun a b => key b - key a) x s = h :: r /\ key x <= key h /\
              (forall h0 r0, s = h0 :: r0 -> key h0 <= key h).
Proof.
  destruct s as [|y s]; simpl.
  - exists x, []. split; [done|]. split; [lia|]. by intros.
  - destruct (0 <? key y - key x) eqn:Ec;
      [exists y, (insert_by (fun a b => key b - key a) x s) | exists x, (y :: s)];
      (split; [done|]); rewrite ?Z.ltb_lt, ?Z.ltb_ge in Ec;
      (split; [lia|intros ? ? [= -> ->]; lia]).
Qed.

Lemma sort_key_head_max {A} (key : A -> Z) l y :
  In y l -> exists h r, sort_by (fun a b => key b - key a) l = h :: r /\ key y <= key h.
Proof.
  induction l as [|x l IH]; simpl; [done|]. intros [->|Hin].
  - destruct (insert_key_head key y (sort_by (fun a b => key b - key a) l)) as (h & r & Heq & Hle & _).
    exists h, r. by split.
  - destruct (IH Hin) as (h0 & r0 & Heq0 & Hle0).
    unfold sort_by in *. simpl.
    destruct (insert_key_head key x (fold_right (insert_by (fun a b => key b - key a)) [] l))
      as (h & r & Heq & _ & Hmax).
    exists h, r. split; [done|]. specialize (Hmax h0 r0 Heq0). lia.
Qed.

Lemma sort_key_head_max_all {A} (key : A -> Z) l h r :
  sort_by (fun a b => key b - key a) l = h :: r -> In h l /\ forall y, In y l -> key y <= key h.
Proof.
  intros Hs. split.
  - eapply Permutation_in; [apply sort_by_perm|]. rewrite Hs. by left.
  - intros y Hy. destruct (sort_key_head_max key l y Hy) as (h' & r' & Hs' & Hle).
    rewrite Hs in Hs'. by injection Hs' as <- <-.
Qed.

(** With no answer backed by two ballots, the vote tally yields no majority. *)
Lemma no_majority_head options results :
  (forall x, (length (supporters options results x) <= 1)%nat) ->
  forall h r, sortedVotes options results = h :: r -> sv_count h <= 1.
Proof.
  intros Hone h r Hs.
  assert (Hh : In h (map (fun '(a, d) => mkSorted a (count d) (js_round_div (totalConfidence d) (count d)) (models d))
                      (object_entries (voteCounts options results)))).
  { eapply Permutation_in; [apply sort_by_perm|]. unfold sortedVotes, sort_entries in Hs. rewrite Hs. by left. }
  apply in_map_iff in Hh as [[k e] [<- Hke]].
  eapply Permutation_in in Hke; [|apply object_entries_perm].
  destruct (voteCounts_inv options results) as (_ & Hval & _).
  destruct (Hval k e Hke) as [Hc _]. simpl. rewrite Hc.
  specialize (Hone k). unfold supporters in Hone. unfold sup. lia.
Qed.

(** The judge-failure path: no majority and a failed judge give the first
    successful worker result of highest confidence. *)
Lemma fallback_core (call : string -> ModelResult) (options : list QuestionOption) :
  Forall (fun o => inherited_key (label o) = false) options ->
  (forall x, (length (supporters options (map call workers) x) <= 1)%nat) ->
  (exists m err, call judge = MErr m err) ->
  (exists r, In r (map call workers) /\ success r = true) ->
  exists m a c raw,
    In (MOk m a c raw) (map call workers) /\
    (forall r, In r (map call workers) -> success r = true -> res_confidence r <= c) /\
    Engine.callGeminiEnsemble call options = Ret (mkVoting a c "fallback_worker").
Proof.
  intros Hlab Hone (mj & ej & Hj) (r0 & Hr0 & Hs0).
  set (results := map call workers) in *.
  set (S := List.filter success results).
  assert (Hr0S : In r0 S) by (apply filter_In; by split).
  destruct (sort_key_head_max res_confidence S r0 Hr0S) as (h & t & Hs & _).
  destruct (sort_key_head_max_all res_confidence S h t Hs) as [HhS Hmax].
  apply filter_In in HhS as [Hh Hsh].
  destruct h as [m a c raw|m err]; [|discriminate].
  exists m, a, c, raw. split; [done|]. split.
  { intros r Hr Hsr. apply (Hmax r). by apply filter_In. }
  unfold Engine.callGeminiEnsemble. fold results.
  rewrite (tally_ok options results Hlab).
  change (sort_entries (voteCounts options results)) with (sortedVotes options results).
  assert (Hmaj : match sortedVotes options results with
                 | topVote :: _ =>
                     if 2 <=? sv_count topVote then
                       Some (mkVoting (sv_answer topVote) (sv_avgConfidence topVote)
                               (if sv_count topVote =? 3 then "unanimous" else "majority"))
                     else None
                 | [] => None
                 end = None).
  { destruct (sortedVotes options results) as [|v vs] eqn:Ev; [done|].
    pose proof (no_majority_head options results Hone v vs Ev).
    replace (2 <=? sv_count v) with false by (symmetry; apply Z.leb_gt; lia). done. }
  cbv zeta. rewrite Hmaj, Hj. fold S. rewrite Hs. done.
Qed.

End TallyFacts.

(* ------------------------------------------------------------------ *)
(** ** Claims about the judge-mode ensemble *)

Module EnsembleClaims.
Import Ensemble TallyFacts.
Local Open Scope list_scope.







(** C2 (as amended): the judge-mode round applies no reliability penalty.
    When no option label is the name of a property of [Object.prototype], the
    tally succeeds and each of its entries holds, for its normalised answer,
    the number of successful workers that gave it and the sum of their raw
    parsed confidences, whatever the number of letters in the answer (no cap,
    no unreliable flag).  And when a worker answer is strictly the most
    confident, no answer has two ballots and the judge fails, that answer is
    returned with its raw confidence. *)
Theorem raw_confidence_not_capped (call : string -> ModelResult) (options : list QuestionOption) :
  Forall (fun o => inherited_key (label o) = false) options ->
  (exists t,
     tally options (map call workers) = Some t /\
     forall k e, In (k, e) t ->
       count e = Z.of_nat (length (List.filter (fun r => match r with
           | MOk _ a _ _ => negb (String.eqb (normalize a options) "") &&
                            String.eqb (normalize a options) k
           | MErr _ _ => false
           end) (map call workers))) /\
       totalConfidence e = fold_right Z.add 0 (map res_confidence (List.filter (fun r => match r with
           | MOk _ a _ _ => negb (String.eqb (normalize a options) "") &&
                            String.eqb (normalize a options) k
           | MErr _ _ => false
           end) (map call workers)))) /\
  (forall m a c raw,
     In (MOk m a c raw) (map call workers) ->
     (forall r, In r (map call workers) -> success r = true -> r <> MOk m a c raw ->
                res_confidence r < c) ->
     (forall x, (length (supporters options (map call workers) x) <= 1)%nat) ->
     (exists mj ej, call judge = MErr mj ej) ->
     Engine.callGeminiEnsemble call options = Ret (mkVoting a c "fallback_worker")).
Proof.
  intros Hlab. split.
  - exists (voteCounts options (map call workers)).
    split; [by apply tally_ok|].
    intros k e Hke.
    destruct (voteCounts_inv options (map call workers)) as (_ & Hval & _).
    destruct (Hval k e Hke) as [Hc Ht].
    destruct (sup_raw options (map call workers) k) as [H1 H2].
    rewrite Hc, Ht, H1, H2. done.
  - intros m a c raw Hin Hlt Hone Hj.
    destruct (fallback_core call options Hlab Hone Hj) as (m' & a' & c' & raw' & Hin' & Hmax & Hres).
    { exists (MOk m a c raw). by split. }
    destruct (decide (MOk m' a' c' raw' = MOk m a c raw)) as [Heq|Hne].
    + injection Heq as -> -> -> ->. done.
    + exfalso. specialize (Hlt _ Hin' eq_refl Hne). specialize (Hmax _ Hin eq_refl).
      simpl in Hlt, Hmax. lia.
Qed.

Lemma raw_confidence_not_capped_witness :
  Forall (fun o => inherited_key (label o) = false)
         [mkOption "A" "1"; mkOption "B" "2"; mkOption "C" "3"; mkOption "D" "4"] /\
  Engine.callGeminiEnsemble (fixed_calls (MOk "gemini-3-flash-preview" "A, B, C, D" 95 "")
                                         (MOk "gemini-2.0-flash-001" "A" 90 "")
                                         (MOk "gemini-2.5-flash-lite" "B" 80 "")
                                         (MErr "gemini-2.5-pro" "Timeout"))
                            [mkOption "A" "1"; mkOption "B" "2"; mkOption "C" "3"; mkOption "D" "4"]
    = Ret (mkVoting "A, B, C, D" 95 "fallback_worker").
Proof.
  assert (Hlab : Forall (fun o => inherited_key (label o) = false)
                   [mkOption "A" "1"; mkOption "B" "2"; mkOption "C" "3"; mkOption "D" "4"])
    by (repeat constructor).
  split; [exact Hlab|].
  apply (proj2 (raw_confidence_not_capped _ _ Hlab))
    with (m := "gemini-3-flash-preview") (raw := "").
  - simpl. by left.
  - intros r Hr Hs Hne. simpl in Hr.
    destruct Hr as [<-|[<-|[<-|[]]]]; [done|simpl; lia|simpl; lia].
  - intros x. unfold supporters.
    match goal with |- context [ballots ?o ?rs] =>
      let b := eval vm_compute in (ballots o rs) in change (ballots o rs) with b end.
    destruct (String.eqb_spec "A, B, C, D" x) as [<-|?]; [simpl; lia|].
    destruct (String.eqb_spec "A" x) as [<-|?]; [simpl; lia|].
    destruct (String.eqb_spec "B" x) as [<-|?]; [simpl; lia|].
    cbn -[String.eqb]. repeat rewrite (proj2 (String.eqb_neq _ _)) by done. simpl; lia.
  - eexists _, _. reflexivity.
Defined.

(** C2 refuted as stated: a worker listing the four letters A, B, C, D with
    confidence 95 is not capped at 40; with {A(90), B(80)} and a failing judge
    it wins the round with confidence 95. *)
Lemma unreliable_answer_counterexample :
  exists v,
    Engine.callGeminiEnsemble (fixed_calls (MOk "gemini-3-flash-preview" "A, B, C, D" 95 "")
                                           (MOk "gemini-2.0-flash-001" "A" 90 "")
                                           (MOk "gemini-2.5-flash-lite" "B" 80 "")
                                           (MErr "gemini-2.5-pro" "Timeout")) [] = Ret v /\
    finalAnswer v = "A, B, C, D" /\ 40 < finalConfidence v.
Proof.
  eexists. split; [vm_compute; reflexivity|]. simpl. split; [reflexivity|lia].
Qed.

(** C8: the round throws [Error("All models failed including Judge")] exactly
    when every worker and the judge failed; no answer is made up then. *)
Theorem exhausted_round (call : string -> ModelResult) (options : list QuestionOption) :
  (forall m, In m MODELS -> success (call m) = false) <->
  Engine.callGeminiEnsemble call options = Throw "All models failed including Judge".
Proof.
  split.
  - intros Hall.
    assert (Hw : forall w, In w workers -> exists mm ee, call w = MErr mm ee).
    { intros w Hw. assert (Hs : success (call w) = false)
        by (apply Hall; simpl in *; tauto).
      destruct (call w) as [|mm ee]; [discriminate|by exists mm, ee]. }
    assert (Hj : exists mm ee, call judge = MErr mm ee).
    { assert (Hs : success (call judge) = false) by (apply Hall; simpl; tauto).
      destruct (call judge) as [|mm ee]; [discriminate|by exists mm, ee]. }
    destruct (Hw "gemini-3-flash-preview") as (m1 & e1 & H1); [simpl; tauto|].
    destruct (Hw "gemini-2.0-flash-001") as (m2 & e2 & H2); [simpl; tauto|].
    destruct (Hw "gemini-2.5-flash-lite") as (m3 & e3 & H3); [simpl; tauto|].
    destruct Hj as (mj & ej & Hj).
    unfold Engine.callGeminiEnsemble, workers. simpl map. rewrite H1, H2, H3, Hj. reflexivity.
  - intros Hthrow m Hm.
    destruct (success (call m)) eqn:Hs; [exfalso|done].
    assert (Hj : exists mm ee, call judge = MErr mm ee).
    { destruct (call judge) as [mm aa cc rr|mm ee] eqn:Ej; [|by exists mm, ee].
      exfalso. unfold Engine.callGeminiEnsemble in Hthrow. rewrite Ej in Hthrow.
      destruct (tally options (map call workers)) as [counts|]; [|discriminate].
      destruct (sort_entries counts) as [|v vs]; [discriminate|].
      destruct (2 <=? sv_count v); discriminate. }
    destruct Hj as (mj & ej & Hj).
    assert (Hmw : In m workers).
    { simpl in Hm. destruct Hm as [<-|[<-|[<-|[<-|[]]]]]; simpl; try tauto.
      change (call "gemini-2.5-pro") with (call judge) in Hs. rewrite Hj in Hs. discriminate. }
    assert (HS : In (call m) (List.filter success (map call workers)))
      by (apply filter_In; split; [by apply in_map|done]).
    destruct (sort_key_head_max res_confidence _ _ HS) as (h & t & Hsort & _).
    destruct (sort_key_head_max_all res_confidence _ h t Hsort) as [Hh _].
    apply filter_In in Hh as [_ Hsh].
    unfold Engine.callGeminiEnsemble in Hthrow. rewrite Hj, Hsort in Hthrow.
    destruct (tally options (map call workers)) as [counts|]; [|discriminate].
    destruct h as [mh ah ch rh|]; [|discriminate].
    destruct (sort_entries counts) as [|v vs]; [discriminate|].
    destruct (2 <=? sv_count v); discriminate.
Qed.

Lemma exhausted_round_witness :
  Engine.callGeminiEnsemble (fixed_calls (MErr "gemini-3-flash-preview" "Timeout")
                                         (MErr "gemini-2.0-flash-001" "Timeout")
                                         (MErr "gemini-2.5-flash-lite" "Timeout")
                                         (MErr "gemini-2.5-pro" "Timeout")) []
    = Throw "All models failed including Judge".
Proof.
  apply exhausted_round. intros m Hm. simpl in Hm.
  destruct Hm as [<-|[<-|[<-|[<-|[]]]]]; reflexivity.
Defined.

(** C10: for a question with exactly two options whose texts are the literals
    true and false (compared after [toLowerCase().trim()]) and distinct labels,
    a bare letter A or B is normalised to the literal of the option bearing that
    label, which is also how the literal vote itself ("true" or "TRUE") is
    normalised, so both count as one ballot key. *)
Theorem true_false_letter_normalized (o1 o2 : QuestionOption) (letter : string) :
  label o1 <> label o2 ->
  (opt_text_key o1 = "true" /\ opt_text_key o2 = "false") \/
  (opt_text_key o1 = "false" /\ opt_text_key o2 = "true") ->
  letter = "A" \/ letter = "B" ->
  forall o, In o [o1; o2] -> label o = letter ->
    normalize letter [o1; o2] = opt_text_key o /\
    normalize (opt_text_key o) [o1; o2] = opt_text_key o /\
    normalize (Js.toUpperCase (opt_text_key o)) [o1; o2] = opt_text_key o.
Proof.
  intros Hlab Htf Hlet o Ho Hol.
  assert (Hlit : forall s, s = "true" \/ s = "false" ->
            normalize s [o1; o2] = s /\ normalize (Js.toUpperCase s) [o1; o2] = s).
  { intros s [-> | ->]; split; reflexivity. }
  assert (Hk : opt_text_key o = "true" \/ opt_text_key o = "false").
  { destruct Ho as [<-|[<-|[]]]; destruct Htf as [[H1 H2]|[H1 H2]]; rewrite ?H1, ?H2; tauto. }
  destruct (Hlit _ Hk) as [Hl1 Hl2]. split; [|by split].
  destruct Hlet as [-> | ->]; destruct Ho as [<-|[<-|[]]];
    destruct Htf as [[H1 H2]|[H1 H2]]; unfold normalize; cbn -[opt_text_key];
    rewrite ?H1, ?H2; cbn -[opt_text_key];
    repeat match goal with
    | |- context [String.eqb ?x ?y] =>
        first [ rewrite (proj2 (String.eqb_eq x y)) by congruence
              | rewrite (proj2 (String.eqb_neq x y)) by congruence ]
    end; reflexivity.
Qed.

Lemma true_false_letter_normalized_witness :
  normalize "A" [mkOption "A" "True"; mkOption "B" " false"] = opt_text_key (mkOption "A" "True") /\
  normalize (opt_text_key (mkOption "A" "True")) [mkOption "A" "True"; mkOption "B" " false"]
    = opt_text_key (mkOption "A" "True") /\
  normalize (Js.toUpperCase (opt_text_key (mkOption "A" "True")))
            [mkOption "A" "True"; mkOption "B" " false"] = opt_text_key (mkOption "A" "True").
Proof.
  apply (true_false_letter_normalized (mkOption "A" "True") (mkOption "B" " false") "A").
  - discriminate.
  - left. split; reflexivity.
  - left. reflexivity.
  - simpl. left. reflexivity.
  - reflexivity.
Defined.

End EnsembleClaims.

(* ------------------------------------------------------------------ *)
(** ** The prompt builder, the answer cache and the POST /ask handler *)

Module HandlerFacts.
Import Handler.

Lemma vacuum_lookup_expired now (cache : Cache) k e :
  cache !! k = Some e -> TTL_MS < now - ts e -> vacuum now cache !! k = None.
Proof.
  intros Hk Hlt. unfold vacuum. apply map_lookup_filter_None_2. right.
  intros e' He' Hle. simpl in Hle. assert (e' = e) as -> by congruence. lia.
Qed.

Lemma vacuum_lookup_kept now (cache : Cache) k e :
  vacuum now cache !! k = Some e -> cache !! k = Some e /\ now - ts e <= TTL_MS.
Proof. unfold vacuum. rewrite map_lookup_filter_Some. done. Qed.

Lemma vacuum_subseteq now (cache : Cache) : vacuum now cache ⊆ cache.
Proof. apply map_filter_subseteq. Qed.

(** Past the [!input] test, the handler vacuums, then looks the key up. *)
Lemma handler_ask_present call clk inp cache :
  inp <> PStr "" ->
  handler_ask call clk (Some inp) cache =
    (let cache1 := vacuum (t_vacuum clk) cache in
     match cache1 !! cache_key inp with
     | Some e =>
         if t_check clk - ts e <=? TTL_MS then (RCached (answer e), cache1)
         else fresh_round call clk inp cache1
     | None => fresh_round call clk inp cache1
     end).
Proof. intros Hne. destruct inp as [[|c s]|q]; [congruence|reflexivity|reflexivity]. Qed.

(** A failed ensemble round returns the cache it was given. *)
Lemma fresh_round_error call clk inp cache st msg :
  fst (fresh_round call clk inp cache) = RError st msg ->
  snd (fresh_round call clk inp cache) = cache.
Proof.
  unfold fresh_round, processRequestDirectly.
  destruct (Engine.callGeminiEnsemble _ _) as [v|m]; simpl; [discriminate|done].
Qed.

End HandlerFacts.

Module HandlerClaims.
Import Handler HandlerFacts.

Definition winbox_question : string := "Which port does Winbox use by default?".

(** Claim C5 (code bug).  For a string prompt, [buildPrompt] returns one
    fixed template whatever the question is: the question text never
    reaches the models.  On the string question [winbox_question] the
    prompt sent for the trimmed request does not contain it. *)
Theorem string_prompt_drops_question :
  (forall s, Prompt.buildPrompt (request_prompt (PStr s)) = Prompt.string_template) /\
  Js.includes (Prompt.buildPrompt (request_prompt (PStr winbox_question))) winbox_question = false.
Proof. split; [intros s; reflexivity | vm_compute; reflexivity]. Qed.

(** Claim C7.  An entry whose age at the cache check exceeds [TTL_MS]
    is never served: if it was already expired when [vacuum] ran, the
    vacuumed cache has no entry for its key; and the request with that key
    gets the result of a fresh ensemble round, run on the vacuumed cache. *)
Theorem expired_entry_fresh_round call clk inp (cache : Cache) e :
  inp <> PStr "" ->
  cache !! cache_key inp = Some e ->
  TTL_MS < t_check clk - ts e ->
  (TTL_MS < t_vacuum clk - ts e -> vacuum (t_vacuum clk) cache !! cache_key inp = None) /\
  handler_ask call clk (Some inp) cache = fresh_round call clk inp (vacuum (t_vacuum clk) cache).
Proof.
  intros Hne Hk Hage. split.
  - intros Hv. exact (vacuum_lookup_expired _ _ _ _ Hk Hv).
  - rewrite (handler_ask_present _ _ _ _ Hne). cbv zeta.
    destruct (vacuum (t_vacuum clk) cache !! cache_key inp) as [e'|] eqn:Ev; [|reflexivity].
    destruct (vacuum_lookup_kept _ _ _ _ Ev) as [Hk' _].
    assert (e' = e) as -> by congruence.
    replace (t_check clk - ts e <=? TTL_MS) with false by (symmetry; apply Z.leb_gt; lia).
    reflexivity.
Qed.

Lemma expired_entry_fresh_round_witness :
  (TTL_MS < 200000 - 0 ->
   vacuum 200000 (<[cache_key (PStr winbox_question) := mkCacheEntry "A" 0]> ∅)
     !! cache_key (PStr winbox_question) = None) /\
  handler_ask (fun _ _ m => MOk m "B" 90 "B") (mkClock 200000 200000 200000 200100 200100)
    (Some (PStr winbox_question)) (<[cache_key (PStr winbox_question) := mkCacheEntry "A" 0]> ∅)
  = fresh_round (fun _ _ m => MOk m "B" 90 "B") (mkClock 200000 200000 200000 200100 200100)
      (PStr winbox_question)
      (vacuum 200000 (<[cache_key (PStr winbox_question) := mkCacheEntry "A" 0]> ∅)).
Proof.
  apply (expired_entry_fresh_round (fun _ _ m => MOk m "B" 90 "B")
           (mkClock 200000 200000 200000 200100 200100) (PStr winbox_question)
           (<[cache_key (PStr winbox_question) := mkCacheEntry "A" 0]> ∅) (mkCacheEntry "A" 0)).
  - discriminate.
  - apply lookup_insert_eq.
  - simpl. unfold TTL_MS. lia.
Defined.

(** Claim C9.  A POST /ask request answered with an error leaves no new or
    changed entry in the cache: the cache afterwards is the one before, or
    that cache after [vacuum] removed expired entries, and in both cases a
    sub-map of the cache before. *)
Theorem error_response_keeps_cache call clk input (cache : Cache) st msg :
  fst (handler_ask call clk input cache) = RError st msg ->
  (snd (handler_ask call clk input cache) = cache \/
   snd (handler_ask call clk input cache) = vacuum (t_vacuum clk) cache) /\
  snd (handler_ask call clk input cache) ⊆ cache.
Proof.
  intros Herr.
  assert (Hs : snd (handler_ask call clk input cache) = cache \/
               snd (handler_ask call clk input cache) = vacuum (t_vacuum clk) cache).
  { destruct input as [inp|]; [|left; reflexivity].
    assert (Hne : inp = PStr "" \/ inp <> PStr "")
      by (destruct inp as [[|c s]|q]; [left; reflexivity|right; discriminate|right; discriminate]).
    destruct Hne as [->|Hne]; [left; reflexivity|].
    rewrite (handler_ask_present _ _ _ _ Hne) in Herr |- *. cbv zeta in Herr |- *. right.
    destruct (vacuum (t_vacuum clk) cache !! cache_key inp) as [e|].
    - destruct (t_check clk - ts e <=? TTL_MS); [discriminate|].
      exact (fresh_round_error _ _ _ _ _ _ Herr).
    - exact (fresh_round_error _ _ _ _ _ _ Herr). }
  split; [exact Hs|].
  destruct Hs as [-> | ->]; [reflexivity|apply vacuum_subseteq].
Qed.

Lemma error_response_keeps_cache_witness :
  fst (handler_ask (fun _ _ m => MErr m "Server Overload (Max Retries)")
         (mkClock 200000 200000 200000 200100 200100) (Some (PStr winbox_question))
         (<["other" := mkCacheEntry "C" 150000]> (<[cache_key (PStr winbox_question) := mkCacheEntry "A" 0]> ∅)))
    = RError 400 "All models failed including Judge" /\
  (snd (handler_ask (fun _ _ m => MErr m "Server Overload (Max Retries)")
         (mkClock 200000 200000 200000 200100 200100) (Some (PStr winbox_question))
         (<["other" := mkCacheEntry "C" 150000]> (<[cache_key (PStr winbox_question) := mkCacheEntry "A" 0]> ∅)))
     = <["other" := mkCacheEntry "C" 150000]> (<[cache_key (PStr winbox_question) := mkCacheEntry "A" 0]> ∅) \/
   snd (handler_ask (fun _ _ m => MErr m "Server Overload (Max Retries)")
         (mkClock 200000 200000 200000 200100 200100) (Some (PStr winbox_question))
         (<["other" := mkCacheEntry "C" 150000]> (<[cache_key (PStr winbox_question) := mkCacheEntry "A" 0]> ∅)))
     = vacuum 200000 (<["other" := mkCacheEntry "C" 150000]> (<[cache_key (PStr winbox_question) := mkCacheEntry "A" 0]> ∅))) /\
  snd (handler_ask (fun _ _ m => MErr m "Server Overload (Max Retries)")
         (mkClock 200000 200000 200000 200100 200100) (Some (PStr winbox_question))
         (<["other" := mkCacheEntry "C" 150000]> (<[cache_key (PStr winbox_question) := mkCacheEntry "A" 0]> ∅)))
    ⊆ <["other" := mkCacheEntry "C" 150000]> (<[cache_key (PStr winbox_question) := mkCacheEntry "A" 0]> ∅).
Proof.
  split; [vm_compute; reflexivity|].
  apply (error_response_keeps_cache (fun _ _ m => MErr m "Server Overload (Max Retries)")
           (mkClock 200000 200000 200000 200100 200100) (Some (PStr winbox_question))
           (<["other" := mkCacheEntry "C" 150000]> (<[cache_key (PStr winbox_question) := mkCacheEntry "A" 0]> ∅))
           400 "All models failed including Judge").
  vm_compute. reflexivity.
Defined.

End HandlerClaims.

(* ------------------------------------------------------------------ *)
(** ** Answer extraction and the retry loop *)

Module RetryFacts.
Import Retry.

Definition failed (a : Attempt) : bool :=
  match attempt_outcome a with inr _ => true | inl _ => false end.

Definition error_of (a : Attempt) : string :=
  match attempt_outcome a with inr m => m | inl _ => "" end.

(** From [attempt], with the attempts up to [retries] all failing, the
    loop makes every one of them. *)
Lemma loop_all_fail model net retries k :
  forall attempt,
  (attempt + k = S retries)%nat -> (1 <= k)%nat ->
  (forall a, (attempt <= a <= retries)%nat -> failed (net a) = true) ->
  attempts_loop model net retries attempt k =
    mkTrace (MErr model (final_error (error_of (net retries))))
            (seq attempt k)
            (map (fun a => waitTime (error_of (net a)) a) (seq attempt (k - 1))).
Proof.
  induction k as [|k IH]; intros attempt Hk H1 Hf; [lia|].
  cbn [attempts_loop].
  assert (Ha : failed (net attempt) = true) by (apply Hf; lia).
  unfold failed in Ha. unfold error_of.
  destruct (attempt_outcome (net attempt)) as [[[ans conf] raw]|m] eqn:Eo; [discriminate|].
  destruct (Nat.eqb_spec attempt retries) as [->|Hne].
  - assert (k = 0%nat) as -> by lia. rewrite Eo. reflexivity.
  - destruct k as [|k']; [lia|].
    rewrite (IH (S attempt)) by (try lia; intros a Ha'; apply Hf; lia).
    simpl. rewrite Nat.sub_0_r. unfold error_of. rewrite Eo. reflexivity.
Qed.

End RetryFacts.

Module ExtractClaims.
Import Js Json Extract.

Definition dq : string := String dq_char EmptyString.

(** A model reply whose reasoning quotes a RouterOS script block before
    its JSON object. *)
Definition reply_json : string :=
  "{" ++ dq ++ "answer" ++ dq ++ ": " ++ dq ++ "A" ++ dq ++ ", " ++ dq ++ "confidence" ++ dq ++ ": 90}".
Definition reply_text : string :=
  "Option B fails because do={:put 1} needs a loop." ++ String "010"%char EmptyString ++
  "JSON: " ++ reply_json.

(** Claim C6 (code bug).  The reply [reply_text] contains a JSON object
    with answer [A] and confidence 90, and the letter [B] elsewhere; the
    lazy pattern of the second strategy starts at the first brace, inside
    the script block, so the parse fails and the labeled-letter strategy
    returns [B] with confidence 65. *)
Theorem brace_before_json_misread :
  JSON_parse reply_json = Some (JObj [("answer", JStr "A"); ("confidence", JNum 90 0)]) /\
  includes reply_text reply_json = true /\
  try_parse reply_json = Some ("A", 90) /\
  lazy_json_match reply_text = Some ("{:put 1} needs a loop." ++ String "010"%char EmptyString ++ "JSON: " ++ reply_json) /\
  parseAnswerWithConfidence (Some reply_text) = ("B", 65).
Proof. vm_compute. repeat split. Qed.

End ExtractClaims.

Module RetryClaims.
Import Retry RetryFacts.

Definition unauthorized : string :=
  "[GoogleGenerativeAI Error]: [401 Unauthorized] API key not valid. Please pass a valid API key.".

(** Claim C3 (counterexample).  An authentication failure is not short
    circuited: with the default three retries the provider is called on
    attempts 1, 2 and 3, waiting 1 s and 2 s in between, before the
    failure is returned. *)
Lemma auth_error_retried :
  callSingleModel "gemini-2.5-flash" (fun _ => AThrow unauthorized) 3 =
    mkTrace (MErr "gemini-2.5-flash" "🔑 API key invalid") [1; 2; 3]%nat [1000; 2000].
Proof. vm_compute. reflexivity. Qed.

(** Claim C3 (amended).  Whatever the kind of each failure (a thrown
    error of any class, or an empty or unparseable reply), when all
    [retries >= 1] attempts fail the provider is called on every attempt
    [1..retries], the wait after attempt [a] is [waitTime] of its error
    (2000 a ms for an overload, 1000 a ms otherwise), and the result is a
    failure carrying [final_error] of the last error. *)
Theorem every_failure_retried model net retries :
  (1 <= retries)%nat ->
  (forall a, (1 <= a <= retries)%nat -> failed (net a) = true) ->
  callSingleModel model net retries =
    mkTrace (MErr model (final_error (error_of (net retries))))
            (seq 1 retries)
            (map (fun a => waitTime (error_of (net a)) a) (seq 1 (retries - 1))).
Proof.
  intros H1 Hf. unfold callSingleModel.
  apply loop_all_fail; [lia | exact H1 | exact Hf].
Qed.

Definition mixed_failures (a : nat) : Attempt :=
  match a with
  | 1%nat => AThrow "[503 Service Unavailable] The model is overloaded."
  | 2%nat => AText None
  | _ => AThrow "[404 Not Found] models/gemini-x is not found"
  end.

Lemma every_failure_retried_witness :
  callSingleModel "gemini-2.5-flash" mixed_failures 3 =
    mkTrace (MErr "gemini-2.5-flash" (final_error (error_of (mixed_failures 3))))
            (seq 1 3)
            (map (fun a => waitTime (error_of (mixed_failures a)) a) (seq 1 (3 - 1))).
Proof.
  apply (every_failure_retried "gemini-2.5-flash" mixed_failures 3).
  - lia.
  - intros a Ha. destruct a as [|[|[|[|a]]]]; try lia; vm_compute; reflexivity.
Defined.

End RetryClaims.

Module RetryMoreFacts.
Import Retry RetryFacts.

(** From [attempt], when the attempts before [a] fail and attempt [a]
    succeeds, the loop stops at [a] with its answer. *)
Lemma loop_first_success model net retries a ans conf raw k :
  forall attempt,
  (attempt + k = S retries)%nat -> (attempt <= a <= retries)%nat ->
  (forall b, (attempt <= b < a)%nat -> failed (net b) = true) ->
  attempt_outcome (net a) = inl (ans, conf, raw) ->
  attempts_loop model net retries attempt k =
    mkTrace (MOk model ans conf raw)
            (seq attempt (S (a - attempt)))
            (map (fun b => waitTime (error_of (net b)) b) (seq attempt (a - attempt))).
Proof.
  induction k as [|k IH]; intros attempt Hk Ha Hf Hs; [lia|].
  cbn [attempts_loop].
  destruct (Nat.eq_dec attempt a) as [->|Hne].
  - rewrite Hs, Nat.sub_diag. reflexivity.
  - assert (Hfa : failed (net attempt) = true) by (apply Hf; lia).
    unfold failed in Hfa.
    destruct (attempt_outcome (net attempt)) as [[[ans' conf'] raw']|m] eqn:Eo; [discriminate|].
    destruct (Nat.eqb_spec attempt retries) as [->|Hne']; [lia|].
    rewrite (IH (S attempt)) by (first [lia | exact Hs | intros b Hb; apply Hf; lia]).
    replace (a - attempt)%nat with (S (a - S attempt)) by lia. simpl.
    unfold error_of. rewrite Eo. reflexivity.
Qed.

(** The loop from [attempt] makes the attempts [attempt..n] for some [n]:
    all but the last fail, the result is a success exactly when the last
    one succeeds, and it stops before [retries] only on a success. *)
Lemma loop_shape model net retries k :
  forall attempt,
  (attempt + k = S retries)%nat -> (1 <= k)%nat ->
  let t := attempts_loop model net retries attempt k in
  exists n, (attempt <= n <= retries)%nat /\
    attempts t = seq attempt (S (n - attempt)) /\
    length (waits t) = (n - attempt)%nat /\
    (forall b, (attempt <= b < n)%nat -> failed (net b) = true) /\
    success (result t) = negb (failed (net n)) /\
    ((n < retries)%nat -> failed (net n) = false).
Proof.
  induction k as [|k IH]; intros attempt Hk H1; [lia|]. cbn zeta.
  cbn [attempts_loop].
  destruct (attempt_outcome (net attempt)) as [[[ans conf] raw]|m] eqn:Eo.
  - exists attempt. rewrite Nat.sub_diag. simpl.
    split_and!; try done; try lia; try (intros; lia); try (intros; unfold failed; rewrite Eo; done).
  - destruct (Nat.eqb_spec attempt retries) as [->|Hne].
    + exists retries. rewrite Nat.sub_diag. simpl.
      split_and!; try done; try lia; try (intros; lia); try (intros; unfold failed; rewrite Eo; done).
    + destruct (IH (S attempt)) as (n & Hn & Hat & Hw & Hf & Hsucc & Hlast); [lia|lia|].
      exists n. simpl. split; [lia|]. split_and!.
      * rewrite Hat. replace (n - attempt)%nat with (S (n - S attempt)) by lia. reflexivity.
      * rewrite Hw. lia.
      * intros b Hb. destruct (Nat.eq_dec b attempt) as [->|Hb'].
        -- unfold failed. by rewrite Eo.
        -- apply Hf. lia.
      * done.
      * done.
Qed.

End RetryMoreFacts.

Module RetryExtras.
Import Retry RetryFacts RetryMoreFacts.

(** [callSingleModel] stops at the first attempt that yields an answer:
    when attempts [1..a-1] fail and attempt [a <= retries] yields an
    answer, the provider is called on attempts [1..a] only, the waits are
    those of the failed attempts, and the result is that answer. *)
Theorem first_success_returned model net retries a ans conf raw :
  (1 <= a <= retries)%nat ->
  (forall b, (1 <= b < a)%nat -> failed (net b) = true) ->
  attempt_outcome (net a) = inl (ans, conf, raw) ->
  callSingleModel model net retries =
    mkTrace (MOk model ans conf raw) (seq 1 a)
            (map (fun b => waitTime (error_of (net b)) b) (seq 1 (a - 1))).
Proof.
  intros Ha Hf Hs. unfold callSingleModel.
  rewrite (loop_first_success model net retries a ans conf raw retries 1); try lia; auto.
  by replace (S (a - 1)) with a by lia.
Qed.

Definition second_try (a : nat) : Attempt :=
  match a with
  | 1%nat => AThrow "[429 Too Many Requests] Resource has been exhausted"
  | _ => AText (Some "B")
  end.

Lemma first_success_returned_witness :
  callSingleModel "gemini-2.5-flash" second_try 3 =
    mkTrace (MOk "gemini-2.5-flash" "B" 70 "B") (seq 1 2)
            (map (fun b => waitTime (error_of (second_try b)) b) (seq 1 (2 - 1))).
Proof.
  apply (first_success_returned "gemini-2.5-flash" second_try 3 2 "B" 70 "B").
  - lia.
  - intros b Hb. destruct b as [|[|b]]; try lia. vm_compute. reflexivity.
  - vm_compute. reflexivity.
Defined.

(** With [retries >= 1], [callSingleModel] calls the provider on
    attempts [1..n] for some [1 <= n <= retries], with one wait between
    consecutive attempts; every attempt before [n] failed, the result is
    a success exactly when attempt [n] yields an answer, and it stops
    before attempt [retries] only on such an answer. *)
Theorem attempts_prefix_shape model net retries :
  (1 <= retries)%nat ->
  let t := callSingleModel model net retries in
  exists n, (1 <= n <= retries)%nat /\
    attempts t = seq 1 n /\
    length (waits t) = (n - 1)%nat /\
    (forall b, (1 <= b < n)%nat -> failed (net b) = true) /\
    success (result t) = negb (failed (net n)) /\
    ((n < retries)%nat -> failed (net n) = false).
Proof.
  intros H1. cbn zeta. unfold callSingleModel.
  destruct (loop_shape model net retries retries 1) as (n & Hn & Hat & Hrest); [lia|lia|].
  exists n. split; [lia|]. split; [|done].
  rewrite Hat. f_equal. lia.
Qed.

Lemma attempts_prefix_shape_witness :
  let t := callSingleModel "gemini-2.5-flash" second_try 3 in
  exists n, (1 <= n <= 3)%nat /\
    attempts t = seq 1 n /\
    length (waits t) = (n - 1)%nat /\
    (forall b, (1 <= b < n)%nat -> failed (second_try b) = true) /\
    success (result t) = negb (failed (second_try n)) /\
    ((n < 3)%nat -> failed (second_try n) = false).
Proof. apply (attempts_prefix_shape "gemini-2.5-flash" second_try 3). lia. Defined.

End RetryExtras.

Module ExtractMoreFacts.
Import Js Json Extract.

Lemma try_parse_range s a c : try_parse s = Some (a, c) -> 0 <= c <= 100.
Proof.
  unfold try_parse, from_parsed. destruct (JSON_parse s) as [v|]; [|discriminate].
  destruct v; try discriminate; intros H; injection H as <- <-; lia.
Qed.

(** Every character of a string satisfies [f]. *)
Fixpoint all_chars (f : ascii -> bool) (s : string) : bool :=
  match s with
  | EmptyString => true
  | String c r => f c && all_chars f r
  end.

(** The characters the strict-letter pattern accepts. *)
Definition strict_char (c : ascii) : bool := is_ws c || Ascii.eqb c "," || is_AF_ci c.

Lemma all_chars_app f a b : all_chars f (a ++ b) = all_chars f a && all_chars f b.
Proof. induction a as [|c a IH]; simpl; [done|]. by rewrite IH, andb_assoc. Qed.

Lemma all_chars_rev f s : all_chars f (rev_string s) = all_chars f s.
Proof.
  induction s as [|c s IH]; simpl; [done|].
  rewrite all_chars_app, IH. simpl. by rewrite andb_true_r, andb_comm.
Qed.

Lemma all_chars_trim_start f s : all_chars f s = true -> all_chars f (trim_start s) = true.
Proof.
  induction s as [|c s IH]; simpl; [done|]. intros H.
  destruct (is_ws c); [|exact H]. apply IH. by apply andb_true_iff in H as [_ H].
Qed.

Lemma all_chars_trim f s : all_chars f s = true -> all_chars f (trim s) = true.
Proof.
  intros H. unfold trim, trim_end. rewrite all_chars_rev.
  apply all_chars_trim_start. rewrite all_chars_rev. by apply all_chars_trim_start.
Qed.

Lemma all_chars_skip_ws f s : all_chars f s = true -> all_chars f (skip_ws s) = true.
Proof.
  induction s as [|c s IH]; simpl; [done|]. intros H.
  destruct (is_json_ws c); [|exact H]. apply IH. by apply andb_true_iff in H as [_ H].
Qed.

(** A string made of characters satisfying [f] does not start with a
    pattern holding a character that does not. *)
Lemma starts_with_bad f p s :
  all_chars f s = true -> all_chars f p = false -> starts_with p s = false.
Proof.
  revert s. induction p as [|a p IH]; intros s Hs Hp; [discriminate|].
  destruct s as [|b s]; [reflexivity|]. simpl in *.
  apply andb_true_iff in Hs as [Hb Hs].
  destruct (f a) eqn:Ea.
  - simpl in Hp. rewrite (IH s Hs Hp). apply andb_false_r.
  - destruct (Ascii.eqb_spec a b) as [->|]; [congruence|reflexivity].
Qed.

Lemma strict_char_facts c :
  strict_char c = true ->
  Ascii.eqb c "{" = false /\ Ascii.eqb c "[" = false /\ Ascii.eqb c dq_char = false /\
  Ascii.eqb c "-" = false /\ is_digit c = false /\
  lower_char c <> "t"%char /\ lower_char c <> "l"%char.
Proof.
  destruct c as [[] [] [] [] [] [] [] []]; vm_compute; intros H;
    try discriminate H; split_and!; first [reflexivity | discriminate].
Qed.

Lemma strict_go_chars st s : strict_go st s = true -> all_chars strict_char s = true.
Proof.
  revert st. induction s as [|c r IH]; intros st H; [done|].
  cbn [all_chars]. unfold strict_char.
  destruct st as [|comma ne]; cbn [strict_go] in H;
  destruct (is_ws c); simpl; try (eapply IH; exact H);
  destruct (Ascii.eqb c ","); simpl; try destruct comma; try discriminate H;
  try (eapply IH; exact H);
  destruct (is_AF_ci c); try discriminate H; try destruct ne; try discriminate H;
  eapply IH; exact H.
Qed.

Lemma json_parse_strict w : all_chars strict_char w = true -> JSON_parse w = None.
Proof.
  intros H. unfold JSON_parse.
  replace (2 * String.length w + 2)%nat with (S (2 * String.length w + 1)) by lia.
  cbn [parse_value].
  pose proof (all_chars_skip_ws _ _ H) as Hs.
  destruct (skip_ws w) as [|c r] eqn:E; [reflexivity|].
  pose proof Hs as Hs'. cbn [all_chars] in Hs'. apply andb_true_iff in Hs' as [Hc _].
  destruct (strict_char_facts c Hc) as (H1 & H2 & H3 & H4 & H5 & _).
  rewrite H1, H2, H3, H4, H5.
  rewrite (starts_with_bad strict_char "true" _ Hs) by reflexivity.
  rewrite (starts_with_bad strict_char "false" _ Hs) by reflexivity.
  rewrite (starts_with_bad strict_char "null" _ Hs) by reflexivity.
  reflexivity.
Qed.

Lemma try_parse_strict w : all_chars strict_char w = true -> try_parse w = None.
Proof. intros H. unfold try_parse. by rewrite json_parse_strict. Qed.

Lemma replace_all_fuel_id f m rep fuel s :
  (forall c r, f c = true -> all_chars f r = true -> m (String c r) = None) ->
  all_chars f s = true -> replace_all_fuel fuel m rep s = s.
Proof.
  intros Hm. revert s. induction fuel as [|fuel IH]; intros s Hs; [reflexivity|].
  destruct s as [|c r]; [reflexivity|]. cbn [replace_all_fuel].
  cbn [all_chars] in Hs. apply andb_true_iff in Hs as [Hc Hr].
  rewrite (Hm c r Hc Hr), (IH r Hr). reflexivity.
Qed.

Lemma replace_fence_nl_strict s :
  all_chars strict_char s = true -> replace_all fence_nl "" s = s.
Proof.
  intros Hs. unfold replace_all. apply (replace_all_fuel_id strict_char); [|exact Hs].
  intros c r Hc Hr.
  assert (Hcr : all_chars strict_char (String c r) = true) by (simpl; by rewrite Hc, Hr).
  unfold fence_nl.
  rewrite !(starts_with_bad strict_char _ _ Hcr) by reflexivity. reflexivity.
Qed.

Lemma index_brace_strict s : all_chars strict_char s = true -> index 0 "{" s = None.
Proof.
  induction s as [|c s IH]; intros H; [reflexivity|].
  cbn [all_chars] in H. apply andb_true_iff in H as [Hc Hs].
  destruct (strict_char_facts c Hc) as (H1 & _).
  cbn [index].
  replace (String.prefix "{" (String c s)) with false
    by (cbn [String.prefix]; destruct (ascii_dec "{" c) as [<-|]; [discriminate H1|reflexivity]).
  rewrite (IH Hs). reflexivity.
Qed.

Lemma lazy_json_strict s : all_chars strict_char s = true -> lazy_json_match s = None.
Proof. intros H. unfold lazy_json_match. by rewrite index_brace_strict. Qed.

Lemma true_false_strict s : all_chars strict_char s = true -> is_true_false s = false.
Proof.
  intros H. unfold is_true_false.
  destruct (String.eqb_spec (toLowerCase s) "true") as [Ht|_].
  { destruct s as [|c1 s]; [discriminate Ht|].
    cbn [toLowerCase map_chars] in Ht. injection Ht as H1 _.
    cbn [all_chars] in H. apply andb_true_iff in H as [Hc _].
    destruct (strict_char_facts c1 Hc) as (_ & _ & _ & _ & _ & Hn & _). congruence. }
  destruct (String.eqb_spec (toLowerCase s) "false") as [Hf|_]; [|reflexivity].
  destruct s as [|c1 [|c2 [|c3 s]]]; try discriminate Hf.
  cbn [toLowerCase map_chars] in Hf. injection Hf as _ _ H3 _.
  cbn [all_chars] in H. apply andb_true_iff in H as [_ H].
  apply andb_true_iff in H as [_ H]. apply andb_true_iff in H as [Hc _].
  destruct (strict_char_facts c3 Hc) as (_ & _ & _ & _ & _ & _ & Hn). congruence.
Qed.

Lemma strict_lead_letter s :
  strict_go SLead s = true -> af_letters (toUpperCase s) <> [].
Proof.
  induction s as [|c r IH]; [discriminate|].
  cbn [strict_go]. unfold toUpperCase in *. cbn [map_chars af_letters].
  unfold is_AF_ci. destruct (is_AF (upper_char c)); [intros _; discriminate|].
  destruct (is_ws c); [exact IH|discriminate].
Qed.

Lemma lower_char_inv c : lower_char c = c \/ c = upper_char (lower_char c).
Proof. destruct c as [[] [] [] [] [] [] [] []]; vm_compute; auto. Qed.

Lemma lower_char_eq c x : lower_char c = x -> c = x \/ c = upper_char x.
Proof.
  intros <-. destruct (lower_char_inv c) as [H|H]; [left; by rewrite H|by right].
Qed.

End ExtractMoreFacts.

Module ExtractExtras.
Import Js Json Extract ExtractMoreFacts.

(** Whatever the reply, [parseAnswerWithConfidence] returns a confidence
    between 0 and 100: the JSON strategies clamp it, and the other
    strategies use the constants 85, 70, 65, 60, 50 and 0. *)
Theorem confidence_in_range raw : 0 <= snd (parseAnswerWithConfidence raw) <= 100.
Proof.
  destruct raw as [raw|]; [|simpl; lia]. destruct raw as [|c r]; [simpl; lia|].
  cbv beta iota delta [parseAnswerWithConfidence].
  generalize (trim (String c r)); intros text; cbv zeta.
  destruct (try_parse (trim (replace_all fence_nl "" text))) as [[a k]|] eqn:E1;
    [exact (try_parse_range _ _ _ E1)|].
  destruct (lazy_json_match text) as [m|].
  - destruct (try_parse (trim (replace_all fence "" m))) as [[a k]|] eqn:E2;
      [exact (try_parse_range _ _ _ E2)|].
    destruct (labeled_letters text);
      repeat match goal with |- context [if ?b then _ else _] => destruct b end;
      simpl; lia.
  - destruct (labeled_letters text);
      repeat match goal with |- context [if ?b then _ else _] => destruct b end;
      simpl; lia.
Qed.

(** A reply that, once trimmed, is a bare list of one to six letters A-F
    (either case, separated by whitespace with at most one comma between
    two letters) is read as the sorted, de-duplicated upper-case letters
    joined by a comma and a space, with confidence 70: no JSON strategy
    and no earlier test catches it. *)
Theorem bare_letters_reply raw :
  strict_letters (trim raw) = true ->
  (List.length (af_letters (toUpperCase (trim raw))) <= 6)%nat ->
  parseAnswerWithConfidence (Some raw) = (letter_set (af_letters (toUpperCase (trim raw))), 70).
Proof.
  intros Hs Hlen. destruct raw as [|c r]; [vm_compute in Hs; discriminate Hs|].
  cbv beta iota delta [parseAnswerWithConfidence].
  revert Hs Hlen. generalize (trim (String c r)) as text. intros text Hs Hlen. cbv zeta.
  pose proof (strict_go_chars _ _ Hs) as Hc.
  rewrite (replace_fence_nl_strict text Hc), (try_parse_strict _ (all_chars_trim _ _ Hc)).
  rewrite (lazy_json_strict text Hc), (true_false_strict text Hc).
  unfold strict_letters in *. rewrite Hs.
  pose proof (strict_lead_letter text Hs) as Hne.
  replace ((0 <? List.length (af_letters (toUpperCase text))) &&
           (List.length (af_letters (toUpperCase text)) <=? 6))%nat with true.
  - reflexivity.
  - symmetry. apply andb_true_iff. split; [apply Nat.ltb_lt|apply Nat.leb_le]; [|lia].
    destruct (af_letters (toUpperCase text)); [congruence|simpl; lia].
Qed.

Lemma bare_letters_reply_witness :
  strict_letters (trim " c, a b ") = true /\
  (List.length (af_letters (toUpperCase (trim " c, a b "))) <= 6)%nat /\
  parseAnswerWithConfidence (Some " c, a b ") =
    (letter_set (af_letters (toUpperCase (trim " c, a b "))), 70).
Proof.
  assert (H1 : strict_letters (trim " c, a b ") = true) by (vm_compute; reflexivity).
  assert (H2 : (List.length (af_letters (toUpperCase (trim " c, a b "))) <= 6)%nat)
    by (vm_compute; lia).
  split; [exact H1|split; [exact H2|]].
  exact (bare_letters_reply " c, a b " H1 H2).
Defined.

(** A reply that, once trimmed, is exactly [true] or [false] in lower case
    parses as a JSON boolean, which has no [answer]: the result is an empty
    answer with confidence 50, so [callSingleModel] counts the attempt as a
    parse failure. *)
Theorem lowercase_true_false_unanswered raw :
  trim raw = "true" \/ trim raw = "false" ->
  parseAnswerWithConfidence (Some raw) = ("", 50) /\
  Retry.attempt_outcome (Retry.AText (Some raw)) = inr "Empty response or parse failure".
Proof.
  intros H.
  assert (P : parseAnswerWithConfidence (Some raw) = ("", 50)).
  { destruct raw as [|c r]; [destruct H as [H|H]; vm_compute in H; discriminate H|].
    cbv beta iota delta [parseAnswerWithConfidence].
    destruct H as [H|H]; rewrite H; vm_compute; reflexivity. }
  split; [exact P|].
  cbv beta iota delta [Retry.attempt_outcome]. rewrite P.
  destruct H as [H|H]; rewrite H; reflexivity.
Qed.

Lemma lowercase_true_false_unanswered_witness :
  parseAnswerWithConfidence (Some " false ") = ("", 50) /\
  Retry.attempt_outcome (Retry.AText (Some " false ")) = inr "Empty response or parse failure".
Proof. apply lowercase_true_false_unanswered. right. vm_compute. reflexivity. Defined.

(** A reply that, once trimmed, is [true] or [false] in any other mix of
    cases (such as [True] or [FALSE]) is not JSON; it is read as the
    lower-case word with confidence 85. *)
Theorem mixed_case_true_false raw :
  toLowerCase (trim raw) = "true" \/ toLowerCase (trim raw) = "false" ->
  trim raw <> "true" -> trim raw <> "false" ->
  parseAnswerWithConfidence (Some raw) = (toLowerCase (trim raw), 85).
Proof.
  intros H N1 N2. destruct raw as [|c r]; [destruct H as [H|H]; vm_compute in H; discriminate H|].
  cbv beta iota delta [parseAnswerWithConfidence].
  revert H N1 N2. generalize (trim (String c r)) as text. intros text H N1 N2. cbv zeta.
  destruct H as [H|H].
  - destruct text as [|a1 [|a2 [|a3 [|a4 [|a5 t]]]]]; try discriminate H.
    cbn [toLowerCase map_chars] in H. injection H as H1 H2 H3 H4.
    apply lower_char_eq in H1, H2, H3, H4.
    destruct H1 as [->| ->], H2 as [->| ->], H3 as [->| ->], H4 as [->| ->];
      first [exfalso; apply N1; reflexivity | vm_compute; reflexivity].
  - destruct text as [|a1 [|a2 [|a3 [|a4 [|a5 [|a6 t]]]]]]; try discriminate H.
    cbn [toLowerCase map_chars] in H. injection H as H1 H2 H3 H4 H5.
    apply lower_char_eq in H1, H2, H3, H4, H5.
    destruct H1 as [->| ->], H2 as [->| ->], H3 as [->| ->], H4 as [->| ->], H5 as [->| ->];
      first [exfalso; apply N2; reflexivity | vm_compute; reflexivity].
Qed.

Lemma mixed_case_true_false_witness :
  parseAnswerWithConfidence (Some "True") = (toLowerCase (trim "True"), 85).
Proof.
  apply mixed_case_true_false.
  - left. vm_compute. reflexivity.
  - vm_compute. discriminate.
  - vm_compute. discriminate.
Defined.

End ExtractExtras.

Module HandlerMoreFacts.
Import Handler HandlerFacts.

(** The cache after a fresh round: the answer stored under the request's
    key on a success, the given cache otherwise. *)
Lemma fresh_round_effect call clk inp cache :
  match fresh_round call clk inp cache with
  | (RFresh a _ _, cache') => cache' = <[cache_key inp := mkCacheEntry a (t_store clk)]> cache
  | (_, cache') => cache' = cache
  end.
Proof.
  unfold fresh_round, processRequestDirectly.
  destruct (Engine.callGeminiEnsemble _ _) as [v|m]; reflexivity.
Qed.

Lemma handler_ask_effect call clk input cache :
  match handler_ask call clk input cache with
  | (RFresh a _ _, cache') =>
      exists inp, input = Some inp /\
        cache' = <[cache_key inp := mkCacheEntry a (t_store clk)]> (vacuum (t_vacuum clk) cache)
  | (RCached _, cache') => cache' = vacuum (t_vacuum clk) cache
  | (RError _ _, cache') => cache' = cache \/ cache' = vacuum (t_vacuum clk) cache
  end.
Proof.
  destruct input as [inp|]; [|simpl; auto].
  assert (Hv : handler_ask call clk (Some inp) cache = (RError 400 "Prompt kosong.", cache) \/
               inp <> PStr "") by (destruct inp as [[|c s]|q]; [left; reflexivity|right; congruence|right; congruence]).
  destruct Hv as [->|Hne]; [auto|].
  rewrite (handler_ask_present call clk inp cache Hne). cbn zeta.
  pose proof (fresh_round_effect call clk inp (vacuum (t_vacuum clk) cache)) as Hf.
  destruct (vacuum (t_vacuum clk) cache !! cache_key inp) as [e|].
  - destruct (t_check clk - ts e <=? TTL_MS); [reflexivity|].
    destruct (fresh_round _ _ _ _) as [[] c']; eauto.
  - destruct (fresh_round _ _ _ _) as [[] c']; eauto.
Qed.

(** An entry stamped within [TTL_MS] of [now] survives [vacuum now]. *)
Lemma vacuum_insert_lookup now (cache : Cache) k e :
  now - ts e <= TTL_MS -> vacuum now (<[k := e]> cache) !! k = Some e.
Proof.
  intros Hle. unfold vacuum. apply map_lookup_filter_Some. split; [|done].
  apply lookup_insert_eq.
Qed.

End HandlerMoreFacts.

Module HandlerExtras.
Import Handler HandlerFacts HandlerMoreFacts.

(** A POST /ask request only ever changes the cache by [vacuum] and, when
    it answers afresh, by storing that answer under the request's key with
    the store time: an empty prompt leaves the cache as it is, a cached
    answer or an error leaves the vacuumed cache. *)
Theorem ask_cache_effect call clk input cache :
  match handler_ask call clk input cache with
  | (RFresh a _ _, cache') =>
      exists inp, input = Some inp /\
        cache' = <[cache_key inp := mkCacheEntry a (t_store clk)]> (vacuum (t_vacuum clk) cache)
  | (RCached _, cache') => cache' = vacuum (t_vacuum clk) cache
  | (RError _ _, cache') => cache' = cache \/ cache' = vacuum (t_vacuum clk) cache
  end.
Proof. exact (handler_ask_effect call clk input cache). Qed.

(** After a request is answered afresh, a later request with the same
    cache key gets that answer from the cache, whatever the models would
    now say, as long as both its [vacuum] and its cache check come within
    [TTL_MS] of the stored timestamp. *)
Theorem repeat_request_cached call call' clk clk' inp inp' cache a d c cache1 :
  handler_ask call clk (Some inp) cache = (RFresh a d c, cache1) ->
  inp' <> PStr "" ->
  cache_key inp' = cache_key inp ->
  t_vacuum clk' - t_store clk <= TTL_MS ->
  t_check clk' - t_store clk <= TTL_MS ->
  handler_ask call' clk' (Some inp') cache1 = (RCached a, vacuum (t_vacuum clk') cache1).
Proof.
  intros Hask Hne Hkey Hv Hc.
  pose proof (handler_ask_effect call clk (Some inp) cache) as H.
  rewrite Hask in H. destruct H as (inp0 & Hinp & ->). injection Hinp as <-.
  rewrite (handler_ask_present call' clk' inp' _ Hne). cbn zeta.
  rewrite Hkey, vacuum_insert_lookup by (simpl; lia). simpl.
  destruct (Z.leb_spec (t_check clk' - t_store clk) TTL_MS); [reflexivity|lia].
Qed.

(** Three workers agreeing on [B]; later the models would say [C]. *)
Definition agree_call (ans : string) : Caller := fun _ _ m => MOk m ans 90 ans.
Definition first_clock : Clock := mkClock 0 0 0 1500 1500.
Definition later_clock : Clock := mkClock 60000 60001 60001 60002 60002.

Lemma repeat_request_cached_witness :
  handler_ask (agree_call "B") first_clock (Some (PStr "Q")) ∅ =
    (RFresh "B" 1500 90, snd (handler_ask (agree_call "B") first_clock (Some (PStr "Q")) ∅)) /\
  handler_ask (agree_call "C") later_clock (Some (PStr "  Q  "))
      (snd (handler_ask (agree_call "B") first_clock (Some (PStr "Q")) ∅)) =
    (RCached "B", vacuum (t_vacuum later_clock)
                    (snd (handler_ask (agree_call "B") first_clock (Some (PStr "Q")) ∅))).
Proof.
  assert (H : handler_ask (agree_call "B") first_clock (Some (PStr "Q")) ∅ =
    (RFresh "B" 1500 90, snd (handler_ask (agree_call "B") first_clock (Some (PStr "Q")) ∅)))
    by (vm_compute; reflexivity).
  split; [exact H|].
  apply (repeat_request_cached (agree_call "B") (agree_call "C") first_clock later_clock
           (PStr "Q") (PStr "  Q  ") ∅ "B" 1500 90 _ H).
  - discriminate.
  - vm_compute. reflexivity.
  - vm_compute. discriminate.
  - vm_compute. discriminate.
Defined.

End HandlerExtras.

Module FailoverFacts.
Import Failover.
Local Open Scope list_scope.

Lemma failover_loop_ret call ms a m c :
  failover_loop call ms = Ret (a, m, c) <->
  exists pre post mm raw, ms = pre ++ m :: post /\
    Forall (fun m' => success (call m') = false) pre /\ call m = MOk mm a c raw.
Proof.
  induction ms as [|m0 ms IH]; simpl.
  - split; [discriminate|]. intros (pre & post & _ & _ & Hms & _). destruct pre; discriminate.
  - destruct (call m0) as [mm a0 c0 raw|mm e] eqn:E.
    + split.
      * intros H. injection H as <- <- <-. exists [], ms, mm, raw. split_and!; auto.
      * intros (pre & post & mm' & raw' & Hms & Hf & Hc). destruct pre as [|p pre]; simpl in Hms.
        -- injection Hms as <- <-. rewrite E in Hc. injection Hc as <- <- <- <-. reflexivity.
        -- injection Hms as <- _. inversion Hf as [|? ? Hp]; subst. rewrite E in Hp. discriminate.
    + rewrite IH. split.
      * intros (pre & post & mm' & raw' & Hms & Hf & Hc).
        exists (m0 :: pre), post, mm', raw'. split_and!.
        -- by rewrite Hms.
        -- constructor; [by rewrite E|done].
        -- done.
      * intros (pre & post & mm' & raw' & Hms & Hf & Hc). destruct pre as [|p pre]; simpl in Hms.
        -- injection Hms as <- <-. rewrite E in Hc. discriminate.
        -- injection Hms as <- Hms. inversion Hf; subst. exists pre, post, mm', raw'. auto.
Qed.

Lemma failover_loop_throw call ms msg :
  failover_loop call ms = Throw msg <->
  msg = "All models failed" /\ Forall (fun m => success (call m) = false) ms.
Proof.
  induction ms as [|m0 ms IH]; simpl.
  - split; [intros H; injection H as <-; auto|]. intros [-> _]. reflexivity.
  - destruct (call m0) as [mm a0 c0 raw|mm e] eqn:E.
    + split; [discriminate|]. intros [_ Hf]. inversion Hf as [|? ? Hp]; subst.
      rewrite E in Hp. discriminate.
    + rewrite IH. split.
      * intros [-> Hf]. split; [done|]. constructor; [by rewrite E|done].
      * intros [-> Hf]. inversion Hf; subst. auto.
Qed.

End FailoverFacts.

Module FailoverExtras.
Import Failover FailoverFacts.
Local Open Scope list_scope.

(** [callGeminiWithFailover] returns the answer, the name and the
    confidence of the first model of [MODELS] whose call succeeds: it
    returns [(a, m, c)] exactly when every model before [m] in [MODELS]
    failed and [m] answered [a] with confidence [c]. *)
Theorem failover_first_success call a m c :
  callGeminiWithFailover call = Ret (a, m, c) <->
  exists pre post mm raw, MODELS = pre ++ m :: post /\
    Forall (fun m' => success (call m') = false) pre /\ call m = MOk mm a c raw.
Proof. apply failover_loop_ret. Qed.

(** [callGeminiWithFailover] throws exactly when all four models of
    [MODELS] fail, and then always with the message [All models failed]. *)
Theorem failover_all_failed call msg :
  callGeminiWithFailover call = Throw msg <->
  msg = "All models failed" /\ Forall (fun m => success (call m) = false) MODELS.
Proof. apply failover_loop_throw. Qed.

End FailoverExtras.

Module VoteFacts.
Import Js Ensemble Vote TallyFacts.
Local Open Scope list_scope.

Lemma insert_by_hd {A} (cmp : A -> A -> Z) (R : A -> A -> Prop) x y l :
  R y x -> HdRel R y l -> HdRel R y (insert_by cmp x l).
Proof.
  intros Hx Hl. destruct l as [|z l]; simpl; [by constructor|].
  destruct (0 <? cmp x z); constructor; [by inversion Hl|done].
Qed.

Lemma insert_by_sorted {A} (cmp : A -> A -> Z) (R : A -> A -> Prop) :
  (forall x y, cmp x y <= 0 -> R x y) -> (forall x y, 0 < cmp x y -> R y x) ->
  forall x l, Sorted R l -> Sorted R (insert_by cmp x l).
Proof.
  intros Hle Hgt x l. induction l as [|y l IH]; intros Hs; simpl.
  - by repeat constructor.
  - destruct (0 <? cmp x y) eqn:E.
    + apply Z.ltb_lt in E. inversion Hs as [|? ? Hs' Hhd]; subst.
      constructor; [by apply IH|]. apply insert_by_hd; [by apply Hgt|done].
    + apply Z.ltb_ge in E. constructor; [done|]. constructor. by apply Hle.
Qed.

Lemma sort_by_sorted {A} (cmp : A -> A -> Z) (R : A -> A -> Prop) :
  (forall x y, cmp x y <= 0 -> R x y) -> (forall x y, 0 < cmp x y -> R y x) ->
  forall l, Sorted R (sort_by cmp l).
Proof.
  intros Hle Hgt l. induction l as [|x l IH]; [constructor|].
  unfold sort_by in *. simpl. by apply insert_by_sorted.
Qed.

Lemma str_cmp_antisym x y : str_cmp y x = - str_cmp x y.
Proof.
  revert y. induction x as [|a x IH]; intros [|b y]; cbn [str_cmp]; try reflexivity.
  destruct (Z.ltb_spec (code a) (code b)), (Z.ltb_spec (code b) (code a)); try lia.
  apply IH.
Qed.

Lemma uniq_acc_props seen xs :
  NoDup (uniq_acc seen xs) /\ (forall y, In y (uniq_acc seen xs) -> In y xs /\ ~ In y seen).
Proof.
  revert seen. induction xs as [|x xs IH]; intros seen; simpl.
  - split; [constructor|done].
  - destruct (existsb (String.eqb x) seen) eqn:E.
    + destruct (IH seen) as [Hnd Hin]. split; [done|].
      intros y Hy. destruct (Hin y Hy). split; [by right|done].
    + destruct (IH (x :: seen)) as [Hnd Hin]. split.
      * constructor; [|done]. intros Hx. apply list_elem_of_In in Hx.
        destruct (Hin x Hx) as [_ Hn]. apply Hn. by left.
      * intros y [<-|Hy].
        -- split; [by left|]. intros Hy. apply Bool.not_true_iff_false in E. apply E.
           apply existsb_exists. exists x. split; [done|]. apply String.eqb_refl.
        -- destruct (Hin y Hy) as [Hy1 Hy2]. split; [by right|].
           intros Hs. apply Hy2. by right.
Qed.

Lemma single_upper_chars l :
  Forall (fun s => single_upper s = true) l ->
  exists cs, l = map (fun c => String c EmptyString) cs /\ Forall (fun c => 65 <= code c <= 90) cs.
Proof.
  induction l as [|s l IH]; intros H; [by exists []|].
  inversion H as [|? ? Hs Hl]; subst. destruct (IH Hl) as (cs & -> & Hcs).
  destruct s as [|c [|d s]]; try discriminate Hs.
  exists (c :: cs). split; [done|]. constructor; [|done].
  unfold single_upper in Hs. apply andb_true_iff in Hs as [H1 H2].
  apply Z.leb_le in H1, H2. lia.
Qed.

Lemma sorted_singles cs :
  Sorted (fun x y => str_cmp x y <= 0) (map (fun c => String c EmptyString) cs) ->
  Sorted (fun x y => code x <= code y) cs.
Proof.
  induction cs as [|c cs IH]; intros H; [constructor|].
  inversion H as [|? ? Hs Hhd]; subst. constructor; [by apply IH|].
  destruct cs as [|d cs]; constructor. inversion Hhd as [|? ? Hr]; subst.
  cbn [str_cmp] in Hr.
  destruct (Z.ltb_spec (code c) (code d)), (Z.ltb_spec (code d) (code c)); lia.
Qed.

Lemma nodup_map_inv {A B} (f : A -> B) l : NoDup (map f l) -> NoDup l.
Proof.
  induction l as [|x l IH]; intros H; [constructor|].
  inversion H as [|? ? Hx Hl]; subst. constructor; [|by apply IH].
  intros Hin. apply Hx. apply list_elem_of_In. apply in_map.
  by apply list_elem_of_In in Hin.
Qed.

Lemma code_inj a b : code a = code b -> a = b.
Proof.
  unfold code. intros H. apply Nat2Z.inj in H.
  rewrite <- (ascii_nat_embedding a), <- (ascii_nat_embedding b). by rewrite H.
Qed.

Lemma strict_of_sorted cs :
  Sorted (fun x y => code x <= code y) cs -> NoDup cs ->
  StronglySorted (fun x y => code x < code y) cs.
Proof.
  intros Hs Hnd.
  assert (Ht : Transitive (fun x y : ascii => code x <= code y)) by (intros x y z; lia).
  apply (Sorted_StronglySorted Ht) in Hs.
  induction Hs as [|c cs Hs IH Hall]; [constructor|].
  inversion Hnd as [|? ? Hni Hnd']; subst. constructor; [by apply IH|].
  apply Forall_forall. intros d Hd. rewrite Forall_forall in Hall. specialize (Hall d Hd).
  destruct (Z.eq_dec (code c) (code d)) as [E|E]; [|simpl in *; lia].
  apply code_inj in E. subst. by exfalso.
Qed.

(** The voting facts for [_confidenceWeightedVote]. *)
Lemma ok_view_nil results :
  flat_map ok_view results = [] <-> Forall (fun r => success r = false) results.
Proof.
  induction results as [|r rs IH]; simpl; [split; auto|].
  destruct r as [m a c raw|m e]; simpl.
  - split; [discriminate|]. intros H. inversion H as [|? ? Hr]. discriminate Hr.
  - rewrite IH. split; [intros; by constructor|]. intros H. by inversion H.
Qed.

Lemma ok_view_filter results :
  flat_map ok_view (List.filter success results) = flat_map ok_view results.
Proof. induction results as [|r rs IH]; simpl; [done|]. destruct r; simpl; by rewrite IH. Qed.

Lemma no_consensus_ret rated : rated <> [] -> exists v, no_consensus rated = Ret v.
Proof.
  intros Hne. unfold no_consensus.
  destruct (find _ rated); [eauto|]. destruct (find _ rated); [eauto|].
  destruct rated; [congruence|eauto].
Qed.

Lemma answer_counts_inv rated : tally_inv (answer_counts rated) (map vote_of rated).
Proof.
  unfold answer_counts. rewrite <- (app_nil_l (map vote_of rated)).
  apply fold_votes_inv. split; [constructor|split]; [by intros ? ? []|].
  intros k H. by destruct H.
Qed.

Lemma sorted_answers_in rated h :
  In h (sorted_answers rated) ->
  sv_count h = Z.of_nat (length (sup (sv_answer h) (map vote_of rated))).
Proof.
  intros Hh. unfold sorted_answers in Hh. eapply Permutation_in in Hh; [|apply sort_by_perm].
  apply in_map_iff in Hh as [[k e] [<- Hke]].
  eapply Permutation_in in Hke; [|apply object_entries_perm].
  destruct (answer_counts_inv rated) as (_ & Hval & _).
  destruct (Hval k e Hke) as [Hc _]. exact Hc.
Qed.

Lemma sorted_answers_has rated k :
  sup k (map vote_of rated) <> [] -> exists h, In h (sorted_answers rated) /\ sv_answer h = k.
Proof.
  intros Hne. destruct (answer_counts_inv rated) as (_ & _ & Hhas).
  destruct (Hhas k Hne) as [e He].
  exists (mkSorted k (count e) (js_round_div (totalConfidence e) (count e)) (models e)).
  split; [|done]. unfold sorted_answers.
  eapply Permutation_in; [symmetry; apply sort_by_perm|].
  apply in_map_iff. exists (k, e). split; [done|].
  eapply Permutation_in; [symmetry; apply object_entries_perm|exact He].
Qed.

Lemma sorted_answers_head rated y :
  In y (sorted_answers rated) ->
  exists h r, sorted_answers rated = h :: r /\ sv_count y <= sv_count h.
Proof.
  unfold sorted_answers. intros Hy.
  eapply Permutation_in in Hy; [|apply sort_by_perm]. by apply sort_head_max.
Qed.

Lemma vote_keys oks :
  map (fun b => fst (fst b)) (map vote_of (map rate oks)) =
  map (fun '(m, a, c) => trim (toUpperCase a)) oks.
Proof.
  induction oks as [|[[m a] c] oks IH]; simpl; [done|]. rewrite IH. f_equal.
  unfold rate. by case_match.
Qed.

Lemma sup_len_filter k B :
  length (sup k B) = length (List.filter (String.eqb k) (map (fun b => fst (fst b)) B)).
Proof.
  induction B as [|b B IH]; [done|]. unfold sup in *. simpl.
  rewrite (String.eqb_sym (fst (fst b)) k).
  destruct (String.eqb k (fst (fst b))); simpl; by rewrite IH.
Qed.

Lemma filter_eqb_absent (ks : list string) k :
  ~ In k ks -> List.filter (String.eqb k) ks = [].
Proof.
  induction ks as [|x ks IH]; intros Hn; [done|]. simpl.
  destruct (String.eqb_spec k x) as [->|_]; [exfalso; apply Hn; by left|].
  apply IH. intros H. apply Hn. by right.
Qed.

Lemma nodup_filter_le1 (ks : list string) k :
  NoDup ks -> (length (List.filter (String.eqb k) ks) <= 1)%nat.
Proof.
  induction 1 as [|x ks Hx Hnd IH]; simpl; [lia|].
  destruct (String.eqb_spec k x) as [->|_]; [|exact IH].
  rewrite filter_eqb_absent; [simpl; lia|]. intros H. apply Hx. by apply list_elem_of_In.
Qed.

End VoteFacts.

Module VoteMoreFacts.
Import Js Ensemble Vote TallyFacts VoteFacts.
Local Open Scope list_scope.

(** The keys the successful answers vote for. *)
Definition answer_keys (oks : list (string * string * Z)) : list string :=
  map (fun '(m, a, c) => trim (toUpperCase a)) oks.

(** Step 3 of [_confidenceWeightedVote], on the rated results. *)
Definition decide_rated (rated : list Rated) : Outcome (string * Z * string) :=
  match sorted_answers rated with
  | top :: _ =>
      if 2 <=? sv_count top then Ret (sv_answer top, sv_avgConfidence top, "consensus")
      else no_consensus rated
  | [] => no_consensus rated
  end.

Lemma cwv_many results oks :
  flat_map ok_view results = oks -> (2 <= length oks)%nat ->
  confidenceWeightedVote results =
  match decide_rated (map rate oks) with
  | Throw e => Throw e
  | Ret (fa, fc, meth) =>
      Ret (mkWeighted fa fc
             (object_entries (map (fun v => (sv_answer v, (sv_count v, sv_avgConfidence v)))
                                  (sorted_answers (map rate oks))))
             (map (fun r => ((r_model r ++ (if r_unreliable r then " ⚠️" else ""))%string, r_answer r, r_confidence r))
                  (map rate oks))
             meth)
  end.
Proof.
  intros E Hl. unfold confidenceWeightedVote. rewrite E.
  destruct oks as [|[[m a] c] [|[[m2 a2] c2] rest]]; simpl in Hl; try lia; reflexivity.
Qed.

Lemma decide_rated_ret rated : rated <> [] -> exists fa fc meth, decide_rated rated = Ret (fa, fc, meth).
Proof.
  intros Hne. unfold decide_rated.
  destruct (no_consensus_ret rated Hne) as [[[fa fc] meth] Hn].
  destruct (sorted_answers rated) as [|top r]; [rewrite Hn; eauto|].
  destruct (2 <=? sv_count top); [eauto|rewrite Hn; eauto].
Qed.

Lemma sorted_count_keys oks h :
  In h (sorted_answers (map rate oks)) ->
  sv_count h = Z.of_nat (length (List.filter (String.eqb (sv_answer h)) (answer_keys oks))).
Proof.
  intros Hh. rewrite (sorted_answers_in _ _ Hh), sup_len_filter, vote_keys. reflexivity.
Qed.

Lemma filter_eqb_in (ks : list string) k :
  List.filter (String.eqb k) ks <> [] -> In k ks.
Proof.
  intros Hne. destruct (List.filter (String.eqb k) ks) as [|x l] eqn:E; [done|].
  assert (Hx : In x (List.filter (String.eqb k) ks)) by (rewrite E; by left).
  apply filter_In in Hx as [Hx Hk]. apply String.eqb_eq in Hk. by subst.
Qed.

Lemma sorted_answers_key oks k :
  In k (answer_keys oks) -> exists h, In h (sorted_answers (map rate oks)) /\ sv_answer h = k.
Proof.
  intros Hk. apply sorted_answers_has. intros He.
  assert (Hl : length (sup k (map vote_of (map rate oks))) = 0%nat) by (by rewrite He).
  rewrite sup_len_filter, vote_keys in Hl. apply length_zero_iff_nil in Hl.
  fold (answer_keys oks) in Hl.
  assert (Hin : In k (List.filter (String.eqb k) (answer_keys oks))).
  { apply filter_In. split; [done|apply String.eqb_refl]. }
  by rewrite Hl in Hin.
Qed.

Lemma filter_length_le (ks : list string) k : (length (List.filter (String.eqb k) ks) <= length ks)%nat.
Proof. induction ks as [|x ks IH]; simpl; [lia|]. destruct (String.eqb k x); simpl; lia. Qed.

Lemma find_rate_model oks m a c :
  In (m, a, c) oks -> NoDup (map (fun '(m, a, c) => m) oks) ->
  (length (normalizeAnswer (Some a)) < 4)%nat ->
  find (fun r => String.eqb (r_model r) m && negb (r_unreliable r)) (map rate oks) =
  Some (mkRated m a c false).
Proof.
  intros Hin Hnd Hlen. induction oks as [|[[m' a'] c'] oks IH]; [done|].
  inversion Hnd as [|? ? Hx Hnd']; subst. simpl in Hin.
  destruct Hin as [E|Hin].
  - injection E as -> -> ->.
    assert (Hr : rate (m, a, c) = mkRated m a c false).
    { unfold rate. by rewrite (proj2 (Nat.leb_gt _ _) Hlen). }
    cbn [map find]. rewrite Hr. simpl. by rewrite String.eqb_refl.
  - cbn [map find]. destruct (String.eqb_spec m' m) as [->|Hne].
    + exfalso. apply Hx. apply list_elem_of_In. apply in_map_iff.
      by exists (m, a, c).
    + replace (String.eqb (r_model (rate (m', a', c'))) m) with false.
      * cbn [andb]. by apply IH.
      * unfold rate. symmetry. case_match; simpl; by apply String.eqb_neq.
Qed.

End VoteMoreFacts.

Module VoteExtras.
Import Js Ensemble Vote TallyFacts VoteFacts VoteMoreFacts.
Local Open Scope list_scope.

(** [_confidenceWeightedVote] throws exactly when no result succeeded, with
    the message "All models failed in ensemble"; otherwise it returns a vote. *)
Theorem vote_throws_iff results msg :
  confidenceWeightedVote results = Throw msg <->
  msg = "All models failed in ensemble" /\ Forall (fun r => success r = false) results.
Proof.
  rewrite <- ok_view_nil. destruct (flat_map ok_view results) as [|o oks] eqn:E.
  - unfold confidenceWeightedVote. rewrite E. split; [intros [= <-]; done|intros [-> _]; done].
  - split; [|intros [_ H]; discriminate H]. intros Ht.
    destruct oks as [|o2 oks].
    + unfold confidenceWeightedVote in Ht. rewrite E in Ht. destruct o as [[m a] c]. discriminate Ht.
    + rewrite (cwv_many results _ E) in Ht by (simpl; lia).
      destruct (decide_rated_ret (map rate (o :: o2 :: oks))) as (fa & fc & meth & Hd); [done|].
      rewrite Hd in Ht. discriminate Ht.
Qed.

(** When exactly one model succeeded, its answer and confidence are returned
    as they are, with method "single": the cap of 40 on answers with four or
    more labels is not applied. *)
Theorem single_success_uncapped results m a c raw :
  List.filter success results = [MOk m a c raw] ->
  confidenceWeightedVote results = Ret (mkWeighted a c [(a, (1, c))] [(m, a, c)] "single").
Proof.
  intros H. unfold confidenceWeightedVote. rewrite <- ok_view_filter, H. reflexivity.
Qed.

Lemma single_success_uncapped_witness :
  List.filter success [MErr "gemini-3-flash-preview" "HTTP 500"; MOk "gemini-2.0-flash-001" "A, B, C, D" 95 "A, B, C, D";
                       MErr "gemini-2.5-flash-lite" "timeout"] = [MOk "gemini-2.0-flash-001" "A, B, C, D" 95 "A, B, C, D"] /\
  confidenceWeightedVote [MErr "gemini-3-flash-preview" "HTTP 500"; MOk "gemini-2.0-flash-001" "A, B, C, D" 95 "A, B, C, D";
                          MErr "gemini-2.5-flash-lite" "timeout"] =
  Ret (mkWeighted "A, B, C, D" 95 [("A, B, C, D", (1, 95))] [("gemini-2.0-flash-001", "A, B, C, D", 95)] "single").
Proof.
  split; [reflexivity|]. apply single_success_uncapped with (raw := "A, B, C, D"). reflexivity.
Defined.

(** When at least two models succeeded, no two of them gave the same
    (trimmed, upper-cased) answer and each model answered once, a reliable
    answer of the primary model (fewer than four labels) is returned with its
    confidence and method "primary". *)
Theorem distinct_answers_primary results a c raw :
  (2 <= length (flat_map ok_view results))%nat ->
  NoDup (answer_keys (flat_map ok_view results)) ->
  NoDup (map (fun '(m, a, c) => m) (flat_map ok_view results)) ->
  In (MOk "gemini-3-flash-preview" a c raw) results ->
  (length (normalizeAnswer (Some a)) < 4)%nat ->
  exists votes mas, confidenceWeightedVote results = Ret (mkWeighted a c votes mas "primary").
Proof.
  intros Hl Hk Hm Hin Ha.
  rewrite (cwv_many results _ eq_refl Hl).
  assert (Hd : decide_rated (map rate (flat_map ok_view results)) = Ret (a, c, "primary")).
  { assert (Hf : find (fun r => String.eqb (r_model r) (nth 0 MODELS "") && negb (r_unreliable r))
                      (map rate (flat_map ok_view results)) = Some (mkRated "gemini-3-flash-preview" a c false)).
    { apply find_rate_model; [|done|done].
      apply in_flat_map. exists (MOk "gemini-3-flash-preview" a c raw). split; [done|by left]. }
    unfold decide_rated.
    assert (Hnc : no_consensus (map rate (flat_map ok_view results)) = Ret (a, c, "primary")).
    { unfold no_consensus. by rewrite Hf. }
    destruct (sorted_answers (map rate (flat_map ok_view results))) as [|top r] eqn:Hs; [done|].
    assert (Htop : In top (sorted_answers (map rate (flat_map ok_view results)))) by (rewrite Hs; by left).
    apply sorted_count_keys in Htop.
    pose proof (nodup_filter_le1 _ (sv_answer top) Hk) as H1.
    replace (2 <=? sv_count top) with false by (symmetry; apply Z.leb_gt; lia).
    exact Hnc. }
  rewrite Hd. eauto.
Qed.

Lemma distinct_answers_primary_witness :
  let rs := [MOk "gemini-3-flash-preview" "B" 60 "B"; MOk "gemini-2.0-flash-001" "C" 95 "C";
             MErr "gemini-2.5-flash-lite" "timeout"] in
  exists votes mas, confidenceWeightedVote rs = Ret (mkWeighted "B" 60 votes mas "primary").
Proof.
  apply (distinct_answers_primary _ "B" 60 "B").
  - vm_compute. lia.
  - vm_compute. repeat constructor; vm_compute; set_solver.
  - vm_compute. repeat constructor; vm_compute; set_solver.
  - by left.
  - vm_compute. lia.
Defined.

(** When some answer (trimmed, upper-cased) is given by at least two
    successful models, the vote is a consensus, and the final answer is one
    given by the largest number of models. *)
Theorem shared_answer_consensus results k :
  (2 <= length (List.filter (String.eqb k) (answer_keys (flat_map ok_view results))))%nat ->
  exists v, confidenceWeightedVote results = Ret v /\ w_method v = "consensus" /\
    forall k', (length (List.filter (String.eqb k') (answer_keys (flat_map ok_view results))) <=
                length (List.filter (String.eqb (w_finalAnswer v)) (answer_keys (flat_map ok_view results))))%nat.
Proof.
  set (oks := flat_map ok_view results). intros Hk.
  assert (Hl : (2 <= length oks)%nat).
  { pose proof (filter_length_le (answer_keys oks) k) as H.
    assert (length (answer_keys oks) = length oks) by apply length_map. lia. }
  rewrite (cwv_many results oks eq_refl Hl).
  assert (Hin : In k (answer_keys oks)).
  { apply filter_eqb_in. intros E. rewrite E in Hk. simpl in Hk. lia. }
  destruct (sorted_answers_key oks k Hin) as (h & Hh & Hhk).
  destruct (sorted_answers_head _ h Hh) as (top & r & Hs & Hle).
  pose proof (sorted_count_keys oks h Hh) as Hch. rewrite Hhk in Hch.
  assert (Htop : In top (sorted_answers (map rate oks))) by (rewrite Hs; by left).
  pose proof (sorted_count_keys oks top Htop) as Hct.
  assert (Hd : decide_rated (map rate oks) = Ret (sv_answer top, sv_avgConfidence top, "consensus")).
  { unfold decide_rated. rewrite Hs.
    replace (2 <=? sv_count top) with true by (symmetry; apply Z.leb_le; lia). reflexivity. }
  rewrite Hd. eexists. split; [reflexivity|]. split; [reflexivity|]. simpl. intros k'.
  destruct (List.filter (String.eqb k') (answer_keys oks)) as [|x l] eqn:E'; [simpl; lia|].
  assert (Hin' : In k' (answer_keys oks)) by (apply filter_eqb_in; by rewrite E').
  destruct (sorted_answers_key oks k' Hin') as (h' & Hh' & Hhk').
  destruct (sorted_answers_head _ h' Hh') as (top' & r' & Hs' & Hle').
  rewrite Hs in Hs'. injection Hs' as <- <-.
  pose proof (sorted_count_keys oks h' Hh') as Hch'. rewrite Hhk' in Hch'.
  rewrite <- E'. lia.
Qed.

Lemma shared_answer_consensus_witness :
  let rs := [MOk "gemini-3-flash-preview" "a" 60 "a"; MOk "gemini-2.0-flash-001" "C" 95 "C";
             MOk "gemini-2.5-flash-lite" " A " 80 "A"] in
  exists v, confidenceWeightedVote rs = Ret v /\ w_method v = "consensus" /\
    forall k', (length (List.filter (String.eqb k') (answer_keys (flat_map ok_view rs))) <=
                length (List.filter (String.eqb (w_finalAnswer v)) (answer_keys (flat_map ok_view rs))))%nat.
Proof.
  apply (shared_answer_consensus _ "A"). vm_compute. lia.
Defined.

(** [normalizeAnswer] returns ["true"], ["false"], or distinct single
    upper-case letters A-Z in increasing order (possibly none). *)
Theorem normalizeAnswer_shape answer :
  normalizeAnswer answer = ["true"] \/ normalizeAnswer answer = ["false"] \/
  exists cs, normalizeAnswer answer = map (fun c => String c EmptyString) cs /\
    Forall (fun c => 65 <= code c <= 90) cs /\ StronglySorted (fun x y => code x < code y) cs.
Proof.
  destruct answer as [[|ch a]|]; [right; right; exists []; repeat constructor| |right; right; exists []; repeat constructor].
  unfold normalizeAnswer.
  set (u := trim (toUpperCase (String ch a))).
  destruct (String.eqb_spec u "TRUE") as [->|Ht]; [by left|].
  destruct (String.eqb_spec u "FALSE") as [->|Hf]; [by right; left|]. simpl.
  right; right.
  set (labels := List.filter single_upper (map trim (split_seps u))).
  set (l := sort_by str_cmp (uniq labels)).
  assert (Hall : Forall (fun s => single_upper s = true) l).
  { apply Forall_forall. intros s Hs. apply list_elem_of_In in Hs.
    eapply Permutation_in in Hs; [|apply sort_by_perm].
    destruct (uniq_acc_props [] labels) as [_ Hu]. destruct (Hu s Hs) as [Hs' _].
    apply filter_In in Hs' as [_ Hs']. exact Hs'. }
  destruct (single_upper_chars l Hall) as (cs & Hl & Hcs).
  exists cs. split; [exact Hl|]. split; [exact Hcs|].
  apply strict_of_sorted.
  - apply sorted_singles. rewrite <- Hl.
    apply (sort_by_sorted str_cmp (fun x y => str_cmp x y <= 0)); [done|].
    intros x y Hxy. rewrite str_cmp_antisym. lia.
  - apply (nodup_map_inv (fun c => String c EmptyString)). rewrite <- Hl.
    unfold l. rewrite sort_by_perm. apply uniq_acc_props.
Qed.

End VoteExtras.

Module LegacyRestFacts.
Import Js LegacyRest.

Lemma str_app_nil_l (b : string) : "" ++ b = b.
Proof. reflexivity. Qed.

Lemma str_app_cons c (a b : string) : String c a ++ b = String c (a ++ b).
Proof. reflexivity. Qed.

(** [replace(/\s+/g, " ")] read character by character: [pending] is set
    while a run of whitespace has not been replaced yet. *)
Fixpoint squash (pending : bool) (s : string) : string :=
  match s with
  | EmptyString => if pending then " " else ""
  | String c r =>
      if is_ws c then squash true r
      else (if pending then " " else "") ++ String c (squash false r)
  end.

Definition run_pending (run : string) : bool :=
  match run with EmptyString => false | String _ _ => true end.

Lemma map_runs_acc_squash run s :
  Handler.map_runs_acc is_ws Handler.collapse run s = squash (run_pending run) s.
Proof.
  revert run. induction s as [|c s IH]; intros run; cbn [Handler.map_runs_acc squash].
  - by destruct run.
  - destruct (is_ws c); rewrite IH; by destruct run.
Qed.

Lemma normalizePrompt_squash s :
  normalizePrompt (Some s) = match s with EmptyString => "" | _ => trim (squash false s) end.
Proof.
  destruct s as [|c s]; [done|]. unfold normalizePrompt, Handler.map_runs.
  by rewrite map_runs_acc_squash.
Qed.

Definition starts_ws (s : string) : bool :=
  match s with String c _ => is_ws c | EmptyString => false end.

(** Every whitespace character is a space, and no whitespace follows it. *)
Fixpoint spaced (s : string) : bool :=
  match s with
  | EmptyString => true
  | String c r => (negb (is_ws c) || (Ascii.eqb c " " && negb (starts_ws r))) && spaced r
  end.

Lemma spaced_squash s : spaced (squash false s) = true /\ spaced (squash true s) = true.
Proof.
  induction s as [|c s [IH1 IH2]]; cbn [squash]; [split; reflexivity|].
  destruct (is_ws c) eqn:E; [split; exact IH2|].
  rewrite ?str_app_cons, ?str_app_nil_l. cbn [spaced starts_ws]. rewrite E, IH1. split; reflexivity.
Qed.

Lemma spaced_app_l a b : spaced (a ++ b) = true -> spaced a = true.
Proof.
  induction a as [|c a IH]; [done|]. rewrite str_app_cons. cbn [spaced].
  intros [H1 H2]%andb_true_iff. apply andb_true_iff. split; [|by apply IH].
  destruct a as [|c' a]; [|exact H1]. rewrite str_app_nil_l in H1. cbn [starts_ws] in *.
  destruct (is_ws c), (Ascii.eqb c " "); cbn [negb orb andb] in *; done.
Qed.

Lemma spaced_trim_start s : spaced s = true -> spaced (trim_start s) = true.
Proof.
  induction s as [|c s IH]; [done|]. intros Hs. cbn [trim_start].
  destruct (is_ws c); [|exact Hs]. apply IH. cbn [spaced] in Hs.
  by apply andb_true_iff in Hs as [_ Hs].
Qed.

Lemma spaced_get t n c :
  spaced t = true -> String.get n t = Some c -> is_ws c = true ->
  c = " "%char /\ forall d, String.get (S n) t = Some d -> is_ws d = false.
Proof.
  revert n. induction t as [|c0 r IH]; intros n Hs Hg Hw; [discriminate Hg|].
  cbn [spaced] in Hs. apply andb_true_iff in Hs as [H1 H2].
  destruct n as [|n]; cbn [String.get] in Hg.
  - injection Hg as <-. rewrite Hw in H1. cbn [negb orb] in H1.
    apply andb_true_iff in H1 as [Hc Hr]. apply Ascii.eqb_eq in Hc. split; [exact Hc|].
    intros d Hd. cbn [String.get] in Hd. destruct r as [|d' r]; [discriminate Hd|].
    cbn [String.get] in Hd. injection Hd as <-. cbn [starts_ws] in Hr. by destruct (is_ws d').
  - apply (IH n H2 Hg Hw).
Qed.

Lemma str_app_assoc (a b c : string) : (a ++ b) ++ c = a ++ (b ++ c).
Proof. induction a as [|x a IH]; [done|]. by rewrite !str_app_cons, IH. Qed.

Lemma str_app_nil (a : string) : a ++ "" = a.
Proof. induction a as [|x a IH]; [done|]. by rewrite str_app_cons, IH. Qed.

Lemma rev_app a b : rev_string (a ++ b) = rev_string b ++ rev_string a.
Proof.
  induction a as [|x a IH].
  - rewrite str_app_nil_l. cbn [rev_string]. by rewrite str_app_nil.
  - rewrite str_app_cons. cbn [rev_string]. by rewrite IH, str_app_assoc.
Qed.

Lemma rev_rev s : rev_string (rev_string s) = s.
Proof. induction s as [|x s IH]; cbn [rev_string]; [done|]. by rewrite rev_app, IH. Qed.

Lemma trim_start_split s : exists w, s = w ++ trim_start s.
Proof.
  induction s as [|c s [w IH]]; [by exists ""|]. cbn [trim_start].
  destruct (is_ws c); [exists (String c w); rewrite str_app_cons; by rewrite <- IH|by exists ""].
Qed.

Lemma trim_end_prefix s : exists w, s = trim_end s ++ w.
Proof.
  destruct (trim_start_split (rev_string s)) as [w Hw]. exists (rev_string w).
  unfold trim_end. rewrite <- rev_app, <- Hw. by rewrite rev_rev.
Qed.

Lemma trim_start_app a b :
  trim_start (a ++ b) = match trim_start a with EmptyString => trim_start b | t => t ++ b end.
Proof.
  induction a as [|c a IH]; [done|]. rewrite str_app_cons. cbn [trim_start].
  destruct (is_ws c); [exact IH|reflexivity].
Qed.

Lemma trim_start_idem s : trim_start (trim_start s) = trim_start s.
Proof.
  induction s as [|c s IH]; cbn [trim_start]; [done|].
  destruct (is_ws c) eqn:E; [exact IH|]. cbn [trim_start]. by rewrite E.
Qed.

Lemma starts_ws_trim_start s : starts_ws (trim_start s) = false.
Proof.
  induction s as [|c s IH]; cbn [trim_start]; [done|].
  destruct (is_ws c) eqn:E; [exact IH|]. exact E.
Qed.

Lemma trim_start_trim_end x : starts_ws x = false -> trim_start (trim_end x) = trim_end x.
Proof.
  destruct x as [|c r]; [done|]. cbn [starts_ws]. intros Hc.
  unfold trim_end. cbn [rev_string]. rewrite trim_start_app.
  destruct (trim_start (rev_string r)) as [|d t].
  - cbn [trim_start]. rewrite Hc. cbn [rev_string]. rewrite str_app_nil_l. cbn [trim_start]. by rewrite Hc.
  - rewrite rev_app. cbn [rev_string]. rewrite str_app_nil_l, str_app_cons. cbn [trim_start]. by rewrite Hc.
Qed.

Lemma trim_end_idem y : trim_end (trim_end y) = trim_end y.
Proof. unfold trim_end. by rewrite rev_rev, trim_start_idem. Qed.

Lemma trim_idem s : trim (trim s) = trim s.
Proof.
  unfold trim. rewrite trim_start_trim_end by apply starts_ws_trim_start.
  apply trim_end_idem.
Qed.

Lemma spaced_trim s : spaced s = true -> spaced (trim s) = true.
Proof.
  intros H. unfold trim. apply spaced_trim_start in H.
  destruct (trim_end_prefix (trim_start s)) as [w Hw].
  rewrite Hw in H. by apply spaced_app_l in H.
Qed.

Lemma squash_spaced t :
  spaced t = true -> squash false t = t /\ (starts_ws t = false -> squash true t = " " ++ t).
Proof.
  induction t as [|c r IH]; [split; reflexivity|].
  cbn [spaced]. intros [H1 H2]%andb_true_iff. destruct (IH H2) as [IH1 IH2].
  cbn [squash starts_ws]. split.
  - destruct (is_ws c) eqn:E.
    + cbn [negb orb] in H1. apply andb_true_iff in H1 as [Hc Hr].
      apply Ascii.eqb_eq in Hc. subst c. rewrite IH2 by (by destruct (starts_ws r)). reflexivity.
    + rewrite str_app_nil_l. by rewrite IH1.
  - intros ->. by rewrite IH1.
Qed.

(** The cache key of a request. *)
Definition request_key (inp : PromptInput) : string :=
  match inp with
  | PStr s => normalizePrompt (Some s)
  | PObj q => normalizePrompt (Some (question q))
  end.

(** The handler's branch after a cache miss. *)
Definition fresh_answer (call : string -> string) (clk : Clock) (key : string) (cache1 : Handler.Cache)
    : Reply * Handler.Cache * list string :=
  let r1 := call (nth 0 MODELS "") in
  let p1 := LegacyEnsemble.parseAnswerWithConfidence (Some r1) in
  let '(finalResult, calls) :=
    if (85 <=? snd p1) || negb ENSEMBLE_MODE then (p1, [nth 0 MODELS ""])
    else
      let p2 := LegacyEnsemble.parseAnswerWithConfidence (Some (call (nth 2 MODELS ""))) in
      (if snd p1 <? snd p2 then p2 else p1, [nth 0 MODELS ""; nth 2 MODELS ""]) in
  if String.eqb (fst finalResult) "" then (RError 500 "No answer found" (Some r1), cache1, calls)
  else
    (RFresh (fst finalResult) (snd finalResult) (c_done clk - c_start clk),
     <[key := Handler.mkCacheEntry (fst finalResult) (c_store clk)]> cache1, calls).

Lemma handler_post_present call clk inp cache :
  inp <> PStr "" ->
  handler_post call clk (Some inp) cache =
    (let cache1 := Handler.vacuum (c_vacuum clk) cache in
     match cache1 !! request_key inp with
     | Some e => (RCached (Handler.answer e) (Handler.ts e), cache1, [])
     | None => fresh_answer call clk (request_key inp) cache1
     end).
Proof. intros Hne. destruct inp as [[|c s]|q]; [congruence|reflexivity|reflexivity]. Qed.

Lemma fresh_answer_shape call clk key cache1 :
  let p1 := LegacyEnsemble.parseAnswerWithConfidence (Some (call "gemini-2.0-flash")) in
  let p2 := LegacyEnsemble.parseAnswerWithConfidence (Some (call "gemini-1.5-pro")) in
  let fin := if 85 <=? snd p1 then p1 else if snd p1 <? snd p2 then p2 else p1 in
  fresh_answer call clk key cache1 =
    (if String.eqb (fst fin) ""
     then (RError 500 "No answer found" (Some (call "gemini-2.0-flash")), cache1,
           if 85 <=? snd p1 then ["gemini-2.0-flash"] else ["gemini-2.0-flash"; "gemini-1.5-pro"])
     else (RFresh (fst fin) (snd fin) (c_done clk - c_start clk),
           <[key := Handler.mkCacheEntry (fst fin) (c_store clk)]> cache1,
           if 85 <=? snd p1 then ["gemini-2.0-flash"] else ["gemini-2.0-flash"; "gemini-1.5-pro"])).
Proof.
  unfold fresh_answer. change (nth 0 MODELS "") with "gemini-2.0-flash".
  change (nth 2 MODELS "") with "gemini-1.5-pro". cbv zeta.
  destruct (85 <=? snd _); reflexivity.
Qed.

Lemma handler_post_fresh call clk inp cache a c d cache1 calls :
  handler_post call clk (Some inp) cache = (RFresh a c d, cache1, calls) ->
  inp <> PStr "" /\
  cache1 = <[request_key inp := Handler.mkCacheEntry a (c_store clk)]> (Handler.vacuum (c_vacuum clk) cache).
Proof.
  intros H. assert (Hne : inp <> PStr "").
  { intros ->. discriminate H. }
  split; [exact Hne|]. rewrite handler_post_present in H by exact Hne. cbv zeta in H.
  destruct (Handler.vacuum (c_vacuum clk) cache !! request_key inp); [discriminate H|].
  pose proof (fresh_answer_shape call clk (request_key inp) (Handler.vacuum (c_vacuum clk) cache)) as E.
  cbv zeta in E. rewrite E in H.
  destruct (LegacyEnsemble.parseAnswerWithConfidence (Some (call "gemini-2.0-flash"))) as [a1 c1].
  destruct (LegacyEnsemble.parseAnswerWithConfidence (Some (call "gemini-1.5-pro"))) as [a2 c2].
  cbn [fst snd] in H.
  repeat match type of H with context [if ?b then _ else _] => destruct b end;
    try discriminate H; by injection H as -> -> _ <- _.
Qed.

End LegacyRestFacts.

Module LegacyRestExtras.
Import Js LegacyRest LegacyRestFacts.

(** Script 2's cache key [normalizePrompt] is in canonical form: it has no
    leading or trailing whitespace, every whitespace character in it is a
    single space followed by a non-whitespace character, and normalizing it
    again gives it back. *)
Theorem prompt_key_canonical s :
  let t := normalizePrompt s in
  trim t = t /\
  (forall n c, String.get n t = Some c -> is_ws c = true ->
     c = " "%char /\ forall d, String.get (S n) t = Some d -> is_ws d = false) /\
  normalizePrompt (Some t) = t.
Proof.
  cbv zeta.
  assert (Ht : exists x, normalizePrompt s = trim x /\ spaced x = true).
  { destruct s as [[|c r]|]; [by exists ""| |by exists ""].
    exists (squash false (String c r)). split; [apply (normalizePrompt_squash (String c r))|apply spaced_squash]. }
  destruct Ht as (x & Hx & Hsp). rewrite Hx.
  assert (Hs : spaced (trim x) = true) by (by apply spaced_trim).
  split; [apply trim_idem|]. split.
  - intros n c Hg Hw. exact (spaced_get _ n c Hs Hg Hw).
  - rewrite normalizePrompt_squash. destruct (trim x) eqn:E; [done|]. cbv iota beta.
    destruct (squash_spaced _ Hs) as [-> _]. rewrite <- E. apply trim_idem.
Qed.

(** On a cache miss, script 2 calls the second model ("gemini-1.5-pro")
    exactly when the first model's parsed confidence is below 85; a fresh
    answer then carries the larger of the two confidences (the first
    model's on a tie), and otherwise the first model's answer and
    confidence. *)
Theorem escalation_second_model call clk inp cache :
  inp <> PStr "" ->
  Handler.vacuum (c_vacuum clk) cache !! request_key inp = None ->
  let p1 := LegacyEnsemble.parseAnswerWithConfidence (Some (call "gemini-2.0-flash")) in
  let p2 := LegacyEnsemble.parseAnswerWithConfidence (Some (call "gemini-1.5-pro")) in
  (In "gemini-1.5-pro" (snd (handler_post call clk (Some inp) cache)) <-> snd p1 < 85) /\
  (forall a c d, fst (fst (handler_post call clk (Some inp) cache)) = RFresh a c d ->
     c = (if snd p1 <? 85 then Z.max (snd p1) (snd p2) else snd p1) /\
     ((a, c) = p1 \/ ((a, c) = p2 /\ snd p1 < 85))).
Proof.
  intros Hne Hmiss. rewrite handler_post_present by exact Hne. cbv zeta. rewrite Hmiss.
  pose proof (fresh_answer_shape call clk (request_key inp) (Handler.vacuum (c_vacuum clk) cache)) as E.
  cbv zeta in E. rewrite E.
  destruct (LegacyEnsemble.parseAnswerWithConfidence (Some (call "gemini-2.0-flash"))) as [a1 c1].
  destruct (LegacyEnsemble.parseAnswerWithConfidence (Some (call "gemini-1.5-pro"))) as [a2 c2].
  cbn [fst snd].
  destruct (Z.leb_spec 85 c1) as [H85|H85].
  - replace (c1 <? 85) with false by (symmetry; apply Z.ltb_ge; lia).
    cbn [orb negb LegacyRest.ENSEMBLE_MODE].
    replace (85 <=? c1) with true by (symmetry; apply Z.leb_le; lia).
    match goal with |- context [if ?b then _ else _] => destruct b eqn:Eb end; cbn [fst snd In]; split.
    + split; [intros [Hx|[]]; discriminate Hx|lia].
    + intros a c d Hr; discriminate Hr.
    + split; [intros [Hx|[]]; discriminate Hx|lia].
    + intros a c d Hr; injection Hr as <- <- _. split; [reflexivity|by left].
  - replace (c1 <? 85) with true by (symmetry; apply Z.ltb_lt; lia).
    replace (85 <=? c1) with false by (symmetry; apply Z.leb_gt; lia).
    cbn [orb negb LegacyRest.ENSEMBLE_MODE].
    destruct (Z.ltb_spec c1 c2) as [H12|H12]; cbn [fst snd];
      match goal with |- context [if ?b then _ else _] => destruct b eqn:Eb end;
      cbn [fst snd In]; split;
      try (split; [intros _; lia|intros _; right; left; reflexivity]);
      intros a c d Hr; try discriminate Hr; injection Hr as <- <- _.
    + split; [lia|right; split; [reflexivity|lia]].
    + split; [lia|by left].
Qed.

(** The first model answers [A] with confidence 60, the third [D] with 90. *)
Definition mid_reply (a conf : string) : string :=
  "{" ++ Prompt.quoted "answer" ++ ": " ++ Prompt.quoted a ++ ", " ++ Prompt.quoted "confidence" ++ ": " ++ conf ++ "}".
Definition mid_call (m : string) : string :=
  if String.eqb m "gemini-2.0-flash" then mid_reply "A" "60" else mid_reply "D" "90".

Lemma escalation_second_model_witness :
  Handler.vacuum 0 ∅ !! request_key (PStr "Q") = None /\
  (In "gemini-1.5-pro" (snd (handler_post mid_call (mkClock 0 0 5 5) (Some (PStr "Q")) ∅)) <->
     snd (LegacyEnsemble.parseAnswerWithConfidence (Some (mid_call "gemini-2.0-flash"))) < 85) /\
  (forall a c d, fst (fst (handler_post mid_call (mkClock 0 0 5 5) (Some (PStr "Q")) ∅)) = RFresh a c d ->
     c = (if snd (LegacyEnsemble.parseAnswerWithConfidence (Some (mid_call "gemini-2.0-flash"))) <? 85
          then Z.max (snd (LegacyEnsemble.parseAnswerWithConfidence (Some (mid_call "gemini-2.0-flash"))))
                     (snd (LegacyEnsemble.parseAnswerWithConfidence (Some (mid_call "gemini-1.5-pro"))))
          else snd (LegacyEnsemble.parseAnswerWithConfidence (Some (mid_call "gemini-2.0-flash")))) /\
     ((a, c) = LegacyEnsemble.parseAnswerWithConfidence (Some (mid_call "gemini-2.0-flash")) \/
      ((a, c) = LegacyEnsemble.parseAnswerWithConfidence (Some (mid_call "gemini-1.5-pro")) /\
       snd (LegacyEnsemble.parseAnswerWithConfidence (Some (mid_call "gemini-2.0-flash"))) < 85))).
Proof.
  assert (Hm : Handler.vacuum 0 ∅ !! request_key (PStr "Q") = None) by (vm_compute; reflexivity).
  split; [exact Hm|].
  exact (escalation_second_model mid_call (mkClock 0 0 5 5) (PStr "Q") ∅ ltac:(discriminate) Hm).
Defined.

(** Script 2 loses a first answer whose parsed confidence is below 50 when
    the second model's call fails: the failed call parses as an empty
    answer with confidence 50, which wins the comparison, so the request
    ends in the error 500 "No answer found" and nothing is cached, even
    when the first model did answer. *)
Theorem low_confidence_answer_lost call clk inp cache a1 c1 :
  inp <> PStr "" ->
  Handler.vacuum (c_vacuum clk) cache !! request_key inp = None ->
  LegacyEnsemble.parseAnswerWithConfidence (Some (call "gemini-2.0-flash")) = (a1, c1) ->
  c1 < 50 ->
  call "gemini-1.5-pro" = "" ->
  handler_post call clk (Some inp) cache =
    (RError 500 "No answer found" (Some (call "gemini-2.0-flash")), Handler.vacuum (c_vacuum clk) cache,
     ["gemini-2.0-flash"; "gemini-1.5-pro"]).
Proof.
  intros Hne Hmiss Hp1 Hc1 Hp2. rewrite handler_post_present by exact Hne. cbv zeta. rewrite Hmiss.
  pose proof (fresh_answer_shape call clk (request_key inp) (Handler.vacuum (c_vacuum clk) cache)) as E.
  cbv zeta in E. rewrite E, Hp1, Hp2.
  change (LegacyEnsemble.parseAnswerWithConfidence (Some "")) with ("", 50). cbn [fst snd].
  replace (85 <=? c1) with false by (symmetry; apply Z.leb_gt; lia).
  replace (c1 <? 50) with true by (symmetry; apply Z.ltb_lt; lia).
  reflexivity.
Qed.

(** The first model answers [B] with confidence 30 in JSON; the second fails. *)
Definition low_reply : string :=
  "{" ++ Prompt.quoted "answer" ++ ": " ++ Prompt.quoted "B" ++ ", " ++ Prompt.quoted "confidence" ++ ": 30}".
Definition low_call (m : string) : string := if String.eqb m "gemini-2.0-flash" then low_reply else "".

Lemma low_confidence_answer_lost_witness :
  LegacyEnsemble.parseAnswerWithConfidence (Some (low_call "gemini-2.0-flash")) = ("B", 30) /\
  handler_post low_call (mkClock 0 0 5 5) (Some (PStr "Q")) ∅ =
    (RError 500 "No answer found" (Some low_reply), Handler.vacuum 0 ∅, ["gemini-2.0-flash"; "gemini-1.5-pro"]).
Proof.
  assert (H : LegacyEnsemble.parseAnswerWithConfidence (Some (low_call "gemini-2.0-flash")) = ("B", 30))
    by (vm_compute; reflexivity).
  split; [exact H|].
  apply (low_confidence_answer_lost low_call (mkClock 0 0 5 5) (PStr "Q") ∅ "B" 30);
    [discriminate|vm_compute; reflexivity|exact H|lia|reflexivity].
Defined.

(** After script 2 answers a request afresh, a later request whose prompt
    normalizes to the same key gets the stored answer and its timestamp
    from the cache, without calling a model and without a confidence, as
    long as its [vacuum] comes within [TTL_MS] of the stored timestamp. *)
Theorem repeat_prompt_cached call call' clk clk' inp inp' cache a c d cache1 calls :
  handler_post call clk (Some inp) cache = (RFresh a c d, cache1, calls) ->
  inp' <> PStr "" ->
  request_key inp' = request_key inp ->
  c_vacuum clk' - c_store clk <= Handler.TTL_MS ->
  handler_post call' clk' (Some inp') cache1 =
    (RCached a (c_store clk), Handler.vacuum (c_vacuum clk') cache1, []).
Proof.
  intros H Hne Hkey Hv. destruct (handler_post_fresh _ _ _ _ _ _ _ _ _ H) as [_ ->].
  rewrite handler_post_present by exact Hne. cbv zeta.
  rewrite Hkey, HandlerMoreFacts.vacuum_insert_lookup by (simpl; lia). reflexivity.
Qed.

Definition sure_reply : string :=
  "{" ++ Prompt.quoted "answer" ++ ": " ++ Prompt.quoted "C" ++ ", " ++ Prompt.quoted "confidence" ++ ": 90}".

Lemma repeat_prompt_cached_witness :
  handler_post (fun _ => sure_reply) (mkClock 0 0 5 5) (Some (PStr "What  is X?")) ∅ =
    (RFresh "C" 90 5, snd (fst (handler_post (fun _ => sure_reply) (mkClock 0 0 5 5) (Some (PStr "What  is X?")) ∅)),
     ["gemini-2.0-flash"]) /\
  handler_post (fun _ => "") (mkClock 60000 60000 60001 60001) (Some (PStr " What is X? "))
      (snd (fst (handler_post (fun _ => sure_reply) (mkClock 0 0 5 5) (Some (PStr "What  is X?")) ∅))) =
    (RCached "C" 5, Handler.vacuum 60000
       (snd (fst (handler_post (fun _ => sure_reply) (mkClock 0 0 5 5) (Some (PStr "What  is X?")) ∅))), []).
Proof.
  assert (H : handler_post (fun _ => sure_reply) (mkClock 0 0 5 5) (Some (PStr "What  is X?")) ∅ =
    (RFresh "C" 90 5, snd (fst (handler_post (fun _ => sure_reply) (mkClock 0 0 5 5) (Some (PStr "What  is X?")) ∅)),
     ["gemini-2.0-flash"])) by (vm_compute; reflexivity).
  split; [exact H|].
  apply (repeat_prompt_cached _ (fun _ => "") (mkClock 0 0 5 5) (mkClock 60000 60000 60001 60001)
           (PStr "What  is X?") (PStr " What is X? ") ∅ "C" 90 5 _ _ H).
  - discriminate.
  - vm_compute. reflexivity.
  - vm_compute. discriminate.
Defined.

End LegacyRestExtras.

(** ** Facts about script 1's vote, runner and handler *)
Module LegacyEnsembleFacts.
Import Js Ensemble TallyFacts LegacyEnsemble.

(** The parsed results backing the answer [k], and their number. *)
Definition supp (k : string) (P : list (string * string * Z)) : list (string * string * Z) :=
  List.filter (fun '(m, a, c) => String.eqb a k) P.
Definition cnt (k : string) (P : list (string * string * Z)) : Z := Z.of_nat (List.length (supp k P)).

(** [counts[k]] read on the tally, [0] for a missing key. *)
Definition get (t : list (string * Z)) (k : string) : Z :=
  match List.find (fun p => String.eqb (fst p) k) t with Some (_, n) => n | None => 0 end.

Lemma get_cons k0 n t k : get ((k0, n) :: t) k = if String.eqb k0 k then n else get t k.
Proof. unfold get. simpl. by destruct (String.eqb k0 k). Qed.

Lemma get_bump t k k' : get (bump t k) k' = get t k' + (if String.eqb k' k then 1 else 0).
Proof.
  induction t as [|[k0 n] t IH]; simpl.
  - unfold get. simpl. destruct (String.eqb_spec k k'), (String.eqb_spec k' k); subst; try congruence; lia.
  - destruct (String.eqb_spec k k0) as [->|Hne]; rewrite !get_cons.
    + destruct (String.eqb_spec k0 k'), (String.eqb_spec k' k0); subst; try congruence; lia.
    + rewrite IH. destruct (String.eqb_spec k0 k'), (String.eqb_spec k' k); subst; try congruence; lia.
Qed.

Lemma get_in t k n : NoDup (map fst t) -> In (k, n) t -> get t k = n.
Proof.
  induction t as [|[k0 n0] t IH]; simpl; [done|]. rewrite NoDup_cons. intros [Hk0 Hnd] [Heq|Hin].
  - injection Heq as -> ->. rewrite get_cons, String.eqb_refl. done.
  - rewrite get_cons. destruct (String.eqb_spec k0 k) as [->|]; [|by apply IH].
    exfalso. apply Hk0. apply list_elem_of_In. apply (in_map fst) in Hin. exact Hin.
Qed.

Lemma get_nonzero t k : get t k <> 0 -> In (k, get t k) t.
Proof.
  induction t as [|[k0 n0] t IH]; [unfold get; simpl; done|].
  rewrite get_cons. destruct (String.eqb_spec k0 k) as [->|]; intros H; [by left|right; by apply IH].
Qed.

Lemma bump_keys t k k' : In k' (map fst (bump t k)) <-> k' = k \/ In k' (map fst t).
Proof.
  induction t as [|[k0 n] t IH]; simpl; [naive_solver|].
  destruct (String.eqb_spec k k0) as [->|]; simpl; [naive_solver|]. rewrite IH. naive_solver.
Qed.

Lemma bump_nodup t k : NoDup (map fst t) -> NoDup (map fst (bump t k)).
Proof.
  induction t as [|[k0 n] t IH]; simpl; intros Hnd.
  - constructor; [set_solver|constructor].
  - destruct (String.eqb_spec k k0) as [->|Hne]; simpl; [exact Hnd|].
    rewrite NoDup_cons in Hnd |- *. destruct Hnd as [Hk0 Hnd]. split; [|by apply IH].
    rewrite list_elem_of_In, bump_keys. intros [->|Hin]; [done|]. apply Hk0, list_elem_of_In, Hin.
Qed.

Lemma supp_cons k m a c P :
  supp k ((m, a, c) :: P) = if String.eqb a k then (m, a, c) :: supp k P else supp k P.
Proof. reflexivity. Qed.

Lemma cnt_cons k m a c P : cnt k ((m, a, c) :: P) = (if String.eqb a k then 1 else 0) + cnt k P.
Proof. unfold cnt. rewrite supp_cons. destruct (String.eqb a k); simpl; lia. Qed.

Lemma cnt_nonneg k P : 0 <= cnt k P.
Proof. unfold cnt. lia. Qed.

Lemma fold_counts P t :
  NoDup (map fst t) ->
  NoDup (map fst (fold_left (fun t '(m, a, c) => bump t a) P t)) /\
  forall k, get (fold_left (fun t '(m, a, c) => bump t a) P t) k = get t k + cnt k P.
Proof.
  revert t. induction P as [|[[m a] c] P IH]; simpl; intros t Hnd.
  - split; [exact Hnd|]. intros k. unfold cnt. simpl. lia.
  - destruct (IH (bump t a) (bump_nodup t a Hnd)) as [Hnd' Hget]. split; [exact Hnd'|].
    intros k. rewrite Hget, get_bump, cnt_cons, (String.eqb_sym k a). lia.
Qed.

Lemma counts_nodup P : NoDup (map fst (answer_counts P)).
Proof. apply (fold_counts P []). constructor. Qed.

Lemma counts_get P k : get (answer_counts P) k = cnt k P.
Proof. destruct (fold_counts P [] ltac:(constructor)) as [_ H]. unfold answer_counts. rewrite H. reflexivity. Qed.

(** The first key of [sortedAnswers] has the largest count. *)
Lemma sorted_top P :
  P <> [] ->
  exists top r, sortedAnswers (answer_counts P) = (top, cnt top P) :: r /\ forall k, cnt k P <= cnt top P.
Proof.
  destruct P as [|[[m a] c] P]; [done|]. intros _.
  set (Q := (m, a, c) :: P).
  assert (Ha : get (answer_counts Q) a <> 0).
  { rewrite counts_get. unfold Q. rewrite cnt_cons, String.eqb_refl. pose proof (cnt_nonneg a P). lia. }
  pose proof (get_nonzero _ _ Ha) as Hin.
  assert (Hin' : In (a, get (answer_counts Q) a) (object_entries (answer_counts Q)))
    by (eapply Permutation_in; [symmetry; apply object_entries_perm|exact Hin]).
  destruct (sort_key_head_max snd _ _ Hin') as (h & r & Hs & _).
  destruct (sort_key_head_max_all snd _ _ _ Hs) as [Hh Hmax].
  destruct h as [top n].
  assert (Hh' : In (top, n) (answer_counts Q))
    by (eapply Permutation_in; [apply object_entries_perm|exact Hh]).
  assert (Hn : n = cnt top Q)
    by (rewrite <- counts_get; symmetry; apply get_in; [apply counts_nodup|exact Hh']).
  subst n. exists top, r. split; [exact Hs|].
  intros k. destruct (decide (get (answer_counts Q) k = 0)) as [H0|H0].
  - rewrite counts_get in H0. rewrite H0. apply cnt_nonneg.
  - pose proof (get_nonzero _ _ H0) as Hk. rewrite <- (counts_get Q k).
    apply (Hmax (k, get (answer_counts Q) k)).
    eapply Permutation_in; [symmetry; apply object_entries_perm|exact Hk].
Qed.

Lemma parsed_nil_of_no_success rs : List.filter success rs = [] -> parsedResults rs = [].
Proof.
  unfold parsedResults. induction rs as [|[m a c raw|m e] rs IH]; simpl; intros H; [done|discriminate|by apply IH].
Qed.

Lemma sort_by_nonempty {A} (cmp : A -> A -> Z) x l : sort_by cmp (x :: l) <> [].
Proof.
  intros Hs. pose proof (Permutation_length (sort_by_perm cmp (x :: l))) as Hl. rewrite Hs in Hl. discriminate.
Qed.

Lemma after_judge_some j v : exists r, after_judge j (Some v) = Ret r.
Proof.
  unfold after_judge. destruct j as [m a c raw|m e].
  - destruct (parseAnswerWithConfidence (Some raw)) as [a' c']. destruct (String.eqb a' ""); eexists; reflexivity.
  - eexists; reflexivity.
Qed.

Lemma after_judge_ok m a c raw vote :
  fst (parseAnswerWithConfidence (Some raw)) <> "" ->
  after_judge (MOk m a c raw) vote =
    Ret (Judged (fst (parseAnswerWithConfidence (Some raw))) (snd (parseAnswerWithConfidence (Some raw)))).
Proof.
  unfold after_judge. destruct (parseAnswerWithConfidence (Some raw)) as [a' c']. cbn [fst snd].
  intros Hne. destruct (String.eqb_spec a' ""); [done|reflexivity].
Qed.

Lemma after_judge_none j msg :
  after_judge j None = Throw msg <->
  msg = "Ensemble failed completely." /\
  forall m a c raw, j = MOk m a c raw -> fst (parseAnswerWithConfidence (Some raw)) = "".
Proof.
  unfold after_judge. destruct j as [m a c raw|m e].
  - destruct (parseAnswerWithConfidence (Some raw)) as [a' c'] eqn:Ep. cbn [fst].
    destruct (String.eqb_spec a' "") as [->|Hne].
    + split; [intros H; injection H as <-; split; [done|]|intros [-> _]; reflexivity].
      intros ? ? ? raw' [= _ _ _ <-]. rewrite Ep. reflexivity.
    + split; [discriminate|]. intros [_ H]. exfalso. apply Hne.
      specialize (H m a c raw eq_refl). rewrite Ep in H. exact H.
  - split; [intros H; injection H as <-; split; [done|discriminate]|intros [-> _]; reflexivity].
Qed.

End LegacyEnsembleFacts.

Module LegacyEnsembleExtras.
Import Js Ensemble TallyFacts LegacyEnsemble LegacyEnsembleFacts.

(** Script 1's [confidenceWeightedVote] returns [null] exactly when no
    successful worker reply parses to a non-empty answer. *)
Theorem legacy_vote_null rs : confidenceWeightedVote rs = None <-> parsedResults rs = [].
Proof.
  unfold confidenceWeightedVote. cbv zeta.
  destruct (List.filter success rs) as [|r0 rs0] eqn:Es.
  - split; [intros _; by apply parsed_nil_of_no_success|done].
  - destruct (parsedResults rs) as [|x P] eqn:EP; [done|].
    split; [|discriminate].
    destruct (2 <=? _); [discriminate|].
    destruct (find _ _) as [[[m1 a1] c1]|]; [discriminate|].
    destruct (sort_by _ (x :: P)) as [|[[m2 a2] c2] r] eqn:Esort; [|discriminate].
    by apply sort_by_nonempty in Esort.
Qed.

(** In script 1, the vote is a majority exactly when some answer is given
    by at least two parsed results; the majority answer is then one with
    the largest count, and its models are those of all the results giving
    it, in order. *)
Theorem legacy_majority rs v :
  confidenceWeightedVote rs = Some v ->
  (l_method v = "majority" <-> exists a, 2 <= cnt a (parsedResults rs)) /\
  (l_method v = "majority" ->
     (forall a, cnt a (parsedResults rs) <= cnt (l_finalAnswer v) (parsedResults rs)) /\
     l_models v = map (fun '(m, a, c) => m) (supp (l_finalAnswer v) (parsedResults rs))).
Proof.
  intros Hv. unfold confidenceWeightedVote in Hv. cbv zeta in Hv.
  destruct (List.filter success rs) as [|r0 rs0] eqn:Es; [discriminate|].
  destruct (parsedResults rs) as [|x P] eqn:EP; [discriminate|].
  destruct (sorted_top (x :: P) ltac:(discriminate)) as (top & r & Hs & Hmax).
  rewrite Hs in Hv. cbv beta iota in Hv.
  destruct (Z.leb_spec 2 (cnt top (x :: P))) as [H2|H2].
  - injection Hv as <-. cbn [l_method l_finalAnswer l_models].
    split; [split; [intros _; by exists top|done]|].
    intros _. split; [exact Hmax|reflexivity].
  - assert (Hm : l_method v <> "majority").
    { destruct (find _ _) as [[[m a] c]|]; [by injection Hv as <-|].
      destruct (sort_by _ _) as [|[[m a] c] r']; [discriminate|]. by injection Hv as <-. }
    split; [split; [done|intros [a Ha]; specialize (Hmax a); lia]|done].
Qed.

Lemma legacy_majority_witness :
  confidenceWeightedVote [MOk "gemini-3-flash-preview" "" 0 "A"; MOk "gemini-2.0-flash-001" "" 0 "B";
                          MOk "gemini-2.5-flash-lite" "" 0 "B"] =
    Some (mkLegacyVote "B" (120 # 2)%Q "majority" ["gemini-2.0-flash-001"; "gemini-2.5-flash-lite"]) /\
  ((l_method (mkLegacyVote "B" (120 # 2)%Q "majority" ["gemini-2.0-flash-001"; "gemini-2.5-flash-lite"]) = "majority" <->
    exists a, 2 <= cnt a (parsedResults [MOk "gemini-3-flash-preview" "" 0 "A"; MOk "gemini-2.0-flash-001" "" 0 "B";
                                         MOk "gemini-2.5-flash-lite" "" 0 "B"])) /\
   (l_method (mkLegacyVote "B" (120 # 2)%Q "majority" ["gemini-2.0-flash-001"; "gemini-2.5-flash-lite"]) = "majority" ->
     (forall a, cnt a (parsedResults [MOk "gemini-3-flash-preview" "" 0 "A"; MOk "gemini-2.0-flash-001" "" 0 "B";
                                      MOk "gemini-2.5-flash-lite" "" 0 "B"]) <=
                cnt "B" (parsedResults [MOk "gemini-3-flash-preview" "" 0 "A"; MOk "gemini-2.0-flash-001" "" 0 "B";
                                        MOk "gemini-2.5-flash-lite" "" 0 "B"])) /\
     ["gemini-2.0-flash-001"; "gemini-2.5-flash-lite"] =
       map (fun '(m, a, c) => m) (supp "B" (parsedResults [MOk "gemini-3-flash-preview" "" 0 "A";
                                            MOk "gemini-2.0-flash-001" "" 0 "B"; MOk "gemini-2.5-flash-lite" "" 0 "B"])))).
Proof.
  assert (H : confidenceWeightedVote [MOk "gemini-3-flash-preview" "" 0 "A"; MOk "gemini-2.0-flash-001" "" 0 "B";
                                      MOk "gemini-2.5-flash-lite" "" 0 "B"] =
    Some (mkLegacyVote "B" (120 # 2)%Q "majority" ["gemini-2.0-flash-001"; "gemini-2.5-flash-lite"])) by (vm_compute; reflexivity).
  split; [exact H|]. exact (legacy_majority _ _ H).
Defined.

(** Without a repeated answer, script 1 returns the first parsed result of
    [gemini-3-flash-preview] as ["primary"]; when that model gave no
    answer, it returns ["fallback_confidence"] with a result of the highest
    confidence. *)
Theorem legacy_no_majority rs :
  parsedResults rs <> [] ->
  (forall a, cnt a (parsedResults rs) <= 1) ->
  match find (fun '(m, a, c) => String.eqb m "gemini-3-flash-preview") (parsedResults rs) with
  | Some (m, a, c) => confidenceWeightedVote rs = Some (mkLegacyVote a (inject_Z c) "primary" [m])
  | None =>
      exists m a c, In (m, a, c) (parsedResults rs) /\
        (forall m' a' c', In (m', a', c') (parsedResults rs) -> c' <= c) /\
        confidenceWeightedVote rs = Some (mkLegacyVote a (inject_Z c) "fallback_confidence" [m])
  end.
Proof.
  intros Hne H1. unfold confidenceWeightedVote. cbv zeta.
  change (nth 0 EXACT_MODELS "") with "gemini-3-flash-preview".
  destruct (List.filter success rs) as [|r0 rs0] eqn:Es; [by apply parsed_nil_of_no_success in Es|].
  destruct (parsedResults rs) as [|x P] eqn:EP; [done|].
  destruct (sorted_top (x :: P) ltac:(discriminate)) as (top & r & Hs & _).
  rewrite Hs. cbv beta iota.
  replace (2 <=? cnt top (x :: P)) with false by (symmetry; apply Z.leb_gt; specialize (H1 top); lia).
  destruct (find _ (x :: P)) as [[[m a] c]|] eqn:Ef; [reflexivity|].
  destruct (sort_by (fun x y => snd y - snd x) (x :: P)) as [|[[m a] c] r'] eqn:Esort.
  - by apply sort_by_nonempty in Esort.
  - destruct (sort_key_head_max_all snd _ _ _ Esort) as [Hin Hmax].
    exists m, a, c. split; [exact Hin|]. split; [intros m' a' c' Hy; exact (Hmax _ Hy)|reflexivity].
Qed.

Lemma legacy_no_majority_witness :
  confidenceWeightedVote [MOk "gemini-3-flash-preview" "" 0 "x"; MOk "gemini-2.0-flash-001" "" 0 "A";
                          MOk "gemini-2.5-flash-lite" "" 0 "B"] =
    Some (mkLegacyVote "A" 60 "fallback_confidence" ["gemini-2.0-flash-001"]) /\
  match find (fun '(m, a, c) => String.eqb m "gemini-3-flash-preview")
      (parsedResults [MOk "gemini-3-flash-preview" "" 0 "x"; MOk "gemini-2.0-flash-001" "" 0 "A";
                      MOk "gemini-2.5-flash-lite" "" 0 "B"]) with
  | Some (m, a, c) =>
      confidenceWeightedVote [MOk "gemini-3-flash-preview" "" 0 "x"; MOk "gemini-2.0-flash-001" "" 0 "A";
                              MOk "gemini-2.5-flash-lite" "" 0 "B"] = Some (mkLegacyVote a (inject_Z c) "primary" [m])
  | None =>
      exists m a c, In (m, a, c) (parsedResults [MOk "gemini-3-flash-preview" "" 0 "x";
                                    MOk "gemini-2.0-flash-001" "" 0 "A"; MOk "gemini-2.5-flash-lite" "" 0 "B"]) /\
        (forall m' a' c', In (m', a', c') (parsedResults [MOk "gemini-3-flash-preview" "" 0 "x";
                            MOk "gemini-2.0-flash-001" "" 0 "A"; MOk "gemini-2.5-flash-lite" "" 0 "B"]) -> c' <= c) /\
        confidenceWeightedVote [MOk "gemini-3-flash-preview" "" 0 "x"; MOk "gemini-2.0-flash-001" "" 0 "A";
                                MOk "gemini-2.5-flash-lite" "" 0 "B"] =
          Some (mkLegacyVote a (inject_Z c) "fallback_confidence" [m])
  end.
Proof.
  split; [vm_compute; reflexivity|].
  apply legacy_no_majority; [vm_compute; discriminate|].
  intros a.
  assert (Hp : parsedResults [MOk "gemini-3-flash-preview" "" 0 "x"; MOk "gemini-2.0-flash-001" "" 0 "A";
                              MOk "gemini-2.5-flash-lite" "" 0 "B"] =
                 [("gemini-2.0-flash-001", "A", 60); ("gemini-2.5-flash-lite", "B", 60)]) by (vm_compute; reflexivity).
  rewrite Hp. unfold cnt, supp. cbn [List.filter].
  destruct (String.eqb "A" a) eqn:EA, (String.eqb "B" a) eqn:EB; cbn [List.length]; try lia.
  apply String.eqb_eq in EA, EB. congruence.
Defined.

(** Script 1's [runEnsemble] calls the judge [gemini-2.5-pro] exactly when
    the workers' vote is not a majority; it throws, always with the message
    "Ensemble failed completely.", exactly when the vote is [null] and the
    judge gives no answer; and a judge's answer replaces a vote that is
    not a majority. *)
Theorem legacy_run_judge call :
  let vote := confidenceWeightedVote
                (map call ["gemini-3-flash-preview"; "gemini-2.0-flash-001"; "gemini-2.5-flash-lite"]) in
  (In "gemini-2.5-pro" (snd (runEnsemble call)) <-> forall v, vote = Some v -> l_method v <> "majority") /\
  (forall msg, fst (runEnsemble call) = Throw msg <->
     msg = "Ensemble failed completely." /\ vote = None /\
     forall m a c raw, call "gemini-2.5-pro" = MOk m a c raw -> fst (parseAnswerWithConfidence (Some raw)) = "") /\
  (forall m a c raw, call "gemini-2.5-pro" = MOk m a c raw ->
     fst (parseAnswerWithConfidence (Some raw)) <> "" ->
     (forall v, vote = Some v -> l_method v <> "majority") ->
     fst (runEnsemble call) =
       Ret (Judged (fst (parseAnswerWithConfidence (Some raw))) (snd (parseAnswerWithConfidence (Some raw))))).
Proof.
  intros vote. subst vote. unfold runEnsemble, EXACT_MODELS, MODELS. cbv zeta. cbn [nth].
  destruct (confidenceWeightedVote _) as [v|] eqn:Ev.
  - destruct (String.eqb_spec (l_method v) "majority") as [Hm|Hm]; cbn [fst snd].
    + split; [|split].
      * split; [intros H; simpl in H; intuition discriminate|].
        intros H. exfalso. exact (H v eq_refl Hm).
      * intros msg. split; [discriminate|intros (_ & H & _); discriminate H].
      * intros m a c raw _ _ H. exfalso. exact (H v eq_refl Hm).
    + split; [|split].
      * split; [intros _ v' [= <-]; exact Hm|intros _; simpl; right; right; right; left; reflexivity].
      * intros msg. split; [|intros (_ & H & _); discriminate H].
        destruct (after_judge_some (call "gemini-2.5-pro") v) as [r ->]. discriminate.
      * intros m a c raw Hj Ha _. rewrite Hj. by apply after_judge_ok.
  - cbn [fst snd]. split; [|split].
    + split; [intros _ v' [=]|intros _; simpl; right; right; right; left; reflexivity].
    + intros msg. rewrite after_judge_none. split; [intros [-> H]; done|intros (-> & _ & H); done].
    + intros m a c raw Hj Ha _. rewrite Hj. by apply after_judge_ok.
Qed.

(** Script 1's cache never forgets: a POST never removes or changes a
    stored entry, and a request whose string prompt is a stored key gets
    that entry back marked as cached, however much time has passed. *)
Theorem legacy_cache_permanent call stringify t0 t1 input cache k d :
  cache !! k = Some d ->
  snd (handler_post call stringify t0 t1 input cache) !! k = Some d /\
  (k <> "" -> handler_post call stringify t0 t1 (Some (PStr k)) cache = (RCached d, cache)).
Proof.
  intros Hk. split.
  - unfold handler_post. destruct input as [[[|c s]|q]|]; cbn [snd]; try exact Hk.
    + destruct (cache !! String c s) as [d'|] eqn:Ec; [exact Hk|].
      destruct (fst (runEnsemble call)) as [r|msg]; [|exact Hk].
      destruct (final_fields r) as [a cf]. cbn [snd]. rewrite lookup_insert_ne; [exact Hk|congruence].
    + destruct (cache !! stringify q) as [d'|] eqn:Ec; [exact Hk|].
      destruct (fst (runEnsemble call)) as [r|msg]; [|exact Hk].
      destruct (final_fields r) as [a cf]. cbn [snd]. rewrite lookup_insert_ne; [exact Hk|congruence].
  - intros Hne. unfold handler_post. destruct k as [|c s]; [done|]. rewrite Hk. reflexivity.
Qed.

(** A cache holding one answer under the prompt ["Q"]. *)
Definition stored : gmap string RespData := <["Q" := mkResp "B" 80 12]> ∅.

Lemma legacy_cache_permanent_witness :
  stored !! "Q" = Some (mkResp "B" 80 12) /\
  snd (handler_post (fun _ => MErr "m" "down") (fun _ => "") 0 1 (Some (PStr "R"))
         (stored)) !! "Q" = Some (mkResp "B" 80 12) /\
  ("Q" <> "" -> handler_post (fun _ => MErr "m" "down") (fun _ => "") 0 1 (Some (PStr "Q"))
                  (stored) = (RCached (mkResp "B" 80 12), stored)).
Proof.
  assert (H : stored !! "Q" = Some (mkResp "B" 80 12)) by (vm_compute; reflexivity).
  split; [exact H|]. exact (legacy_cache_permanent _ _ _ _ _ _ _ _ H).
Defined.

End LegacyEnsembleExtras.

(** ** Script 1's and script 2's [parseAnswerWithConfidence] without JSON *)
Module LegacyParseFacts.
Import Js ExtractMoreFacts LegacyRestFacts.

(** The upper-cased letters A-F of a string, in order. *)
Definition af_up (s : string) : list ascii := af_letters (toUpperCase s).

Lemma af_up_cons c s :
  af_up (String c s) = ((if is_AF (upper_char c) then [upper_char c] else []) ++ af_up s)%list.
Proof. unfold af_up, toUpperCase. cbn [map_chars af_letters]. by destruct (is_AF (upper_char c)). Qed.

Lemma af_up_app a b : af_up (a ++ b) = (af_up a ++ af_up b)%list.
Proof.
  induction a as [|c a IH]; [reflexivity|].
  rewrite str_app_cons, !af_up_cons, IH. by rewrite app_assoc.
Qed.

Lemma ws_not_af c : is_ws c = true -> is_AF (upper_char c) = false.
Proof.
  destruct c as [b0 b1 b2 b3 b4 b5 b6 b7];
    destruct b0, b1, b2, b3, b4, b5, b6, b7; vm_compute; intros H; first [reflexivity|discriminate H].
Qed.

Lemma af_up_trim_start s : af_up (trim_start s) = af_up s.
Proof.
  induction s as [|c s IH]; [reflexivity|]. cbn [trim_start].
  destruct (is_ws c) eqn:E; [|reflexivity]. by rewrite IH, af_up_cons, ws_not_af.
Qed.

Lemma af_up_rev s : af_up (rev_string s) = rev (af_up s).
Proof.
  induction s as [|c s IH]; [reflexivity|]. cbn [rev_string].
  rewrite af_up_app, IH, (af_up_cons c s), rev_app_distr, (af_up_cons c EmptyString).
  destruct (is_AF (upper_char c)); reflexivity.
Qed.

Lemma af_up_trim s : af_up (trim s) = af_up s.
Proof. unfold trim, trim_end. by rewrite af_up_rev, af_up_trim_start, af_up_rev, rev_involutive, af_up_trim_start. Qed.

Lemma includes_brace s : includes s "{" = false -> all_chars (fun x => negb (Ascii.eqb "{" x)) s = true.
Proof.
  induction s as [|c s IH]; [reflexivity|]. cbn [includes starts_with all_chars].
  intros H. apply orb_false_iff in H as [H1 H2]. rewrite andb_true_r in H1. by rewrite H1, IH.
Qed.

Lemma index_brace_none s : all_chars (fun x => negb (Ascii.eqb "{" x)) s = true -> index 0 "{" s = None.
Proof.
  induction s as [|c s IH]; [reflexivity|]. cbn [all_chars]. intros H.
  apply andb_true_iff in H as [Hc Hs]. cbn [index]. rewrite IH by exact Hs.
  change (String.prefix "{" (String c s)) with (if ascii_dec "{" c then String.prefix "" s else false).
  destruct (ascii_dec "{" c) as [<-|Hne]; [by rewrite Ascii.eqb_refl in Hc|reflexivity].
Qed.

Lemma lazy_none raw : includes raw "{" = false -> Extract.lazy_json_match (trim raw) = None.
Proof.
  intros H. unfold Extract.lazy_json_match. rewrite index_brace_none; [reflexivity|].
  apply all_chars_trim, includes_brace, H.
Qed.

End LegacyParseFacts.

Module LegacyParseExtras.
Import Js LegacyEnsemble LegacyParseFacts.

(** When a non-empty reply contains no brace, the two older scripts'
    [parseAnswerWithConfidence] answers with every distinct letter A-F of
    the upper-cased reply, in order of first appearance and joined by
    ", ", with confidence 60, or with the empty answer and confidence 0
    when there is no such letter: the letters of ordinary words count. *)
Theorem legacy_parse_letters raw :
  raw <> "" ->
  includes raw "{" = false ->
  parseAnswerWithConfidence (Some raw) =
    (join_comma (dedup (af_letters (toUpperCase raw))),
     if (0 <? List.length (af_letters (toUpperCase raw)))%nat then 60 else 0).
Proof.
  destruct raw as [|c r]; [done|]. intros _ H.
  unfold parseAnswerWithConfidence. cbv beta iota zeta.
  rewrite (lazy_none (String c r) H). cbv beta iota.
  pose proof (af_up_trim (String c r)) as E. unfold af_up in E. rewrite E.
  destruct (0 <? List.length (af_letters (toUpperCase (String c r))))%nat eqn:El; [reflexivity|].
  apply Nat.ltb_ge in El. destruct (af_letters (toUpperCase (String c r))); [reflexivity|simpl in El; lia].
Qed.

Lemma legacy_parse_letters_witness :
  parseAnswerWithConfidence (Some "The answer is B") = ("E, A, B", 60) /\
  parseAnswerWithConfidence (Some "The answer is B") =
    (join_comma (dedup (af_letters (toUpperCase "The answer is B"))),
     if (0 <? List.length (af_letters (toUpperCase "The answer is B")))%nat then 60 else 0).
Proof.
  split; [vm_compute; reflexivity|].
  apply legacy_parse_letters; [discriminate|vm_compute; reflexivity].
Defined.

End LegacyParseExtras.
